(** * A deferred-value primitive: [Future] (and its copy [Bail])

    Shallow embedding of [src/index.ts].  The program is a promise
    implementation on top of the host's [setTimeout]; it is modelled as
    explicit state passing over

    - a heap of future objects (the index in the heap is the object's
      identity),
    - a heap of arrays (the [results] arrays that [all] allocates),
    - the host's timer queue, ordered by due time and first-in first-out
      among equal due times,
    - a trace of the calls [executeHandlers] makes to handlers; the trace
      is not program state, it only records what was delivered.

    Closures are defunctionalised: every function value the program
    creates or receives is a constructor of [fn] carrying the variables
    the closure captures. *)

From stdpp Require Import base list strings numbers sets.

Set Warnings "-register-all,-clear-no-such-hyp".

(** ** Values *)

Abbreviation fid := nat (only parsing).   (* identity of a future object *)
Abbreviation aid := nat (only parsing).   (* identity of an array object *)

Inductive value : Type :=
| VUndefined
| VNull
| VNum (n : Z)
| VStr (s : string)
| VArray (a : aid)
| VFuture (p : fid)
| VTypeError      (* thrown by calling something that is not a function *)
| VRangeError.    (* thrown when the call stack is exhausted *)

Global Instance value_eq_dec : EqDecision value.
Proof. solve_decision. Defined.

(** [STATUSES] holds the three strings the program compares [status]
    with.  A [status] field can hold two more things: nothing yet (a
    declared field before the constructor body runs) and the string
    ['Pending'] of [Bail]'s field initialiser, which differs from
    [STATUSES.PENDING]. *)
Inductive STATUSES : Type :=
| PENDING
| FULFILLED
| REJECTED
| Unset
| Literal_Pending.

Global Instance STATUSES_eq_dec : EqDecision STATUSES.
Proof. solve_decision. Defined.

(** What a call yields: a returned value or a thrown one. *)
Inductive completion : Type :=
| Return (v : value)
| Throw (e : value).

(** ** Function values

    [FResolve p] and [FReject p] are the arrow functions [p.resolve] and
    [p.reject].  [FAllThen], [FRaceThen] and [FRelay] are the callbacks
    written inside [all] and [race].  The remaining constructors are
    callbacks a caller may pass: [FPure g] computes without touching the
    heap, [FThenOn q f r] is [() => { q.then(f, r) }]. *)
Inductive fn : Type :=
| FResolve (p : fid)
| FReject (p : fid)
| FAllThen (results : aid) (len : nat) (agg : fid)
| FRaceThen (agg : fid)
| FRelay (agg : fid)
| FPure (g : value -> completion)
| FThenOn (q : fid) (f r : option fn).

(** The object [then] passes to [addHandler].  Its two closures capture
    [onFulfill], [onReject] and the [res]/[rej] of the child under
    construction; the record holds the captured variables and
    [Handler_onFullfill]/[Handler_onReject] below are the closure bodies. *)
Record Handler : Type := mkHandler {
  onFulfill : option fn;
  onReject : option fn;
  child : fid
}.

Record Future : Type := mkFuture {
  status : STATUSES;
  val : value;
  handlers : list Handler
}.

(** Callbacks handed to [setTimeout]. *)
Inductive task : Type :=
| TUpdate (p : fid) (v : value) (s : STATUSES)   (* the closure in updateResult *)
| TApply (f : fn) (v : value).                   (* () => f(v) *)

Record state : Type := mkState {
  heap : list Future;
  arrays : list (list value);
  timers : list (nat * task);
  clock : nat;
  trace : list (fid * Handler)
}.

Definition empty_state : state := mkState [] [] [] 0 [].

(** ** The host *)

(** Position of a new timer: behind every timer due no later than it. *)
Fixpoint enqueue (due : nat) (t : task) (q : list (nat * task)) : list (nat * task) :=
  match q with
  | [] => [(due, t)]
  | (d, t') :: q' =>
      if d <=? due then (d, t') :: enqueue due t q' else (due, t) :: q
  end.

Definition setTimeout (t : task) (delay : nat) (σ : state) : state :=
  mkState (heap σ) (arrays σ) (enqueue (clock σ + delay) t (timers σ))
          (clock σ) (trace σ).

(** ** Heap access *)

Definition set_future (p : fid) (o : Future) (σ : state) : state :=
  mkState (<[p := o]> (heap σ)) (arrays σ) (timers σ) (clock σ) (trace σ).

Definition status_of (p : fid) (σ : state) : option STATUSES :=
  status <$> heap σ !! p.

Definition value_of (p : fid) (σ : state) : option value :=
  val <$> heap σ !! p.

Definition handlers_of (p : fid) (σ : state) : list Handler :=
  from_option handlers [] (heap σ !! p).

Definition array_of (a : aid) (σ : state) : list value :=
  default [] (arrays σ !! a).

(** [results.push(value)] *)
Definition array_push (a : aid) (v : value) (σ : state) : state :=
  mkState (heap σ) (<[a := array_of a σ ++ [v]]> (arrays σ)) (timers σ)
          (clock σ) (trace σ).

(** [const results = []] *)
Definition array_new (σ : state) : aid * state :=
  (length (arrays σ),
   mkState (heap σ) (arrays σ ++ [[]]) (timers σ) (clock σ) (trace σ)).

Definition log_delivery (p : fid) (h : Handler) (σ : state) : state :=
  mkState (heap σ) (arrays σ) (timers σ) (clock σ) (trace σ ++ [(p, h)]).

(** ** The class body *)

Definition isThenable (v : value) : bool :=
  match v with VFuture _ => true | _ => false end.

(** [updateResult] only hands its closure to the host. *)
Definition updateResult (p : fid) (v : value) (s : STATUSES) (σ : state) : state :=
  setTimeout (TUpdate p v s) 0 σ.

Definition resolve (p : fid) (v : value) : state -> state :=
  updateResult p v FULFILLED.

Definition reject (p : fid) (e : value) : state -> state :=
  updateResult p e REJECTED.

Section Class.

(** What the class's field initialiser leaves in [status] before the
    constructor body runs: nothing for [Future], ['Pending'] for [Bail]. *)
Variable status0 : STATUSES.

(** Object creation up to the call of the resolver: the field
    initialiser, then the constructor's three assignments. *)
Definition allocate (σ : state) : fid * state :=
  let this := length (heap σ) in
  let σ0 := mkState (heap σ ++ [mkFuture status0 VUndefined []])
                    (arrays σ) (timers σ) (clock σ) (trace σ) in
  let σ1 := set_future this (mkFuture PENDING VUndefined []) σ0 in
  (this, σ1).

(** [new Future(resolver)]: the resolver receives [this.resolve] and
    [this.reject], that is, [this]. *)
Definition construct (resolver : fid -> state -> completion * state)
    (σ : state) : fid * state :=
  let '(this, σ1) := allocate σ in
  match resolver this σ1 with
  | (Return _, σ2) => (this, σ2)
  | (Throw err, σ2) => (this, reject this err σ2)
  end.

Section Body.

(** How a function value is called; tied to [call] below. *)
Variable apply_fn : fn -> value -> state -> completion * state.

Definition Handler_onFullfill (h : Handler) (v : value) (σ : state) : state :=
  match onFulfill h with
  | None => resolve (child h) v σ
  | Some f =>
      match apply_fn f v σ with
      | (Return r, σ') => resolve (child h) r σ'
      | (Throw err, σ') => reject (child h) err σ'
      end
  end.

(** Without [onReject] the first [rej(value)] is not returned from: the
    [try] block then calls [onReject], which is not a function, and the
    [catch] block rejects a second time with the type error. *)
Definition Handler_onReject (h : Handler) (v : value) (σ : state) : state :=
  match onReject h with
  | None => reject (child h) VTypeError (reject (child h) v σ)
  | Some f =>
      match apply_fn f v σ with
      | (Return r, σ') => reject (child h) r σ'
      | (Throw err, σ') => reject (child h) err σ'
      end
  end.

(** One iteration of the [forEach] in [executeHandlers]; [status] and
    [value] are read from the object at the time of the call. *)
Definition deliver (p : fid) (σ : state) (h : Handler) : state :=
  match heap σ !! p with
  | None => σ
  | Some o =>
      let σ' := log_delivery p h σ in
      if decide (status o = FULFILLED)
      then Handler_onFullfill h (val o) σ'
      else Handler_onReject h (val o) σ'
  end.

(** [forEach] visits the elements the array has when the loop starts;
    [this.handlers = []] then installs a new array. *)
Definition executeHandlers (p : fid) (σ : state) : state :=
  match heap σ !! p with
  | None => σ
  | Some o =>
      if decide (status o = PENDING) then σ
      else
        let σ' := foldl (deliver p) σ (handlers o) in
        match heap σ' !! p with
        | None => σ'
        | Some o' => set_future p (mkFuture (status o') (val o') []) σ'
        end
  end.

Definition addHandler (p : fid) (h : Handler) (σ : state) : state :=
  match heap σ !! p with
  | None => σ
  | Some o =>
      executeHandlers p
        (set_future p (mkFuture (status o) (val o) (handlers o ++ [h])) σ)
  end.

Definition then_ (p : fid) (f r : option fn) (σ : state) : fid * state :=
  construct (fun c σ' => (Return VUndefined, addHandler p (mkHandler f r c) σ')) σ.

(** [catch(onReject)] passes [null] for [onFulfill]. *)
Definition catch (p : fid) (r : fn) (σ : state) : fid * state :=
  then_ p None (Some r) σ.

(** The closure [updateResult] hands to [setTimeout]. *)
Definition update_task (p : fid) (v : value) (s : STATUSES) (σ : state) : state :=
  match heap σ !! p with
  | None => σ
  | Some o =>
      if decide (status o = PENDING) then
        if isThenable v then
          match v with
          | VFuture q => snd (then_ q (Some (FResolve p)) (Some (FReject p)) σ)
          | _ => σ
          end
        else executeHandlers p (set_future p (mkFuture s v (handlers o)) σ)
      else σ
  end.

End Body.

(** Calling a function value.  [depth] is the room left on the call
    stack for callbacks that re-enter [then]; when it is used up the call
    throws, as the host does. *)
Fixpoint call (depth : nat) (f : fn) (v : value) (σ : state) : completion * state :=
  match f with
  | FResolve p => (Return VUndefined, resolve p v σ)
  | FReject p => (Return VUndefined, reject p v σ)
  | FAllThen results len agg =>
      let σ1 := array_push results v σ in
      (Return VUndefined,
       if decide (length (array_of results σ1) = len)
       then resolve agg (VArray results) σ1 else σ1)
  | FRaceThen agg => (Return VUndefined, resolve agg v σ)
  | FRelay agg => (Return VUndefined, reject agg v σ)
  | FPure g => (g v, σ)
  | FThenOn q f' r' =>
      match depth with
      | 0 => (Throw VRangeError, σ)
      | S d => (Return VUndefined, snd (then_ (call d) q f' r' σ))
      end
  end.

(** ** The public surface, at a given stack depth *)

Definition run_task (depth : nat) (t : task) (σ : state) : state :=
  match t with
  | TUpdate p v s => update_task (call depth) p v s σ
  | TApply f v => snd (call depth f v σ)
  end.

(** The [forEach] loop that [all] and [race] share:
    [future.then(cb).catch(err => rej(err))] on every input. *)
Definition subscribe (depth : nat) (cb : fn) (agg : fid) (σ : state)
    (futuresArr : list fid) : state :=
  foldl (fun σ' future =>
           let '(t, σ'') := then_ (call depth) future (Some cb) None σ' in
           snd (catch (call depth) t (FRelay agg) σ''))
        σ futuresArr.

Definition all (depth : nat) (futuresArr : list fid) (σ : state) : fid * state :=
  construct (fun agg σ1 =>
    let '(results, σ2) := array_new σ1 in
    (Return VUndefined,
     subscribe depth (FAllThen results (length futuresArr) agg) agg σ2 futuresArr))
    σ.

Definition race (depth : nat) (futuresArr : list fid) (σ : state) : fid * state :=
  construct (fun agg σ1 =>
    (Return VUndefined, subscribe depth (FRaceThen agg) agg σ1 futuresArr)) σ.

(** Resolvers a caller may write: a sequence of statements over the two
    capabilities it receives. *)
Inductive stmt : Type :=
| CallResolve (v : value)                 (* resolve(v) *)
| CallReject (e : value)                  (* reject(e) *)
| LaterResolve (delay : nat) (v : value)  (* setTimeout(() => resolve(v), delay) *)
| LaterReject (delay : nat) (e : value)   (* setTimeout(() => reject(e), delay) *)
| ThrowNow (e : value).                   (* throw e *)

Fixpoint run_resolver (body : list stmt) (this : fid) (σ : state) : completion * state :=
  match body with
  | [] => (Return VUndefined, σ)
  | CallResolve v :: k => run_resolver k this (resolve this v σ)
  | CallReject e :: k => run_resolver k this (reject this e σ)
  | LaterResolve d v :: k =>
      run_resolver k this (setTimeout (TApply (FResolve this) v) d σ)
  | LaterReject d e :: k =>
      run_resolver k this (setTimeout (TApply (FReject this) e) d σ)
  | ThrowNow e :: _ => (Throw e, σ)
  end.

Definition new_future (body : list stmt) (σ : state) : fid * state :=
  construct (run_resolver body) σ.

(** ** The event loop *)

(** One turn: the host takes the first timer and runs its callback. *)
Definition tick (depth : nat) (σ : state) : option state :=
  match timers σ with
  | [] => None
  | (due, t) :: q =>
      Some (run_task depth t
              (mkState (heap σ) (arrays σ) q (Nat.max (clock σ) due) (trace σ)))
  end.

Fixpoint run (depth : nat) (n : nat) (σ : state) : state :=
  match n with
  | 0 => σ
  | S n' =>
      match tick depth σ with
      | None => σ
      | Some σ' => run depth n' σ'
      end
  end.

End Class.

Arguments allocate : simpl never.
Arguments construct : simpl never.
Arguments then_ : simpl never.
Arguments catch : simpl never.
Arguments executeHandlers : simpl never.
Arguments addHandler : simpl never.
Arguments update_task : simpl never.
Arguments subscribe : simpl never.


(** ** What a synchronous operation leaves alone

    [quiet σ σ'] relates the states before and after code that runs
    inside one turn without being the body of an update: the clock stands
    still, no future is lost, no future changes [status] or [value], a
    future that appears is [PENDING] without a value, and the trace only
    grows. *)

Record quiet (σ σ' : state) : Prop := mkQuiet {
  quiet_clock : clock σ' = clock σ;
  quiet_heap : ∀ (p : fid) (o : Future), heap σ !! p = Some o →
      ∃ o', heap σ' !! p = Some o' ∧ status o' = status o ∧ val o' = val o;
  quiet_fresh : ∀ (p : fid) (o' : Future), heap σ !! p = None →
      heap σ' !! p = Some o' → status o' = PENDING ∧ val o' = VUndefined;
  quiet_trace : ∃ ext, trace σ' = trace σ ++ ext
}.

(** ** What a turn of the event loop leaves alone

    [fixed σ σ'] holds when every future that has left [PENDING] in [σ]
    is found in [σ'] with the same [status] and [value]. *)

Definition fixed (σ σ' : state) : Prop :=
  ∀ (p : fid) (o : Future), heap σ !! p = Some o → status o ≠ PENDING →
    ∃ o', heap σ' !! p = Some o' ∧ status o' = status o ∧ val o' = val o.

(** ** Calls of the two capabilities

    A resolver, or a callback it scheduled, settles its future through
    [resolve] and [reject]; the specification calls them
    [settleFulfilled] and [settleRejected]. *)

Inductive settle_call : Type :=
| settleFulfilled (v : value)
| settleRejected (e : value).

Definition payload (c : settle_call) : value :=
  match c with settleFulfilled v => v | settleRejected e => e end.

Definition kind (c : settle_call) : STATUSES :=
  match c with settleFulfilled _ => FULFILLED | settleRejected _ => REJECTED end.

Definition settle (p : fid) (σ : state) (c : settle_call) : state :=
  match c with
  | settleFulfilled v => resolve p v σ
  | settleRejected e => reject p e σ
  end.

(** No callback of an earlier turn is waiting: every timer in the queue
    is due later than now. *)
Definition idle (σ : state) : Prop :=
  Forall (fun e => clock σ < e.1) (timers σ).

(** "Only the first call has any effect": at every later moment the
    future looks as it does when the calls after the first are left out. *)
Definition only_first_call_counts (status0 : STATUSES) (depth : nat)
    (σ : state) (p : fid) (c : settle_call) (cs : list settle_call) : Prop :=
  ∀ n : nat,
    status_of p (run status0 depth n (foldl (settle p) σ (c :: cs)))
      = status_of p (run status0 depth n (settle p σ c))
    ∧ value_of p (run status0 depth n (foldl (settle p) σ (c :: cs)))
      = value_of p (run status0 depth n (settle p σ c)).

(** ** Sample states *)

(** [k] futures created with a resolver that does nothing. *)
Definition pending_futures (status0 : STATUSES) (k : nat) : state :=
  Nat.iter k (fun σ => (new_future status0 [] σ).2) empty_state.

Definition settled_as (σ : state) (p : fid) (s : STATUSES) (v : value) : Prop :=
  status_of p σ = Some s ∧ value_of p σ = Some v.

(** ** Deferred callbacks, seen as a list

    [defer ts] hands the callbacks [ts] to the host with delay 0, one after
    the other.  [ready σ zs q] reads the timer queue as the callbacks
    [zs] that are due now, in the order they will run, followed by the
    timers [q] that are due later. *)

Definition defer (ts : list task) (σ : state) : state :=
  foldl (fun σ' t => setTimeout t 0 σ') σ ts.

Definition ready (σ : state) (zs : list task) (q : list (nat * task)) : Prop :=
  timers σ = map (pair (clock σ)) zs ++ q ∧ Forall (fun e => clock σ < e.1) q.

(** Callbacks that neither re-enter [then] nor touch an array: what they
    hand to the host and what they return. *)
Definition plain_cb (f : fn) : Prop :=
  match f with
  | FResolve _ | FReject _ | FRaceThen _ | FRelay _ | FPure _ => True
  | FAllThen _ _ _ | FThenOn _ _ _ => False
  end.

Definition callback_tasks (f : fn) (v : value) : list task * completion :=
  match f with
  | FResolve p | FRaceThen p => ([TUpdate p v FULFILLED], Return VUndefined)
  | FReject p | FRelay p => ([TUpdate p v REJECTED], Return VUndefined)
  | FPure g => ([], g v)
  | FAllThen _ _ _ | FThenOn _ _ _ => ([], Return VUndefined)
  end.

(** Delivery calls one of the two callbacks of a handler, chosen by the
    status; [plain_for s h] says that this one, if present, is plain. *)
Definition plain_for (s : STATUSES) (h : Handler) : Prop :=
  if decide (s = FULFILLED) then from_option plain_cb True (onFulfill h)
  else from_option plain_cb True (onReject h).

(** What the delivery of [h] hands to the host when the future has
    status [s] and value [v]. *)
Definition relay_tasks (s : STATUSES) (v : value) (h : Handler) : list task :=
  if decide (s = FULFILLED) then
    match onFulfill h with
    | None => [TUpdate (child h) v FULFILLED]
    | Some f =>
        (callback_tasks f v).1 ++
        [match (callback_tasks f v).2 with
         | Return r => TUpdate (child h) r FULFILLED
         | Throw err => TUpdate (child h) err REJECTED
         end]
    end
  else
    match onReject h with
    | None => [TUpdate (child h) v REJECTED; TUpdate (child h) VTypeError REJECTED]
    | Some f =>
        (callback_tasks f v).1 ++
        [match (callback_tasks f v).2 with
         | Return r => TUpdate (child h) r REJECTED
         | Throw err => TUpdate (child h) err REJECTED
         end]
    end.

(** The state in which the first ready callback runs. *)
Definition popped (σ : state) (zs : list task) (q : list (nat * task)) : state :=
  mkState (heap σ) (arrays σ) (map (pair (clock σ)) zs ++ q) (clock σ) (trace σ).

Definition log_all (p : fid) (hs : list Handler) (σ : state) : state :=
  mkState (heap σ) (arrays σ) (timers σ) (clock σ) (trace σ ++ map (pair p) hs).

Definition with_heap (h : list Future) (σ : state) : state :=
  mkState h (arrays σ) (timers σ) (clock σ) (trace σ).

(** A deferred update that finds its future settled: it will do nothing. *)
Definition dead (h : list Future) (t : task) : Prop :=
  match t with
  | TUpdate x _ _ => ∃ o, h !! x = Some o ∧ status o ≠ PENDING
  | TApply _ _ => False
  end.

(** [p.then(f1).then(f2)...]: a chain of [then] calls without [onReject];
    the result lists the children, outermost last. *)
Fixpoint then_chain (status0 : STATUSES) (depth : nat) (p : fid)
    (fs : list (option fn)) (σ : state) : list fid * state :=
  match fs with
  | [] => ([], σ)
  | f :: fs' =>
      let '(c, σ1) := then_ status0 (call status0 depth) p f None σ in
      let '(cs, σ2) := then_chain status0 depth c fs' σ1 in
      (c :: cs, σ2)
  end.

(** The heap after [then_chain]: every link is pending and holds the
    handler of the next one. *)
Fixpoint linked (h : list Future) (p : fid) (fs : list (option fn))
    (cs : list fid) : Prop :=
  match fs, cs with
  | [], [] => ∃ w, h !! p = Some (mkFuture PENDING w [])
  | f :: fs', c :: cs' =>
      (∃ w, h !! p = Some (mkFuture PENDING w [mkHandler f None c]))
      ∧ p < c ∧ linked h c fs' cs'
  | _, _ => False
  end.

(** ** Futures resolved with futures

    [nest k inner]: [k] futures, each created by
    [new Future(res => res(previous))], starting from [inner]. *)
Fixpoint nest (status0 : STATUSES) (k : nat) (inner : fid) (σ : state)
    : list fid * state :=
  match k with
  | 0 => ([], σ)
  | S k' =>
      let '(a, σ1) := new_future status0 [CallResolve (VFuture inner)] σ in
      let '(rest, σ2) := nest status0 k' a σ1 in
      (a :: rest, σ2)
  end.

(** The updates that [nest] leaves with the host. *)
Fixpoint adoptions (inner : fid) (outer : list fid) : list task :=
  match outer with
  | [] => []
  | a :: rest => TUpdate a (VFuture inner) FULFILLED :: adoptions a rest
  end.

(** The heap once every adoption has run: each future holds the handler
    that settles the next one; [d] is the child that [then] made on the
    way. *)
Fixpoint adopting (h : list Future) (p : fid) (outer : list fid) : Prop :=
  match outer with
  | [] => ∃ w, h !! p = Some (mkFuture PENDING w [])
  | a :: rest =>
      (∃ w d od,
         h !! p = Some (mkFuture PENDING w
                          [mkHandler (Some (FResolve a)) (Some (FReject a)) d])
         ∧ h !! d = Some od ∧ handlers od = []
         ∧ Forall (fun x => x < d) (p :: outer))
      ∧ p < a ∧ adopting h a rest
  end.

(** An update that can only settle a future nobody waits for, outside
    the futures [ids]. *)
Definition inert (h : list Future) (ids : list fid) (t : task) : Prop :=
  match t with
  | TUpdate x v s =>
      isThenable v = false ∧ s ≠ PENDING ∧ (x ∉ ids)
      ∧ ∃ o, h !! x = Some o ∧ handlers o = []
  | TApply _ _ => False
  end.

Fixpoint ascending (p : nat) (l : list nat) : Prop :=
  match l with
  | [] => True
  | a :: l' => p < a ∧ ascending a l'
  end.

(** ** What a caller can do in one turn *)

Inductive operation : Type :=
| OpNew (body : list stmt)              (* new Future(resolver) *)
| OpThen (p : fid) (f r : option fn)    (* p.then(f, r) *)
| OpCatch (p : fid) (r : fn)            (* p.catch(r) *)
| OpAll (futuresArr : list fid)         (* Future.all(futuresArr) *)
| OpRace (futuresArr : list fid)        (* Future.race(futuresArr) *)
| OpSettle (p : fid) (c : settle_call). (* a call of p's resolve or reject *)

Definition perform (status0 : STATUSES) (depth : nat) (op : operation)
    (σ : state) : state :=
  match op with
  | OpNew body => (new_future status0 body σ).2
  | OpThen p f r => (then_ status0 (call status0 depth) p f r σ).2
  | OpCatch p r => (catch status0 (call status0 depth) p r σ).2
  | OpAll fs => (all status0 depth fs σ).2
  | OpRace fs => (race status0 depth fs σ).2
  | OpSettle p c => settle p σ c
  end.

(** The futures on which an operation registers a handler. *)
Definition registers_on (op : operation) : list fid :=
  match op with
  | OpThen p _ _ | OpCatch p _ => [p]
  | OpAll fs | OpRace fs => fs
  | OpNew _ | OpSettle _ _ => []
  end.

(** "Nothing of a settlement shows inside the turn": the operation
    changes no status and no value, and runs no handler. *)
Definition nothing_shows (status0 : STATUSES) (depth : nat) (op : operation)
    (σ : state) : Prop :=
  quiet σ (perform status0 depth op σ)
  ∧ trace (perform status0 depth op σ) = trace σ.

(** A future that has been fulfilled with [1]. *)
Definition fulfilled_future (status0 : STATUSES) : state :=
  run status0 0 1 (new_future status0 [CallResolve (VNum 1)] empty_state).2.

(** How many times the handler that [then] created together with the
    child [c] has been called on future [p]. *)
Definition deliveries (p c : fid) (σ : state) : nat :=
  length (filter (fun e => e.1 = p ∧ child e.2 = c) (trace σ)).

(** A pending future with the handler of
    [p.then(() => { p.then(x => x) })], then resolved with [7]. *)
Definition reentrant_scenario (status0 : STATUSES) (depth : nat) : state :=
  let σ0 := pending_futures status0 1 in
  let σ1 :=
    (then_ status0 (call status0 depth) 0
       (Some (FThenOn 0 (Some (FPure Return)) None)) None σ0).2 in
  resolve 0 (VNum 7) σ1.

(** ** The wiring that [all] and [race] install

    Both call [future.then(cb).catch(err => rej(err))] on every input:
    input number [i] gets the handler [H], whose child [T] gets the
    handler [K], whose child is [U].  [base] is the size of the heap when
    the first input is visited. *)
Definition then_child (base i : nat) : fid := base + 2 * i.
Definition catch_child (base i : nat) : fid := base + 2 * i + 1.

Definition input_handler (cb : fn) (base i : nat) : Handler :=
  mkHandler (Some cb) None (then_child base i).

Definition relay_handler (agg : fid) (base i : nat) : Handler :=
  mkHandler None (Some (FRelay agg)) (catch_child base i).

(** Input [i] is wired and nothing has happened to it yet. *)
Definition input_waiting (h : list Future) (cb : fn) (agg base : nat)
    (i : nat) (f : fid) : Prop :=
  (∃ w, h !! f = Some (mkFuture PENDING w [input_handler cb base i]))
  ∧ h !! then_child base i
    = Some (mkFuture PENDING VUndefined [relay_handler agg base i])
  ∧ h !! catch_child base i = Some (mkFuture PENDING VUndefined []).

Definition with_arrays (a : list (list value)) (σ : state) : state :=
  mkState (heap σ) a (timers σ) (clock σ) (trace σ).

(** ** Programs of a caller: operations and turns of the event loop *)

Inductive activity : Type :=
| Call (op : operation)
| Turn.

Definition act (status0 : STATUSES) (depth : nat) (σ : state) (a : activity)
    : state :=
  match a with
  | Call op => perform status0 depth op σ
  | Turn => run status0 depth 1 σ
  end.

Definition execute (status0 : STATUSES) (depth : nat) (prog : list activity)
    (σ : state) : state :=
  foldl (act status0 depth) σ prog.

(** Calls of [resolve]/[reject] made one after the other in one turn. *)
Definition settle_each (σ : state) (evs : list (fid * settle_call)) : state :=
  foldl (fun σ' ev => settle ev.1 σ' ev.2) σ evs.

(** The state of an [all] whose inputs [done] have fulfilled, in this
    order, and whose other inputs are still waiting. *)
Definition all_waiting (fs : list fid) (σ : state) (agg r : nat)
    (done : list (fid * value)) : Prop :=
  timers σ = []
  ∧ heap σ !! agg = Some (mkFuture PENDING VUndefined [])
  ∧ arrays σ !! r = Some (map snd done)
  ∧ Forall (fun f => f < agg) fs
  ∧ ∀ i f, fs !! i = Some f → f ∉ map fst done →
      input_waiting (heap σ) (FAllThen r (length fs) agg) agg (S agg) i f.

(** Inputs that fulfil in separate turns: [resolve] is called on an
    input and the host runs up to [n] callbacks before the next input
    fulfils.  [sched] lists the inputs with their values in the order in
    which they complete. *)
Definition fulfil_in_turns (status0 : STATUSES) (depth n : nat) (σ : state)
    (sched : list (fid * value)) : state :=
  foldl (fun σ' ev => run status0 depth n (resolve ev.1 ev.2 σ')) σ sched.

(** The inputs are futures that nobody has settled or subscribed to. *)
Definition untouched (σ : state) (fs : list fid) : Prop :=
  Forall (fun f => ∃ w, heap σ !! f = Some (mkFuture PENDING w [])) fs.

Definition plain_values (sched : list (fid * value)) : Prop :=
  Forall (fun ev => isThenable ev.2 = false) sched.

(** ** The two classes

    [Bail] is [Future] with the names changed and with the field
    initialiser [status = 'Pending']. *)
Definition Future_class : STATUSES := Unset.
Definition Bail_class : STATUSES := Literal_Pending.

(** ** What [then] makes of a settlement

    The status and value that the handler installed by [then(f, r)]
    passes to the child when the parent has status [s] and value [v],
    for callbacks that compute a result from their argument. *)
Definition child_outcome (s : STATUSES) (v : value)
    (f r : option (value → completion)) : STATUSES * value :=
  if decide (s = FULFILLED) then
    match f with
    | None => (FULFILLED, v)
    | Some g =>
        match g v with
        | Return x => (FULFILLED, x)
        | Throw err => (REJECTED, err)
        end
    end
  else
    match r with
    | None => (REJECTED, v)
    | Some g =>
        match g v with
        | Return x => (REJECTED, x)
        | Throw err => (REJECTED, err)
        end
    end.

(** Status and value of every child along [p.then(g1).then(g2)...]
    when [p] has status [s] and value [v]. *)
Fixpoint chain_outcomes (s : STATUSES) (v : value)
    (gs : list (option (value → completion))) : list (STATUSES * value) :=
  match gs with
  | [] => []
  | g :: gs' =>
      let o := child_outcome s v g None in
      o :: chain_outcomes o.1 o.2 gs'
  end.

(** [p.then(f1, r1); p.then(f2, r2); ...]: several subscriptions to the
    same future; the result lists the children. *)
Fixpoint then_each (status0 : STATUSES) (depth : nat) (p : fid)
    (cbs : list (option fn * option fn)) (σ : state) : list fid * state :=
  match cbs with
  | [] => ([], σ)
  | (f, r) :: cbs' =>
      let '(c, σ1) := then_ status0 (call status0 depth) p f r σ in
      let '(cs, σ2) := then_each status0 depth p cbs' σ1 in
      (c :: cs, σ2)
  end.

(** The handlers that [then_each] registers. *)
Definition handlers_for (cbs : list (option fn * option fn)) (cs : list fid)
    : list Handler :=
  zip_with (fun cb c => mkHandler cb.1 cb.2 c) cbs cs.

Definition plain_pair (cb : option fn * option fn) : Prop :=
  from_option plain_cb True cb.1 ∧ from_option plain_cb True cb.2.

(** No object holds a future in its [value] field. *)
Definition no_future_values (σ : state) : Prop :=
  ∀ (p : fid) (o : Future), heap σ !! p = Some o → isThenable (val o) = false.

(** ** What a resolver does before it returns *)

(** The first call of a capability, or the throw, that takes place
    while the resolver runs. *)
Fixpoint first_sync (body : list stmt) : option settle_call :=
  match body with
  | [] => None
  | CallResolve v :: _ => Some (settleFulfilled v)
  | CallReject e :: _ => Some (settleRejected e)
  | ThrowNow e :: _ => Some (settleRejected e)
  | LaterResolve _ _ :: k | LaterReject _ _ :: k => first_sync k
  end.

(** The callbacks that the construction of [this] hands to the host
    with delay 0: the updates of the calls the resolver makes, its
    timers of delay 0, and the update of the constructor's [catch]
    block when the resolver throws. *)
Fixpoint resolver_now (this : fid) (body : list stmt) : list task :=
  match body with
  | [] => []
  | CallResolve v :: k => TUpdate this v FULFILLED :: resolver_now this k
  | CallReject e :: k => TUpdate this e REJECTED :: resolver_now this k
  | LaterResolve 0 v :: k => TApply (FResolve this) v :: resolver_now this k
  | LaterReject 0 e :: k => TApply (FReject this) e :: resolver_now this k
  | LaterResolve (S _) _ :: k | LaterReject (S _) _ :: k => resolver_now this k
  | ThrowNow e :: _ => [TUpdate this e REJECTED]
  end.

(** The constructor's [try]/[catch] around the call of the resolver. *)
Definition after_resolver (this : fid) (r : completion * state) : state :=
  match r with
  | (Return _, σ) => σ
  | (Throw err, σ) => reject this err σ
  end.

(** A timer callback that calls [resolve] or [reject] of [this]. *)
Definition capability_call (this : fid) (t : task) : Prop :=
  match t with
  | TApply (FResolve p) _ | TApply (FReject p) _ => p = this
  | _ => False
  end.

(** ** Who can settle a future

    [reaches a f]: calling [f] can lead to a call of [resolve] or
    [reject] of the future [a]. *)
Fixpoint reaches (a : fid) (f : fn) : Prop :=
  match f with
  | FResolve p | FReject p | FRaceThen p | FRelay p => p = a
  | FAllThen _ _ agg => agg = a
  | FPure _ => False
  | FThenOn _ f' r' =>
      match f' with Some g => reaches a g | None => False end
      ∨ match r' with Some g => reaches a g | None => False end
  end.

Definition reaches_opt (a : fid) (f : option fn) : Prop :=
  match f with Some g => reaches a g | None => False end.

(** A handler holds the capabilities of its child and whatever its
    callbacks reach. *)
Definition held_by_handler (a : fid) (h : Handler) : Prop :=
  child h = a ∨ reaches_opt a (onFulfill h) ∨ reaches_opt a (onReject h).

Definition held_by_task (a : fid) (t : task) : Prop :=
  match t with
  | TUpdate p _ _ => p = a
  | TApply f _ => reaches a f
  end.

(** No timer and no registered handler holds the capabilities of [a]. *)
Definition unheld (a : fid) (σ : state) : Prop :=
  Forall (fun e => ¬ held_by_task a e.2) (timers σ)
  ∧ ∀ (p : fid) (o : Future), heap σ !! p = Some o →
      Forall (fun h => ¬ held_by_handler a h) (handlers o).

(** [a] is an object of the heap that nothing can settle any more. *)
Definition sealed (a : fid) (σ : state) : Prop :=
  a < length (heap σ) ∧ unheld a σ.

(** The object [a] has the same [status] and [value] in [σ']. *)
Definition unchanged (a : fid) (σ σ' : state) : Prop :=
  ∀ o, heap σ !! a = Some o →
    ∃ o', heap σ' !! a = Some o' ∧ status o' = status o ∧ val o' = val o.

(** ** Resolvers that settle later *)

(** Of two deferred calls the one due first is kept; the earlier
    statement wins a tie. *)
Definition pick (x : nat * settle_call) (o : option (nat * settle_call))
    : nat * settle_call :=
  match o with
  | Some y => if y.1 <? x.1 then y else x
  | None => x
  end.

(** The deferred call of a capability that comes due first, with its
    delay. *)
Fixpoint earliest_call (body : list stmt) : option (nat * settle_call) :=
  match body with
  | [] => None
  | LaterResolve d v :: k => Some (pick (d, settleFulfilled v) (earliest_call k))
  | LaterReject d e :: k => Some (pick (d, settleRejected e) (earliest_call k))
  | _ :: k => earliest_call k
  end.

(** The timer callback that makes the call [c] on [this]. *)
Definition capability_task (this : fid) (c : settle_call) : task :=
  match c with
  | settleFulfilled v => TApply (FResolve this) v
  | settleRejected e => TApply (FReject this) e
  end.

(** The timers a resolver sets, in the order of its statements. *)
Fixpoint later_calls (body : list stmt) : list (nat * settle_call) :=
  match body with
  | [] => []
  | LaterResolve d v :: k => (d, settleFulfilled v) :: later_calls k
  | LaterReject d e :: k => (d, settleRejected e) :: later_calls k
  | _ :: k => later_calls k
  end.

Definition enqueue_calls (this : fid) (now : nat)
    (es : list (nat * settle_call)) (q : list (nat * task)) : list (nat * task) :=
  foldl (fun q' e => enqueue (now + e.1) (capability_task this e.2) q') q es.

(** The timer queue is kept in the order in which the timers come due. *)
Fixpoint in_due_order (q : list (nat * task)) : Prop :=
  match q with
  | [] => True
  | e :: q' => Forall (fun y => e.1 ≤ y.1) q' ∧ in_due_order q'
  end.

(** The head of the queue once the timers of the resolver have been
    added to a queue with head [h]; an older timer wins a tie. *)
Definition first_due (this : fid) (now : nat) (h : option (nat * task))
    (e : option (nat * settle_call)) : option (nat * task) :=
  match h, e with
  | Some h', Some e' =>
      if h'.1 <=? now + e'.1 then Some h'
      else Some (now + e'.1, capability_task this e'.2)
  | Some h', None => Some h'
  | None, Some e' => Some (now + e'.1, capability_task this e'.2)
  | None, None => None
  end.

Fixpoint earliest (es : list (nat * settle_call)) : option (nat * settle_call) :=
  match es with
  | [] => None
  | e :: k => Some (pick e (earliest k))
  end.

(** ** [all] on inputs that have fulfilled already *)

(** The child [T] of [then] and the child [U] of [catch] that [all]
    and [race] create for input [i], as [catch] leaves them. *)
Definition relay_waiting (h : list Future) (agg base i : nat) : Prop :=
  h !! then_child base i
  = Some (mkFuture PENDING VUndefined [relay_handler agg base i])
  ∧ h !! catch_child base i = Some (mkFuture PENDING VUndefined []).

(** What [all] hands to the host while it visits [n] inputs that have
    fulfilled already, [k] inputs having been visited before: the
    update of the child of [then] for every input and, before it, the
    update of the aggregate for the input that completes the results. *)
Fixpoint settled_inputs_tasks (r : aid) (len : nat) (agg : fid)
    (base k n : nat) : list task :=
  match n with
  | 0 => []
  | S n' =>
      (if decide (S k = len) then [TUpdate agg (VArray r) FULFILLED] else [])
      ++ [TUpdate (then_child base k) VUndefined FULFILLED]
      ++ settled_inputs_tasks r len agg base (S k) n'
  end.

(** * Properties *)

(** ** Object creation *)

Lemma allocate_eq (status0 : STATUSES) (σ : state) :
  allocate status0 σ =
  (length (heap σ),
   mkState (heap σ ++ [mkFuture PENDING VUndefined []])
           (arrays σ) (timers σ) (clock σ) (trace σ)).
Proof.
  unfold allocate, set_future; simpl. do 2 f_equal.
  rewrite insert_app_r_alt by lia. by rewrite Nat.sub_diag.
Qed.

(** ** Synchronous operations are quiet *)

Lemma quiet_same (σ σ' : state) :
  clock σ' = clock σ → heap σ' = heap σ → trace σ' = trace σ → quiet σ σ'.
Proof.
  intros Hc Hh Ht. split; [done | | |].
  - intros p o Hp. exists o. by rewrite Hh.
  - intros p o' Hn Hp. congruence.
  - exists []. by rewrite app_nil_r.
Qed.

Lemma quiet_refl σ : quiet σ σ.
Proof. by apply quiet_same. Qed.

Lemma quiet_trans σ1 σ2 σ3 : quiet σ1 σ2 → quiet σ2 σ3 → quiet σ1 σ3.
Proof.
  intros [Hc1 Hh1 Hf1 [e1 Ht1]] [Hc2 Hh2 Hf2 [e2 Ht2]]. split; [congruence | | |].
  - intros p o Hp. destruct (Hh1 p o Hp) as (o1 & Hp1 & Hs1 & Hv1).
    destruct (Hh2 p o1 Hp1) as (o2 & Hp2 & Hs2 & Hv2).
    exists o2. split; [done | split; congruence].
  - intros p o3 Hn Hp3. destruct (heap σ2 !! p) as [o2 |] eqn:Hp2.
    + destruct (Hf1 p o2 Hn Hp2) as [Hs Hv].
      destruct (Hh2 p o2 Hp2) as (o' & Hp' & Hs' & Hv').
      rewrite Hp3 in Hp'. simplify_eq. split; congruence.
    + by apply (Hf2 p o3).
  - exists (e1 ++ e2). by rewrite Ht2, Ht1, app_assoc.
Qed.

Lemma quiet_setTimeout t d σ : quiet σ (setTimeout t d σ).
Proof. by apply quiet_same. Qed.

Lemma quiet_updateResult p v s σ : quiet σ (updateResult p v s σ).
Proof. apply quiet_setTimeout. Qed.

Lemma quiet_log p h σ : quiet σ (log_delivery p h σ).
Proof.
  split; [done | | |].
  - intros q o Hq. by exists o.
  - intros q o' Hn Hq. simpl in Hq. congruence.
  - by exists [(p, h)].
Qed.

Lemma quiet_array_push a v σ : quiet σ (array_push a v σ).
Proof. by apply quiet_same. Qed.

Lemma quiet_array_new σ : quiet σ (array_new σ).2.
Proof. by apply quiet_same. Qed.

(** Replacing an object by one with the same [status] and [value]. *)
Lemma quiet_set_future p o o' σ :
  heap σ !! p = Some o → status o' = status o → val o' = val o →
  quiet σ (set_future p o' σ).
Proof.
  intros Hp Hs Hv. split; [done | | |].
  - intros q oq Hq; simpl.
    destruct (decide (p = q)) as [-> | Hne].
    + exists o'. rewrite list_lookup_insert_eq by (by eapply lookup_lt_Some).
      split; [done | split; congruence].
    + exists oq. by rewrite list_lookup_insert_ne.
  - intros q oq Hn Hq. simpl in Hq.
    apply lookup_ge_None in Hn. apply lookup_lt_Some in Hq.
    rewrite length_insert in Hq. lia.
  - exists []. by rewrite app_nil_r.
Qed.

Lemma quiet_allocate s0 σ : quiet σ (allocate s0 σ).2.
Proof.
  rewrite allocate_eq; simpl. split; [done | | |].
  - intros p o Hp; simpl.
    exists o. by rewrite lookup_app_l by (by eapply lookup_lt_Some).
  - intros p o' Hn Hp. simpl in Hp. apply lookup_ge_None in Hn.
    rewrite lookup_app_r in Hp by done.
    destruct (p - length (heap σ)) as [| k]; simpl in Hp; [| done].
    by simplify_eq.
  - exists []. by rewrite app_nil_r.
Qed.

Section QuietBody.

Variable status0 : STATUSES.
Variable apply_fn : fn → value → state → completion * state.
Hypothesis apply_quiet : ∀ f v σ, quiet σ (apply_fn f v σ).2.

Lemma quiet_onFullfill h v σ : quiet σ (Handler_onFullfill apply_fn h v σ).
Proof.
  unfold Handler_onFullfill. destruct (onFulfill h) as [f |].
  - pose proof (apply_quiet f v σ) as Hq.
    destruct (apply_fn f v σ) as [[r | e] σ']; simpl in Hq;
      (eapply quiet_trans; [exact Hq | apply quiet_updateResult]).
  - apply quiet_updateResult.
Qed.

Lemma quiet_onReject h v σ : quiet σ (Handler_onReject apply_fn h v σ).
Proof.
  unfold Handler_onReject. destruct (onReject h) as [f |].
  - pose proof (apply_quiet f v σ) as Hq.
    destruct (apply_fn f v σ) as [[r | e] σ']; simpl in Hq;
      (eapply quiet_trans; [exact Hq | apply quiet_updateResult]).
  - eapply quiet_trans; apply quiet_updateResult.
Qed.

Lemma quiet_deliver p σ h : quiet σ (deliver apply_fn p σ h).
Proof.
  unfold deliver. destruct (heap σ !! p) as [o |]; [| apply quiet_refl].
  eapply quiet_trans; [apply (quiet_log p h) |].
  case_decide; [apply quiet_onFullfill | apply quiet_onReject].
Qed.

Lemma quiet_foldl_deliver p hs σ : quiet σ (foldl (deliver apply_fn p) σ hs).
Proof.
  revert σ. induction hs as [| h hs IH]; intros σ; simpl; [apply quiet_refl |].
  eapply quiet_trans; [apply quiet_deliver | apply IH].
Qed.

Lemma quiet_executeHandlers p σ : quiet σ (executeHandlers apply_fn p σ).
Proof.
  unfold executeHandlers. destruct (heap σ !! p) as [o |]; [| apply quiet_refl].
  case_decide; [apply quiet_refl |].
  set (σ' := foldl _ _ _). assert (quiet σ σ') as Hq by apply quiet_foldl_deliver.
  destruct (heap σ' !! p) as [o' |] eqn:Hp'; [| done].
  eapply quiet_trans; [exact Hq |]. by eapply quiet_set_future.
Qed.

Lemma quiet_addHandler p h σ : quiet σ (addHandler apply_fn p h σ).
Proof.
  unfold addHandler. destruct (heap σ !! p) as [o |] eqn:Hp; [| apply quiet_refl].
  eapply quiet_trans; [| apply quiet_executeHandlers].
  by eapply quiet_set_future.
Qed.

Lemma quiet_construct resolver σ :
  (∀ this σ', quiet σ' (resolver this σ').2) →
  quiet σ (construct status0 resolver σ).2.
Proof.
  intros Hres. unfold construct.
  pose proof (quiet_allocate status0 σ) as Ha.
  destruct (allocate status0 σ) as [this σ1]; simpl in Ha.
  pose proof (Hres this σ1) as Hr.
  destruct (resolver this σ1) as [[r | e] σ2]; simpl in *.
  - by eapply quiet_trans.
  - eapply quiet_trans; [exact Ha |].
    eapply quiet_trans; [exact Hr | apply quiet_updateResult].
Qed.

Lemma quiet_then p f r σ : quiet σ (then_ status0 apply_fn p f r σ).2.
Proof. apply quiet_construct. intros this σ'; simpl. apply quiet_addHandler. Qed.

Lemma quiet_catch p r σ : quiet σ (catch status0 apply_fn p r σ).2.
Proof. apply quiet_then. Qed.

End QuietBody.

Lemma quiet_call s0 depth f v σ : quiet σ (call s0 depth f v σ).2.
Proof.
  revert f v σ. induction depth as [| d IH]; intros f v σ;
    destruct f; simpl; try apply quiet_updateResult; try apply quiet_refl.
  - case_decide; [| apply quiet_array_push].
    eapply quiet_trans; [apply quiet_array_push | apply quiet_updateResult].
  - case_decide; [| apply quiet_array_push].
    eapply quiet_trans; [apply quiet_array_push | apply quiet_updateResult].
  - by apply quiet_then.
Qed.

Lemma quiet_subscribe s0 depth (cb : fn) agg fs σ :
  quiet σ (subscribe s0 depth cb agg σ fs).
Proof.
  unfold subscribe. revert σ. induction fs as [| f fs IH]; intros σ; cbn [foldl]; [apply quiet_refl |].
  eapply quiet_trans; [| apply IH].
  pose proof (quiet_then s0 _ (quiet_call s0 depth) f (Some cb) None σ) as H1.
  destruct (then_ _ _ f _ _ σ) as [t σ3]; cbn [snd] in H1 |- *.
  eapply quiet_trans; [exact H1 |]. apply quiet_catch, quiet_call.
Qed.

Lemma quiet_all s0 depth fs σ : quiet σ (all s0 depth fs σ).2.
Proof.
  apply quiet_construct. intros agg σ1; simpl.
  eapply quiet_trans; [apply quiet_array_new |]. apply quiet_subscribe.
Qed.

Lemma quiet_race s0 depth fs σ : quiet σ (race s0 depth fs σ).2.
Proof.
  apply quiet_construct. intros agg σ1; simpl. apply quiet_subscribe.
Qed.

Lemma quiet_run_resolver body this σ : quiet σ (run_resolver body this σ).2.
Proof.
  revert σ. induction body as [| [v | e | d v | d e | e] k IH]; intros σ; simpl;
    try apply quiet_refl;
    (eapply quiet_trans; [| apply IH]);
    first [apply quiet_updateResult | apply quiet_setTimeout].
Qed.

Lemma quiet_new_future s0 body σ : quiet σ (new_future s0 body σ).2.
Proof. apply quiet_construct. intros; apply quiet_run_resolver. Qed.

(** ** Settled futures stay fixed *)

Lemma fixed_refl σ : fixed σ σ.
Proof. intros p o Hp _. eauto. Qed.

Lemma fixed_trans σ1 σ2 σ3 : fixed σ1 σ2 → fixed σ2 σ3 → fixed σ1 σ3.
Proof.
  intros H1 H2 p o Hp Hs. destruct (H1 p o Hp Hs) as (o1 & Hp1 & Hs1 & Hv1).
  destruct (H2 p o1 Hp1) as (o2 & Hp2 & Hs2 & Hv2); [congruence |].
  exists o2. split; [done | split; congruence].
Qed.

Lemma quiet_fixed σ σ' : quiet σ σ' → fixed σ σ'.
Proof. intros [_ Hq _ _] p o Hp _. eauto. Qed.

(** The update of a future that is still [PENDING], with a value that is
    not a future, stores the status and the value. *)
Lemma update_task_settles s0 depth p v s σ o :
  heap σ !! p = Some o → status o = PENDING → isThenable v = false →
  ∃ o', heap (update_task s0 (call s0 depth) p v s σ) !! p = Some o'
        ∧ status o' = s ∧ val o' = v.
Proof.
  intros Hp Hs Hv. unfold update_task. rewrite Hp, Hv.
  rewrite decide_True by done.
  set (σ1 := set_future p _ σ).
  assert (heap σ1 !! p = Some (mkFuture s v (handlers o))) as Hp1.
  { simpl. apply list_lookup_insert_eq. by eapply lookup_lt_Some. }
  destruct (quiet_executeHandlers (call s0 depth) (quiet_call s0 depth) p σ1)
    as [_ Hq _ _].
  destruct (Hq p _ Hp1) as (o' & Ho' & Hs' & Hv'). eauto.
Qed.

(** The update of a future that has left [PENDING] does nothing at all. *)
Lemma update_task_noop s0 depth p v s σ o :
  heap σ !! p = Some o → status o ≠ PENDING →
  update_task s0 (call s0 depth) p v s σ = σ.
Proof.
  intros Hp Hs. unfold update_task. rewrite Hp. by rewrite decide_False.
Qed.

Lemma fixed_update_task s0 depth p v s σ :
  fixed σ (update_task s0 (call s0 depth) p v s σ).
Proof.
  unfold update_task. destruct (heap σ !! p) as [o |] eqn:Hp; [| apply fixed_refl].
  case_decide as Hs; [| apply fixed_refl].
  destruct (isThenable v).
  - destruct v; try apply fixed_refl.
    apply quiet_fixed, quiet_then, quiet_call.
  - eapply fixed_trans;
      [| apply quiet_fixed, quiet_executeHandlers, quiet_call].
    intros q oq Hq Hsq; simpl.
    assert (p ≠ q) as Hne by (intros ->; congruence).
    exists oq. by rewrite list_lookup_insert_ne.
Qed.

Lemma fixed_run_task s0 depth t σ : fixed σ (run_task s0 depth t σ).
Proof.
  destruct t as [p v s | f v]; simpl.
  - apply fixed_update_task.
  - apply quiet_fixed, quiet_call.
Qed.

Lemma fixed_tick s0 depth σ σ' : tick s0 depth σ = Some σ' → fixed σ σ'.
Proof.
  unfold tick. destruct (timers σ) as [| [due t] q]; [done |].
  intros [= <-]. eapply fixed_trans; [| apply fixed_run_task].
  intros p o Hp _; simpl. eauto.
Qed.

Lemma fixed_run s0 depth n σ : fixed σ (run s0 depth n σ).
Proof.
  revert σ. induction n as [| n IH]; intros σ; simpl; [apply fixed_refl |].
  destruct (tick s0 depth σ) as [σ' |] eqn:Ht; [| apply fixed_refl].
  eapply fixed_trans; [by eapply fixed_tick | apply IH].
Qed.

Lemma run_add s0 depth n m σ :
  run s0 depth (n + m) σ = run s0 depth m (run s0 depth n σ).
Proof.
  revert σ. induction n as [| n IH]; intros σ; simpl; [done |].
  destruct (tick s0 depth σ) as [σ' |] eqn:Ht; [apply IH |].
  clear IH. induction m as [| m IHm]; simpl; [done |]. by rewrite Ht.
Qed.

(** Once a future has left [PENDING], its status and value stay what
    they are, whatever the event loop runs afterwards. *)
Lemma settled_forever s0 depth σ p s v n :
  status_of p σ = Some s → s ≠ PENDING → value_of p σ = Some v →
  status_of p (run s0 depth n σ) = Some s ∧ value_of p (run s0 depth n σ) = Some v.
Proof.
  unfold status_of, value_of. intros Hs Hne Hv.
  destruct (heap σ !! p) as [o |] eqn:Hp; simplify_eq/=.
  destruct (fixed_run s0 depth n σ p o Hp Hne) as (o' & -> & Hs' & Hv'); simpl.
  by rewrite Hs', Hv'.
Qed.

(** ** Settlement *)

Lemma enqueue_idle (due : nat) (t : task) (q : list (nat * task)) :
  Forall (fun e => due < e.1) q → enqueue due t q = (due, t) :: q.
Proof.
  destruct q as [| [d t'] q]; [done |]. intros Hq; simpl.
  apply Forall_cons_1 in Hq as [Hd _]; simpl in Hd.
  destruct (d <=? due) eqn:Hle; [| done]. apply Nat.leb_le in Hle. lia.
Qed.

Lemma settle_heap p σ c : heap (settle p σ c) = heap σ.
Proof. by destruct c. Qed.

Lemma settle_clock p σ c : clock (settle p σ c) = clock σ.
Proof. by destruct c. Qed.

Lemma settle_timers p σ c :
  timers (settle p σ c)
  = enqueue (clock σ + 0) (TUpdate p (payload c) (kind c)) (timers σ).
Proof. by destruct c. Qed.

(** Calls made in one turn queue up behind the first of them. *)
Lemma settle_all_behind p cs σ t q :
  timers σ = (clock σ, t) :: q →
  heap (foldl (settle p) σ cs) = heap σ
  ∧ clock (foldl (settle p) σ cs) = clock σ
  ∧ ∃ q', timers (foldl (settle p) σ cs) = (clock σ, t) :: q'.
Proof.
  revert σ q. induction cs as [| c cs IH]; intros σ q Hq; simpl; [eauto |].
  destruct (IH (settle p σ c) (enqueue (clock σ + 0) (TUpdate p (payload c) (kind c)) q))
    as (Hh & Hc & q' & Hq').
  { rewrite settle_timers, settle_clock, Hq; simpl.
    by rewrite (proj2 (Nat.leb_le _ _)) by lia. }
  rewrite Hh, Hc, Hq', settle_heap, settle_clock. eauto.
Qed.

Lemma first_call_settles s0 depth σ p c cs o n :
  idle σ → heap σ !! p = Some o → status o = PENDING →
  isThenable (payload c) = false →
  status_of p (run s0 depth (S n) (foldl (settle p) σ (c :: cs))) = Some (kind c)
  ∧ value_of p (run s0 depth (S n) (foldl (settle p) σ (c :: cs))) = Some (payload c).
Proof.
  intros Hidle Hp Hs Hv. cbn [foldl].
  destruct (settle_all_behind p cs (settle p σ c)
              (TUpdate p (payload c) (kind c)) (timers σ))
    as (Hh & Hc & q' & Hq').
  { rewrite settle_timers, settle_clock, Nat.add_0_r. by apply enqueue_idle. }
  rewrite settle_heap in Hh.
  cbn [run]. unfold tick. rewrite Hq'. cbn [run_task].
  set (σ1 := mkState _ _ q' _ _).
  destruct (update_task_settles s0 depth p (payload c) (kind c) σ1 o)
    as (o' & Ho' & Hs' & Hv'); [by rewrite <- Hp, <- Hh | done | done |].
  apply settled_forever.
  - unfold status_of. by rewrite Ho'; simpl; rewrite Hs'.
  - by destruct c.
  - unfold value_of. by rewrite Ho'; simpl; rewrite Hv'.
Qed.

(** C1, as stated, fails: future 1 is first resolved with future 0, which
    never settles, and then rejected with ["x"].  The second call is not
    a no-op: it is the one that settles future 1. *)
Lemma settle_twice_counterexample :
  ¬ only_first_call_counts Unset 0 (pending_futures Unset 2) 1
      (settleFulfilled (VFuture 0)) [settleRejected (VStr "x")].
Proof.
  intros H. destruct (H 2) as [Hs _]. vm_compute in Hs. discriminate Hs.
Qed.

(** C1 (amended).  For every future and every sequence of calls of
    [settleFulfilled]/[settleRejected] made in one turn whose first call
    carries a value that is not a future: only the first call counts (the
    later calls, in any combination and with any values, are no-ops); if
    the future was [PENDING] it takes the first call's status and value
    at the next turn; and once a future has left [PENDING] its status and
    value are the same at every later moment. *)
Theorem settlement_is_idempotent (status0 : STATUSES) (depth : nat)
    (σ : state) (p : fid) (c : settle_call) (cs : list settle_call) :
  idle σ → is_Some (heap σ !! p) → isThenable (payload c) = false →
  let σ' := foldl (settle p) σ (c :: cs) in
  only_first_call_counts status0 depth σ p c cs
  ∧ (status_of p σ = Some PENDING →
     ∀ n, status_of p (run status0 depth (S n) σ') = Some (kind c)
          ∧ value_of p (run status0 depth (S n) σ') = Some (payload c))
  ∧ (∀ n m s v,
       status_of p (run status0 depth n σ') = Some s → s ≠ PENDING →
       value_of p (run status0 depth n σ') = Some v →
       status_of p (run status0 depth (n + m) σ') = Some s
       ∧ value_of p (run status0 depth (n + m) σ') = Some v).
Proof.
  intros Hidle [o Hp] Hv σ'. split; [| split].
  - intros [| n].
    + cbn [run]. unfold status_of, value_of.
      destruct (settle_all_behind p cs (settle p σ c)
                  (TUpdate p (payload c) (kind c)) (timers σ)) as (Hh & _).
      { rewrite settle_timers, settle_clock, Nat.add_0_r. by apply enqueue_idle. }
      cbn [foldl]. by rewrite Hh.
    + destruct (decide (status o = PENDING)) as [Hs | Hs].
      * destruct (first_call_settles status0 depth σ p c cs o n) as [-> ->]; [done.. |].
        destruct (first_call_settles status0 depth σ p c [] o n) as [H1 H2]; [done.. |].
        cbn [foldl] in H1, H2. by rewrite H1, H2.
      * assert (∀ σ1, heap σ1 = heap σ →
                  status_of p (run status0 depth (S n) σ1) = Some (status o)
                  ∧ value_of p (run status0 depth (S n) σ1) = Some (val o)) as Hfix.
        { intros σ1 Hh. apply settled_forever; [| done |];
            unfold status_of, value_of; by rewrite Hh, Hp. }
        destruct (settle_all_behind p cs (settle p σ c)
                    (TUpdate p (payload c) (kind c)) (timers σ)) as (Hh & _).
        { rewrite settle_timers, settle_clock, Nat.add_0_r. by apply enqueue_idle. }
        rewrite settle_heap in Hh.
        destruct (Hfix (foldl (settle p) σ (c :: cs)) Hh) as [-> ->].
        destruct (Hfix (settle p σ c) (settle_heap p σ c)) as [-> ->]. done.
  - intros Hs n. unfold status_of in Hs. rewrite Hp in Hs. simplify_eq/=.
    by apply (first_call_settles status0 depth σ p c cs o n).
  - intros n m s v Hs Hne Hval. rewrite run_add. by apply settled_forever.
Qed.

Lemma settlement_is_idempotent_witness :
  idle (pending_futures Unset 1)
  ∧ is_Some (heap (pending_futures Unset 1) !! 0)
  ∧ isThenable (payload (settleFulfilled (VNum 1))) = false
  ∧ status_of 0
      (run Unset 0 3
         (foldl (settle 0) (pending_futures Unset 1)
            [settleFulfilled (VNum 1); settleRejected (VStr "late");
             settleFulfilled (VFuture 0)]))
    = Some FULFILLED.
Proof.
  assert (idle (pending_futures Unset 1)) as H1 by constructor.
  assert (is_Some (heap (pending_futures Unset 1) !! 0)) as H2 by (by eexists).
  split; [exact H1 | split; [exact H2 | split; [reflexivity |]]].
  destruct (settlement_is_idempotent Unset 0 (pending_futures Unset 1) 0
              (settleFulfilled (VNum 1))
              [settleRejected (VStr "late"); settleFulfilled (VFuture 0)]
              H1 H2 eq_refl) as (_ & Hfirst & _).
  exact (proj1 (Hfirst eq_refl 2)).
Defined.

(** ** Equations for one step of the class body *)

Lemma enqueue_app (due : nat) (t : task) (zs q : list (nat * task)) :
  Forall (fun e => e.1 ≤ due) zs →
  enqueue due t (zs ++ q) = zs ++ enqueue due t q.
Proof.
  induction zs as [| [d t'] zs IH]; intros Hzs; simpl; [done |].
  apply Forall_cons_1 in Hzs as [Hd Hzs]; simpl in Hd.
  rewrite (proj2 (Nat.leb_le d due)) by done. by rewrite IH.
Qed.

(** A callback scheduled with delay 0 goes behind the callbacks that are
    already due and in front of those due later. *)
Lemma enqueue_now (now : nat) (t : task) (zs q : list (nat * task)) :
  Forall (fun e => e.1 ≤ now) zs → Forall (fun e => now < e.1) q →
  enqueue (now + 0) t (zs ++ q) = (zs ++ [(now, t)]) ++ q.
Proof.
  intros Hzs Hq. rewrite Nat.add_0_r, enqueue_app by done.
  by rewrite enqueue_idle, <- app_assoc.
Qed.

Lemma then_pending s0 ap p f r σ o :
  heap σ !! p = Some o → status o = PENDING →
  then_ s0 ap p f r σ =
  (length (heap σ),
   mkState (<[p := mkFuture (status o) (val o)
                     (handlers o ++ [mkHandler f r (length (heap σ))])]> (heap σ)
             ++ [mkFuture PENDING VUndefined []])
           (arrays σ) (timers σ) (clock σ) (trace σ)).
Proof.
  intros Hp Hs. unfold then_, construct. rewrite allocate_eq.
  unfold addHandler; cbn [heap]. rewrite lookup_app_l by (by eapply lookup_lt_Some).
  rewrite Hp. unfold executeHandlers, set_future; cbn [heap].
  rewrite list_lookup_insert_eq
    by (rewrite length_app; apply lookup_lt_Some in Hp; lia).
  cbn [status]. rewrite decide_True by done.
  f_equal. f_equal. apply insert_app_l. by eapply lookup_lt_Some.
Qed.

Lemma executeHandlers_pending ap p σ o :
  heap σ !! p = Some o → status o = PENDING → executeHandlers ap p σ = σ.
Proof. intros Hp Hs. unfold executeHandlers. by rewrite Hp, decide_True. Qed.

Lemma executeHandlers_settled ap p σ o :
  heap σ !! p = Some o → status o ≠ PENDING →
  executeHandlers ap p σ =
  let σ' := foldl (deliver ap p) σ (handlers o) in
  match heap σ' !! p with
  | None => σ'
  | Some o' => set_future p (mkFuture (status o') (val o') []) σ'
  end.
Proof. intros Hp Hs. unfold executeHandlers. by rewrite Hp, decide_False. Qed.

Lemma update_task_plain ap s0 p v s σ o :
  heap σ !! p = Some o → status o = PENDING → isThenable v = false →
  update_task s0 ap p v s σ
  = executeHandlers ap p (set_future p (mkFuture s v (handlers o)) σ).
Proof. intros Hp Hs Hv. unfold update_task. by rewrite Hp, Hv, decide_True. Qed.

Lemma update_task_future ap s0 p q s σ o :
  heap σ !! p = Some o → status o = PENDING →
  update_task s0 ap p (VFuture q) s σ
  = (then_ s0 ap q (Some (FResolve p)) (Some (FReject p)) σ).2.
Proof. intros Hp Hs. unfold update_task. by rewrite Hp, decide_True. Qed.

Lemma tick_cons s0 depth σ due t q :
  timers σ = (due, t) :: q →
  tick s0 depth σ
  = Some (run_task s0 depth t
            (mkState (heap σ) (arrays σ) q (Nat.max (clock σ) due) (trace σ))).
Proof. intros Hq. unfold tick. by rewrite Hq. Qed.

Lemma run_S s0 depth n σ σ' :
  tick s0 depth σ = Some σ' → run s0 depth (S n) σ = run s0 depth n σ'.
Proof. intros Ht. cbn [run]. by rewrite Ht. Qed.

(** ** Calls, case by case *)

Lemma call_FResolve s0 depth p v σ :
  call s0 depth (FResolve p) v σ = (Return VUndefined, resolve p v σ).
Proof. by destruct depth. Qed.

Lemma call_FReject s0 depth p v σ :
  call s0 depth (FReject p) v σ = (Return VUndefined, reject p v σ).
Proof. by destruct depth. Qed.

Lemma call_FRaceThen s0 depth p v σ :
  call s0 depth (FRaceThen p) v σ = (Return VUndefined, resolve p v σ).
Proof. by destruct depth. Qed.

Lemma call_FRelay s0 depth p v σ :
  call s0 depth (FRelay p) v σ = (Return VUndefined, reject p v σ).
Proof. by destruct depth. Qed.

Lemma call_FPure s0 depth g v σ : call s0 depth (FPure g) v σ = (g v, σ).
Proof. by destruct depth. Qed.

Lemma call_FAllThen s0 depth a len agg v σ :
  call s0 depth (FAllThen a len agg) v σ =
  (Return VUndefined,
   if decide (length (array_of a (array_push a v σ)) = len)
   then resolve agg (VArray a) (array_push a v σ) else array_push a v σ).
Proof. by destruct depth. Qed.

Lemma call_plain s0 depth f v σ :
  plain_cb f →
  call s0 depth f v σ = ((callback_tasks f v).2, defer (callback_tasks f v).1 σ).
Proof. destruct f; try done; intros _; by destruct depth. Qed.

(** ** The timer queue as a list of ready callbacks *)

Lemma defer_heap ts σ : heap (defer ts σ) = heap σ.
Proof. revert σ. induction ts as [| t ts IH]; intros σ; simpl; [done |]. by rewrite IH. Qed.

Lemma defer_arrays ts σ : arrays (defer ts σ) = arrays σ.
Proof. revert σ. induction ts as [| t ts IH]; intros σ; simpl; [done |]. by rewrite IH. Qed.

Lemma defer_clock ts σ : clock (defer ts σ) = clock σ.
Proof. revert σ. induction ts as [| t ts IH]; intros σ; simpl; [done |]. by rewrite IH. Qed.

Lemma defer_trace ts σ : trace (defer ts σ) = trace σ.
Proof. revert σ. induction ts as [| t ts IH]; intros σ; simpl; [done |]. by rewrite IH. Qed.

Lemma defer_app ts1 ts2 σ : defer (ts1 ++ ts2) σ = defer ts2 (defer ts1 σ).
Proof. apply foldl_app. Qed.

Lemma ready_setTimeout σ zs q t :
  ready σ zs q → ready (setTimeout t 0 σ) (zs ++ [t]) q.
Proof.
  intros [Hq Hlater]. split; [| done]. simpl. rewrite Hq, enqueue_now.
  - by rewrite map_app.
  - clear. induction zs as [| z zs IH]; simpl; constructor; [done | exact IH].
  - done.
Qed.

Lemma ready_defer σ zs q ts : ready σ zs q → ready (defer ts σ) (zs ++ ts) q.
Proof.
  revert σ zs. induction ts as [| t ts IH]; intros σ zs Hr; simpl.
  - by rewrite app_nil_r.
  - replace (zs ++ t :: ts) with ((zs ++ [t]) ++ ts) by (by rewrite <- app_assoc).
    by apply IH, ready_setTimeout.
Qed.

Lemma idle_ready σ : idle σ → ready σ [] (timers σ).
Proof. intros Hi. by split. Qed.

Lemma ready_popped σ zs q :
  Forall (fun e => clock σ < e.1) q → ready (popped σ zs q) zs q.
Proof. by split. Qed.

Lemma tick_ready s0 depth σ t zs q :
  ready σ (t :: zs) q →
  tick s0 depth σ = Some (run_task s0 depth t (popped σ zs q)).
Proof.
  intros [Hq _]. unfold tick, popped. rewrite Hq; simpl. by rewrite Nat.max_id.
Qed.

(** ** Delivery to handlers with plain callbacks *)

Lemma state_eq (σ σ' : state) :
  heap σ = heap σ' → arrays σ = arrays σ' → timers σ = timers σ' →
  clock σ = clock σ' → trace σ = trace σ' → σ = σ'.
Proof. destruct σ, σ'; simpl; congruence. Qed.

Lemma defer_log_all ts p hs σ : defer ts (log_all p hs σ) = log_all p hs (defer ts σ).
Proof.
  revert σ. induction ts as [| t ts IH]; intros σ; simpl; [done |].
  by rewrite <- IH.
Qed.

Lemma defer_with_heap ts h σ : defer ts (with_heap h σ) = with_heap h (defer ts σ).
Proof.
  revert σ. induction ts as [| t ts IH]; intros σ; simpl; [done |].
  by rewrite <- IH.
Qed.

Lemma defer_timers_ext ts σ σ' :
  timers σ = timers σ' → clock σ = clock σ' →
  timers (defer ts σ) = timers (defer ts σ').
Proof.
  revert σ σ'. induction ts as [| t ts IH]; intros σ σ' Hq Hc; simpl; [done |].
  apply IH; simpl; congruence.
Qed.

Lemma onFullfill_plain s0 depth h v σ :
  plain_for FULFILLED h →
  Handler_onFullfill (call s0 depth) h v σ = defer (relay_tasks FULFILLED v h) σ.
Proof.
  unfold plain_for. rewrite decide_True by done. intros Hf.
  unfold Handler_onFullfill, relay_tasks.
  rewrite decide_True by done. destruct (onFulfill h) as [f |]; [| done].
  rewrite call_plain by done. rewrite defer_app.
  by destruct (callback_tasks f v).2.
Qed.

Lemma onReject_plain s0 depth h s v σ :
  s ≠ FULFILLED → plain_for s h →
  Handler_onReject (call s0 depth) h v σ = defer (relay_tasks s v h) σ.
Proof.
  intros Hs. unfold plain_for. rewrite decide_False by done. intros Hr.
  unfold Handler_onReject, relay_tasks.
  rewrite decide_False by done. destruct (onReject h) as [f |]; [| done].
  rewrite call_plain by done. rewrite defer_app.
  by destruct (callback_tasks f v).2.
Qed.

Lemma deliver_plain s0 depth p σ h o :
  heap σ !! p = Some o → plain_for (status o) h →
  deliver (call s0 depth) p σ h
  = defer (relay_tasks (status o) (val o) h) (log_all p [h] σ).
Proof.
  intros Hp Hh. unfold deliver. rewrite Hp.
  case_decide as Hs.
  - rewrite Hs in Hh |- *. by rewrite onFullfill_plain.
  - by rewrite (onReject_plain _ _ _ (status o)).
Qed.

Lemma foldl_deliver_plain s0 depth p hs σ o :
  heap σ !! p = Some o → Forall (plain_for (status o)) hs →
  foldl (deliver (call s0 depth) p) σ hs
  = defer (concat (map (relay_tasks (status o) (val o)) hs)) (log_all p hs σ).
Proof.
  revert σ. induction hs as [| h hs IH]; intros σ Hp Hhs.
  - simpl. unfold log_all; simpl. rewrite app_nil_r. by destruct σ.
  - apply Forall_cons_1 in Hhs as [Hh Hhs]. cbn [foldl map concat].
    rewrite (deliver_plain _ _ _ _ _ o) by done.
    rewrite IH; [| by rewrite defer_heap | done].
    rewrite defer_app, (defer_log_all _ p [h]), (defer_log_all _ p (h :: hs)).
    f_equal. unfold log_all; simpl. by rewrite <- app_assoc.
Qed.

Lemma executeHandlers_plain s0 depth p σ o :
  heap σ !! p = Some o → status o ≠ PENDING →
  Forall (plain_for (status o)) (handlers o) →
  executeHandlers (call s0 depth) p σ
  = defer (concat (map (relay_tasks (status o) (val o)) (handlers o)))
      (log_all p (handlers o)
         (with_heap (<[p := mkFuture (status o) (val o) []]> (heap σ)) σ)).
Proof.
  intros Hp Hs Hhs. rewrite (executeHandlers_settled _ _ _ o) by done.
  cbn zeta. rewrite (foldl_deliver_plain _ _ _ _ _ o) by done.
  rewrite defer_heap. cbn [log_all heap]. rewrite Hp.
  apply state_eq; unfold set_future; cbn [heap arrays timers clock trace];
    rewrite ?defer_heap, ?defer_arrays, ?defer_clock, ?defer_trace; try done.
  by apply defer_timers_ext.
Qed.

(** The update of a pending future whose handlers have plain callbacks. *)
Lemma update_task_closed s0 depth p v s σ o :
  heap σ !! p = Some o → status o = PENDING → isThenable v = false →
  s ≠ PENDING → Forall (plain_for s) (handlers o) →
  update_task s0 (call s0 depth) p v s σ
  = defer (concat (map (relay_tasks s v) (handlers o)))
      (log_all p (handlers o) (with_heap (<[p := mkFuture s v []]> (heap σ)) σ)).
Proof.
  intros Hp Hs Hv Hne Hhs. rewrite (update_task_plain _ _ _ _ _ _ o) by done.
  rewrite (executeHandlers_plain _ _ _ _ (mkFuture s v (handlers o))); try done.
  - cbn [status val handlers set_future heap].
    rewrite list_insert_insert_eq. done.
  - simpl. apply list_lookup_insert_eq. by eapply lookup_lt_Some.
Qed.

(** ** Turns of the event loop, on ready callbacks *)

Lemma ready_later σ zs q : ready σ zs q → Forall (fun e => clock σ < e.1) q.
Proof. by intros [_ H]. Qed.

Lemma tick_dead s0 depth σ t zs q :
  ready σ (t :: zs) q → dead (heap σ) t →
  tick s0 depth σ = Some (popped σ zs q).
Proof.
  intros Hr Hd. rewrite (tick_ready _ _ _ _ _ _ Hr).
  destruct t as [x v s | f v]; [| done]. destruct Hd as (o & Hx & Hs).
  cbn [run_task]. by rewrite (update_task_noop _ _ _ _ _ _ o).
Qed.

Lemma run_dead s0 depth σ J zs q :
  ready σ (J ++ zs) q → Forall (dead (heap σ)) J →
  run s0 depth (length J) σ = popped σ zs q.
Proof.
  revert σ. induction J as [| t J IH]; intros σ Hr Hd.
  - destruct Hr as [Hq _]. simpl in Hq |- *. unfold popped. rewrite <- Hq.
    by destruct σ.
  - apply Forall_cons_1 in Hd as [Ht Hd]. cbn [length].
    rewrite (run_S _ _ _ _ _ (tick_dead _ _ _ _ _ _ Hr Ht)).
    rewrite IH; [done | | done].
    apply ready_popped. by eapply ready_later.
Qed.

Lemma ready_effects σ zs q ts p hs h :
  Forall (fun e => clock σ < e.1) q →
  ready (defer ts (log_all p hs (with_heap h (popped σ zs q)))) (zs ++ ts) q.
Proof. intros Hq. apply ready_defer. by split. Qed.

Lemma tick_settle s0 depth σ p v s zs q o :
  ready σ (TUpdate p v s :: zs) q →
  heap σ !! p = Some o → status o = PENDING → isThenable v = false →
  s ≠ PENDING → Forall (plain_for s) (handlers o) →
  tick s0 depth σ
  = Some (defer (concat (map (relay_tasks s v) (handlers o)))
            (log_all p (handlers o)
               (with_heap (<[p := mkFuture s v []]> (heap σ)) (popped σ zs q)))).
Proof.
  intros Hr Hp Hs Hv Hne Hhs. rewrite (tick_ready _ _ _ _ _ _ Hr).
  cbn [run_task]. by rewrite (update_task_closed _ _ _ _ _ _ o).
Qed.

(** ** A rejection through a chain of [then] calls *)

Lemma settled_as_lookup σ p o :
  heap σ !! p = Some o → settled_as σ p (status o) (val o).
Proof. intros Hp. unfold settled_as, status_of, value_of. by rewrite Hp. Qed.

Lemma settled_as_run s0 depth σ p s v n :
  settled_as σ p s v → s ≠ PENDING → settled_as (run s0 depth n σ) p s v.
Proof. intros [Hs Hv] Hne. by apply settled_forever. Qed.

Lemma linked_insert_lt h x o p fs cs :
  x < p → linked h p fs cs → linked (<[x := o]> h) p fs cs.
Proof.
  revert p cs. induction fs as [| f fs IH]; intros p [| c cs] Hx; simpl; try done.
  - intros [w Hp]. exists w. by rewrite list_lookup_insert_ne by lia.
  - intros ([w Hp] & Hpc & Hl). split; [| split; [done |]].
    + exists w. by rewrite list_lookup_insert_ne by lia.
    + apply IH; [lia | done].
Qed.

Lemma linked_length h p fs cs : linked h p fs cs → length cs = length fs.
Proof.
  revert p cs. induction fs as [| f fs IH]; intros p [| c cs]; simpl; try done.
  intros (_ & _ & Hl). f_equal. by eapply IH.
Qed.

Lemma reject_cascade s0 depth fs : ∀ cs σ p e J J' q,
  linked (heap σ) p fs cs → isThenable e = false →
  ready σ (J ++ TUpdate p e REJECTED :: J') q →
  Forall (dead (heap σ)) J →
  Forall (fun t => ∃ v s, t = TUpdate p v s) J' →
  ∃ N, N ≤ length J + length J' + 2 * length fs + 1
       ∧ settled_as (run s0 depth N σ) p REJECTED e
       ∧ Forall (fun c => settled_as (run s0 depth N σ) c REJECTED e) cs.
Proof.
  induction fs as [| f fs IH]; intros [| c cs] σ p e J J' q Hl He Hr HJ HJ';
    simpl in Hl; try done.
  - destruct Hl as [w Hp]. exists (length J + 1). split; [lia |].
    rewrite run_add, (run_dead _ _ _ _ _ _ Hr HJ).
    pose proof (ready_later _ _ _ Hr) as Hq.
    rewrite (run_S _ _ 0 _ _
               (tick_settle _ _ _ p e REJECTED J' q _ (ready_popped _ _ _ Hq)
                  Hp eq_refl He ltac:(done) ltac:(by constructor))).
    split; [| done]. cbn [run handlers map concat defer log_all].
    apply (settled_as_lookup _ p (mkFuture REJECTED e [])); simpl.
    apply list_lookup_insert_eq. by eapply lookup_lt_Some.
  - destruct Hl as ([w Hp] & Hpc & Hl).
    pose proof (ready_later _ _ _ Hr) as Hq.
    set (h := mkHandler f None c) in *.
    set (σ1 := defer (concat (map (relay_tasks REJECTED e) [h]))
                 (log_all p [h]
                    (with_heap (<[p := mkFuture REJECTED e []]> (heap σ))
                       (popped σ J' q)))).
    assert (tick s0 depth (popped σ (TUpdate p e REJECTED :: J') q) = Some σ1) as Ht.
    { apply (tick_settle _ _ _ p e REJECTED J' q _ (ready_popped _ _ _ Hq) Hp);
        try done.
      constructor; [| constructor]. by unfold plain_for. }
    assert (heap σ1 = <[p := mkFuture REJECTED e []]> (heap σ)) as Hh1.
    { unfold σ1. by rewrite defer_heap. }
    assert (heap σ1 !! p = Some (mkFuture REJECTED e [])) as Hp1.
    { rewrite Hh1. apply list_lookup_insert_eq. by eapply lookup_lt_Some. }
    destruct (IH cs σ1 c e J' [TUpdate c VTypeError REJECTED] q)
      as (N & HN & Hc & Hcs).
    + rewrite Hh1. by apply linked_insert_lt.
    + done.
    + replace (J' ++ [TUpdate c e REJECTED; TUpdate c VTypeError REJECTED])
        with (J' ++ concat (map (relay_tasks REJECTED e) [h])) by done.
      by apply ready_effects.
    + eapply List.Forall_impl; [| exact HJ']. intros t (v & s & ->); simpl.
      eexists; split; [exact Hp1 | done].
    + constructor; [by eauto | constructor].
    + exists (length J + (1 + N)). split; [simpl in *; lia |].
      rewrite run_add, (run_dead _ _ _ _ _ _ Hr HJ), run_add.
      rewrite (run_S _ _ 0 _ _ Ht). cbn [run].
      split; [| by constructor].
      apply settled_as_run; [| done].
      by apply (settled_as_lookup _ p (mkFuture REJECTED e [])).
Qed.

Lemma then_chain_linked s0 depth fs : ∀ σ p w,
  heap σ !! p = Some (mkFuture PENDING w []) →
  ∃ cs σ', then_chain s0 depth p fs σ = (cs, σ')
    ∧ linked (heap σ') p fs cs
    ∧ timers σ' = timers σ ∧ clock σ' = clock σ
    ∧ length (heap σ) ≤ length (heap σ')
    ∧ ∀ x, x < length (heap σ) → x ≠ p → heap σ' !! x = heap σ !! x.
Proof.
  induction fs as [| f fs IH]; intros σ p w Hp; cbn [then_chain linked].
  - exists [], σ. repeat split; eauto.
  - pose proof (lookup_lt_Some _ _ _ Hp) as Hlt.
    rewrite (then_pending _ _ _ _ _ _ _ Hp eq_refl). cbn [status val handlers app].
    set (c := length (heap σ)). set (h := mkHandler f None c).
    set (σ1 := mkState _ _ _ _ _).
    assert (heap σ1 !! c = Some (mkFuture PENDING VUndefined [])) as Hc.
    { unfold σ1; cbn [heap]. rewrite lookup_app_r by (rewrite length_insert; lia).
      by rewrite length_insert, Nat.sub_diag. }
    destruct (IH σ1 c VUndefined Hc) as (cs & σ' & -> & Hl & Hq & Hck & Hlen & Hfr).
    assert (length (heap σ1) = S c) as Hlen1.
    { unfold σ1; cbn [heap]. rewrite length_app, length_insert. simpl. lia. }
    exists (c :: cs), σ'. split; [done |]. repeat split; try done.
    + exists w. rewrite Hfr by lia. unfold σ1; cbn [heap].
      rewrite lookup_app_l by (rewrite length_insert; lia).
      by apply list_lookup_insert_eq.
    + lia.
    + intros x Hx Hxp. rewrite Hfr by lia. unfold σ1; cbn [heap].
      rewrite lookup_app_l by (rewrite length_insert; lia).
      by rewrite list_lookup_insert_ne.
Qed.



(** ** Futures resolved with futures *)

Lemma new_future_resolve s0 v σ :
  new_future s0 [CallResolve v] σ
  = (length (heap σ),
     setTimeout (TUpdate (length (heap σ)) v FULFILLED) 0
       (with_heap (heap σ ++ [mkFuture PENDING VUndefined []]) σ)).
Proof. unfold new_future, construct. by rewrite allocate_eq. Qed.

Lemma nest_spec s0 k : ∀ σ inner zs q,
  ready σ zs q →
  ∃ outer σ', nest s0 k inner σ = (outer, σ')
    ∧ outer = seq (length (heap σ)) k
    ∧ heap σ' = heap σ ++ replicate k (mkFuture PENDING VUndefined [])
    ∧ ready σ' (zs ++ adoptions inner outer) q.
Proof.
  induction k as [| k IH]; intros σ inner zs q Hr; cbn [nest].
  - exists [], σ. by rewrite !app_nil_r.
  - rewrite new_future_resolve. set (a := length (heap σ)).
    set (σ1 := setTimeout _ 0 _).
    destruct (IH σ1 a (zs ++ [TUpdate a (VFuture inner) FULFILLED]) q)
      as (outer & σ' & -> & -> & Hh & Hr').
    { apply ready_setTimeout. destruct Hr as [Hq Hl]. by split. }
    assert (length (heap σ1) = S a) as Hlen
      by (unfold σ1; simpl; rewrite length_app; simpl; lia).
    exists (a :: seq (S a) k), σ'. rewrite Hlen in *. repeat split.
    + rewrite Hh. unfold σ1; simpl. by rewrite <- app_assoc.
    + destruct Hr' as [Hq' Hl']. rewrite <- app_assoc in Hq'. done.
    + by destruct Hr'.
Qed.

Lemma adopting_gt h p outer : adopting h p outer → Forall (fun x => p < x) outer.
Proof.
  revert p. induction outer as [| a rest IH]; intros p; simpl; [done |].
  intros (_ & Hpa & Hrest). constructor; [done |].
  eapply List.Forall_impl; [| by apply IH]. simpl. lia.
Qed.

Lemma adopting_ext h h' p outer :
  adopting h p outer →
  (∀ x, x ∈ p :: outer → h' !! x = h !! x) →
  (∀ x o, h !! x = Some o → handlers o = [] →
          ∃ o', h' !! x = Some o' ∧ handlers o' = []) →
  adopting h' p outer.
Proof.
  revert p. induction outer as [| a rest IH]; intros p; simpl.
  - intros [w Hp] Hsame _. exists w. rewrite Hsame; [done | set_solver].
  - intros ((w & d & od & Hp & Hd & Hod & Hlt) & Hpa & Hrest) Hsame Hleaf.
    split; [| split; [done |]].
    + destruct (Hleaf d od Hd Hod) as (od' & Hd' & Hod').
      exists w, d, od'. rewrite Hsame by set_solver. done.
    + apply IH; [done | | done]. intros x Hx. apply Hsame. set_solver.
Qed.

Lemma inert_ext h h' ids ids' t :
  inert h ids t → ids' ⊆ ids →
  (∀ x o, h !! x = Some o → handlers o = [] →
          ∃ o', h' !! x = Some o' ∧ handlers o' = []) →
  inert h' ids' t.
Proof.
  destruct t as [x v s | f v]; [| done]. intros (Hv & Hs & Hx & o & Ho & Hoh) Hsub Hleaf.
  repeat split; try done; [set_solver |]. by eapply Hleaf.
Qed.

Lemma insert_keeps_leaves (h : list Future) x s v :
  ∀ y o, h !! y = Some o → handlers o = [] →
         ∃ o', <[x := mkFuture s v []]> h !! y = Some o' ∧ handlers o' = [].
Proof.
  intros y o Hy Ho. destruct (decide (x = y)) as [-> | Hne].
  - exists (mkFuture s v []). rewrite list_lookup_insert_eq by (by eapply lookup_lt_Some).
    done.
  - exists o. by rewrite list_lookup_insert_ne.
Qed.

Lemma tick_inert s0 depth ids σ t zs q :
  ready σ (t :: zs) q → inert (heap σ) ids t →
  ∃ σ', tick s0 depth σ = Some σ' ∧ ready σ' zs q
    ∧ (∀ x, x ∈ ids → heap σ' !! x = heap σ !! x)
    ∧ (∀ x o, heap σ !! x = Some o → handlers o = [] →
              ∃ o', heap σ' !! x = Some o' ∧ handlers o' = []).
Proof.
  intros Hr Hi. destruct t as [x v s | f v]; [| done].
  destruct Hi as (Hv & Hs & Hx & o & Ho & Hoh).
  pose proof (ready_later _ _ _ Hr) as Hq.
  destruct (decide (status o = PENDING)) as [Hp | Hp].
  - eexists. split; [by apply (tick_settle _ _ _ x v s zs q o Hr Ho Hp Hv Hs);
                      rewrite Hoh |].
    rewrite Hoh. cbn [map concat]. split; [| split].
    + pose proof (ready_effects σ zs q [] x []
                    (<[x := mkFuture s v []]> (heap σ)) Hq) as Hr'.
      by rewrite app_nil_r in Hr'.
    + intros y Hy. rewrite defer_heap. cbn [log_all with_heap heap].
      rewrite list_lookup_insert_ne; [done | set_solver].
    + rewrite defer_heap. cbn [log_all with_heap heap]. apply insert_keeps_leaves.
  - eexists. split; [apply (tick_dead _ _ _ _ _ _ Hr); simpl; eauto |].
    split; [by apply ready_popped |]. split; [done | eauto].
Qed.

Lemma run_inert s0 depth ids J : ∀ σ zs q,
  ready σ (J ++ zs) q → Forall (inert (heap σ) ids) J →
  ∃ σ', run s0 depth (length J) σ = σ' ∧ ready σ' zs q
    ∧ (∀ x, x ∈ ids → heap σ' !! x = heap σ !! x)
    ∧ (∀ x o, heap σ !! x = Some o → handlers o = [] →
              ∃ o', heap σ' !! x = Some o' ∧ handlers o' = []).
Proof.
  induction J as [| t J IH]; intros σ zs q Hr HJ.
  - exists σ. split; [done |]. split; [exact Hr |]. split; [done | eauto].
  - apply Forall_cons_1 in HJ as [Ht HJ].
    destruct (tick_inert s0 depth ids σ t (J ++ zs) q Hr Ht)
      as (σ1 & Htick & Hr1 & Hsame1 & Hleaf1).
    destruct (IH σ1 zs q Hr1) as (σ' & Hrun & Hr' & Hsame' & Hleaf').
    { eapply List.Forall_impl; [| exact HJ]. intros t' Ht'.
      by apply (inert_ext (heap σ) _ ids ids). }
    exists σ'. cbn [length]. rewrite (run_S _ _ _ _ _ Htick). split; [done |].
    split; [done |]. split.
    + intros x Hx. by rewrite Hsame', Hsame1.
    + intros x o Hx Ho. destruct (Hleaf1 x o Hx Ho) as (o1 & Hx1 & Ho1). eauto.
Qed.

Lemma ascending_seq p a k : p < a → ascending p (seq a k).
Proof.
  revert p a. induction k as [| k IH]; intros p a Hpa; simpl; [done |].
  split; [done |]. apply IH. lia.
Qed.

Lemma ascending_gt p l : ascending p l → Forall (fun x => p < x) l.
Proof.
  revert p. induction l as [| a l IH]; intros p; simpl; [done |].
  intros [Hpa Hl]. constructor; [done |].
  eapply List.Forall_impl; [| by apply IH]. simpl. lia.
Qed.

Lemma tick_adopt_pending s0 depth σ a p s zs q oa op :
  ready σ (TUpdate a (VFuture p) s :: zs) q →
  heap σ !! a = Some oa → status oa = PENDING →
  heap σ !! p = Some op → status op = PENDING →
  tick s0 depth σ
  = Some (with_heap
            (<[p := mkFuture (status op) (val op)
                      (handlers op ++
                       [mkHandler (Some (FResolve a)) (Some (FReject a))
                                  (length (heap σ))])]> (heap σ)
              ++ [mkFuture PENDING VUndefined []])
            (popped σ zs q)).
Proof.
  intros Hr Ha Has Hp Hps. rewrite (tick_ready _ _ _ _ _ _ Hr). cbn [run_task].
  rewrite (update_task_future _ _ _ _ _ _ oa) by done.
  by rewrite (then_pending _ _ _ _ _ _ op).
Qed.

Lemma not_elem_of_gt (p : nat) (l : list nat) : Forall (fun x => p < x) l → p ∉ l.
Proof. intros Hl Hin. rewrite Forall_forall in Hl. specialize (Hl p Hin). lia. Qed.

Lemma not_elem_of_lt (d : nat) (l : list nat) : Forall (fun x => x < d) l → d ∉ l.
Proof. intros Hl Hin. rewrite Forall_forall in Hl. specialize (Hl d Hin). lia. Qed.

Lemma adoption_phase s0 depth outer : ∀ σ p w zs q,
  ready σ (adoptions p outer ++ zs) q →
  heap σ !! p = Some (mkFuture PENDING w []) →
  Forall (fun a => heap σ !! a = Some (mkFuture PENDING VUndefined [])) outer →
  ascending p outer →
  ∃ σ', run s0 depth (length outer) σ = σ'
    ∧ adopting (heap σ') p outer ∧ ready σ' zs q
    ∧ length (heap σ) ≤ length (heap σ')
    ∧ ∀ x, x < length (heap σ) → x ∉ p :: outer → heap σ' !! x = heap σ !! x.
Proof.
  induction outer as [| a rest IH]; intros σ p w zs q Hr Hp Hout Hasc.
  - exists σ. split; [done |]. split; [by exists w |]. split; [exact Hr |].
    split; [done | eauto].
  - apply Forall_cons_1 in Hout as [Ha Hrest]. destruct Hasc as [Hpa Hasc].
    pose proof (ready_later _ _ _ Hr) as Hq.
    pose proof (lookup_lt_Some _ _ _ Hp) as Hplt.
    pose proof (lookup_lt_Some _ _ _ Ha) as Halt.
    pose proof (ascending_gt _ _ Hasc) as Hgt.
    assert (Forall (fun x => x < length (heap σ)) rest) as Hlt.
    { eapply List.Forall_impl; [| exact Hrest]. intros x Hx; simpl in Hx.
      by apply lookup_lt_Some in Hx. }
    set (d := length (heap σ)) in *.
    set (H := mkHandler (Some (FResolve a)) (Some (FReject a)) d).
    set (h1 := <[p := mkFuture PENDING w [H]]> (heap σ)
               ++ [mkFuture PENDING VUndefined []]).
    assert (tick s0 depth σ = Some (with_heap h1 (popped σ (adoptions a rest ++ zs) q)))
      as Htick.
    { rewrite (tick_adopt_pending _ _ _ a p FULFILLED _ q _ _ Hr Ha eq_refl Hp eq_refl).
      reflexivity. }
    assert (length h1 = S d) as Hlen1.
    { unfold h1. rewrite length_app, length_insert. simpl. lia. }
    assert (∀ x, x < d → x ≠ p → h1 !! x = heap σ !! x) as Hh1.
    { intros x Hx Hxp. unfold h1.
      rewrite lookup_app_l by (rewrite length_insert; lia).
      by rewrite list_lookup_insert_ne. }
    assert (h1 !! p = Some (mkFuture PENDING w [H])) as Hp1.
    { unfold h1. rewrite lookup_app_l by (rewrite length_insert; lia).
      by apply list_lookup_insert_eq. }
    assert (h1 !! d = Some (mkFuture PENDING VUndefined [])) as Hd1.
    { unfold h1. rewrite lookup_app_r by (rewrite length_insert; lia).
      by rewrite length_insert, Nat.sub_diag. }
    assert (p ∉ a :: rest) as Hpn.
    { apply not_elem_of_gt. constructor; [done |].
      eapply List.Forall_impl; [| exact Hgt]. simpl. lia. }
    assert (d ∉ a :: rest) as Hdn.
    { apply not_elem_of_lt. by constructor. }
    destruct (IH (with_heap h1 (popped σ (adoptions a rest ++ zs) q)) a VUndefined zs q)
      as (σ' & Hrun & Hadopt & Hr' & Hlen' & Hfr'); cbn [with_heap heap].
    + by split.
    + rewrite Hh1 by lia. done.
    + apply Forall_forall. intros x Hx.
      rewrite Forall_forall in Hrest, Hgt, Hlt.
      specialize (Hrest x Hx). specialize (Hgt x Hx). specialize (Hlt x Hx).
      rewrite Hh1 by lia. done.
    + done.
    + cbn [with_heap heap] in Hlen', Hfr'. rewrite Hlen1 in Hlen', Hfr'.
      exists σ'. cbn [length]. rewrite (run_S _ _ _ _ _ Htick).
      split; [done |]. split; [| split; [done | split; [lia |]]].
      * cbn [adopting]. split; [| by split].
        exists w, d, (mkFuture PENDING VUndefined []).
        rewrite !Hfr' by (done || lia). split; [done |]. split; [done |].
        split; [done |]. constructor; [done |]. by constructor.
      * intros x Hx Hxn. rewrite Hfr'; [| lia |].
        -- apply Hh1; [done |]. intros ->. apply Hxn. by left.
        -- intros Hin. apply Hxn. by right.
Qed.

Lemma relay_adoption s v a d :
  s = FULFILLED ∨ s = REJECTED →
  relay_tasks s v (mkHandler (Some (FResolve a)) (Some (FReject a)) d)
  = [TUpdate a v s; TUpdate d VUndefined s].
Proof. by intros [-> | ->]. Qed.

Lemma adopt_cascade s0 depth outer : ∀ σ p s v J J' q,
  adopting (heap σ) p outer →
  s = FULFILLED ∨ s = REJECTED → isThenable v = false →
  ready σ (J ++ TUpdate p v s :: J') q →
  Forall (inert (heap σ) (p :: outer)) J →
  Forall (inert (heap σ) (p :: outer)) J' →
  ∃ N, N ≤ length J + length J' + 2 * length outer + 1
       ∧ settled_as (run s0 depth N σ) p s v
       ∧ Forall (fun a => settled_as (run s0 depth N σ) a s v) outer.
Proof.
  induction outer as [| a rest IH]; intros σ p s v J J' q Had Hs Hv Hr HJ HJ'.
  - destruct (run_inert s0 depth [p] J σ _ q Hr HJ) as (σa & Hrun & Hra & Hsame & _).
    destruct Had as [w Hp]. rewrite <- Hsame in Hp by set_solver.
    exists (length J + 1). split; [lia |]. rewrite run_add, Hrun.
    assert (s ≠ PENDING) as Hne by (by destruct Hs as [-> | ->]).
    rewrite (run_S _ _ 0 _ _
               (tick_settle _ _ _ p v s J' q _ Hra Hp eq_refl Hv Hne
                  ltac:(by constructor))).
    split; [| done]. cbn [run handlers map concat defer log_all].
    apply (settled_as_lookup _ p (mkFuture s v [])); simpl.
    apply list_lookup_insert_eq. by eapply lookup_lt_Some.
  - assert (s ≠ PENDING) as Hne by (by destruct Hs as [-> | ->]).
    destruct (run_inert s0 depth (p :: a :: rest) J σ _ q Hr HJ)
      as (σa & Hrun & Hra & Hsame & Hleaf).
    pose proof (adopting_ext _ (heap σa) _ _ Had Hsame Hleaf) as Hada.
    destruct Hada as ((w & d & od & Hp & Hd & Hod & Hlt) & Hpa & Hrest).
    apply Forall_cons_1 in Hlt as [Hpd Hlt].
    pose proof (ready_later _ _ _ Hra) as Hq.
    pose proof (adopting_gt _ _ _ Hrest) as Hgt.
    set (H := mkHandler (Some (FResolve a)) (Some (FReject a)) d) in *.
    set (h1 := <[p := mkFuture s v []]> (heap σa)).
    set (σ1 := defer (concat (map (relay_tasks s v) [H]))
                 (log_all p [H] (with_heap h1 (popped σa J' q)))).
    assert (tick s0 depth σa = Some σ1) as Htick.
    { apply (tick_settle _ _ _ p v s J' q _ Hra Hp); try done.
      constructor; [| by constructor].
      unfold plain_for. by destruct Hs as [-> | ->]. }
    assert (heap σ1 = h1) as Hh1 by (unfold σ1; by rewrite defer_heap).
    assert (h1 !! p = Some (mkFuture s v [])) as Hp1.
    { apply list_lookup_insert_eq. by eapply lookup_lt_Some. }
    assert (p ∉ a :: rest) as Hpn.
    { apply not_elem_of_gt. constructor; [done |].
      eapply List.Forall_impl; [| exact Hgt]. simpl. lia. }
    destruct (IH σ1 a s v J' [TUpdate d VUndefined s] q) as (N & HN & Ha & Hrs).
    + rewrite Hh1. eapply adopting_ext; [exact Hrest | | apply insert_keeps_leaves].
      intros x Hx. unfold h1. rewrite list_lookup_insert_ne; [done |].
      intros ->. by apply Hpn.
    + done.
    + done.
    + unfold σ1, H. cbn [map concat]. rewrite app_nil_r, relay_adoption by done.
      exact (ready_effects σa J' q [TUpdate a v s; TUpdate d VUndefined s]
               p [H] h1 Hq).
    + rewrite Hh1. eapply List.Forall_impl; [| exact HJ'].
      intros t Ht. eapply inert_ext; [eapply inert_ext; [exact Ht | done | exact Hleaf] | |].
      * set_solver.
      * apply insert_keeps_leaves.
    + constructor; [| constructor]. rewrite Hh1. cbn [inert].
      split; [done |]. split; [done |]. split; [by apply not_elem_of_lt |].
      apply (insert_keeps_leaves _ p s v d od); done.
    + exists (length J + (1 + N)). split; [simpl in *; lia |].
      rewrite run_add, Hrun, run_add, (run_S _ _ 0 _ _ Htick). cbn [run].
      split; [| by constructor].
      apply settled_as_run; [| done].
      apply (settled_as_lookup _ p (mkFuture s v [])). by rewrite Hh1.
Qed.

Lemma settle_defer p σ c :
  settle p σ c = setTimeout (TUpdate p (payload c) (kind c)) 0 σ.
Proof. by destruct c. Qed.

Lemma kind_settled c : kind c = FULFILLED ∨ kind c = REJECTED.
Proof. destruct c; eauto. Qed.



(** ** [then] on a future that has settled *)

Lemma then_settled s0 depth q f r σ oq :
  heap σ !! q = Some oq → status oq ≠ PENDING → handlers oq = [] →
  plain_for (status oq) (mkHandler f r (length (heap σ))) →
  then_ s0 (call s0 depth) q f r σ
  = (length (heap σ),
     defer (relay_tasks (status oq) (val oq) (mkHandler f r (length (heap σ))))
       (log_all q [mkHandler f r (length (heap σ))]
          (with_heap (heap σ ++ [mkFuture PENDING VUndefined []]) σ))).
Proof.
  intros Hq Hs Hh Hplain. pose proof (lookup_lt_Some _ _ _ Hq) as Hlt.
  unfold then_, construct. rewrite allocate_eq. f_equal.
  unfold addHandler; cbn [heap]. rewrite lookup_app_l by done. rewrite Hq, Hh.
  cbn [app]. set (h := mkHandler f r _) in *.
  rewrite (executeHandlers_plain _ _ _ _ (mkFuture (status oq) (val oq) [h])).
  - cbn [status val handlers map concat set_future heap].
    rewrite app_nil_r, list_insert_insert_eq.
    replace (mkFuture (status oq) (val oq) []) with oq
      by (destruct oq; simpl in *; by subst).
    rewrite list_insert_id by (by rewrite lookup_app_l).
    done.
  - simpl. apply list_lookup_insert_eq. rewrite length_app. lia.
  - done.
  - by constructor.
Qed.

Lemma tick_adopt_settled s0 depth σ a q s zs qq oa oq :
  ready σ (TUpdate a (VFuture q) s :: zs) qq →
  heap σ !! a = Some oa → status oa = PENDING →
  heap σ !! q = Some oq → handlers oq = [] →
  status oq = FULFILLED ∨ status oq = REJECTED →
  tick s0 depth σ
  = Some (defer [TUpdate a (val oq) (status oq);
                 TUpdate (length (heap σ)) VUndefined (status oq)]
            (log_all q [mkHandler (Some (FResolve a)) (Some (FReject a))
                                  (length (heap σ))]
               (with_heap (heap σ ++ [mkFuture PENDING VUndefined []])
                  (popped σ zs qq)))).
Proof.
  intros Hr Ha Has Hq Hqh Hqs. rewrite (tick_ready _ _ _ _ _ _ Hr). cbn [run_task].
  rewrite (update_task_future _ _ _ _ _ _ oa) by done.
  rewrite (then_settled _ _ _ _ _ _ oq); try done.
  - cbn [snd popped heap]. by rewrite relay_adoption.
  - by destruct Hqs as [-> | ->].
  - unfold plain_for. by destruct Hqs as [-> | ->].
Qed.

(** ** [then] on a pending future, followed by its settlement *)

Lemma popped_self σ : popped σ [] (timers σ) = σ.
Proof. by destruct σ. Qed.

Lemma then_delivery s0 depth σ p w f r c :
  idle σ → heap σ !! p = Some (mkFuture PENDING w []) →
  isThenable (payload c) = false →
  plain_for (kind c) (mkHandler f r (length (heap σ))) →
  (then_ s0 (call s0 depth) p f r σ).1 = length (heap σ)
  ∧ run s0 depth 1 (settle p (then_ s0 (call s0 depth) p f r σ).2 c)
    = defer (relay_tasks (kind c) (payload c) (mkHandler f r (length (heap σ))))
        (log_all p [mkHandler f r (length (heap σ))]
           (with_heap (<[p := mkFuture (kind c) (payload c) []]> (heap σ)
                       ++ [mkFuture PENDING VUndefined []]) σ)).
Proof.
  intros Hidle Hp Hv Hplain. pose proof (lookup_lt_Some _ _ _ Hp) as Hlt.
  rewrite (then_pending _ _ _ _ _ _ _ Hp eq_refl). cbn [fst snd status val handlers app].
  split; [done |]. set (h := mkHandler f r _) in *.
  set (σ1 := mkState _ _ _ _ _).
  assert (ready (settle p σ1 c) [TUpdate p (payload c) (kind c)] (timers σ)) as Hr.
  { rewrite settle_defer. by apply (ready_setTimeout σ1 [] (timers σ)). }
  assert (heap (settle p σ1 c) !! p = Some (mkFuture PENDING w [h])) as Hp1.
  { rewrite settle_heap. unfold σ1; cbn [heap].
    rewrite lookup_app_l by (by rewrite length_insert).
    by apply list_lookup_insert_eq. }
  rewrite (run_S _ _ 0 _ _
             (tick_settle _ _ _ p (payload c) (kind c) [] (timers σ) _ Hr Hp1
                eq_refl Hv ltac:(by destruct c) ltac:(by constructor))).
  cbn [run handlers map concat]. rewrite app_nil_r. f_equal. f_equal.
  apply state_eq; cbn [with_heap popped heap arrays timers clock trace];
    rewrite ?settle_heap, ?settle_clock; try done; try (by destruct c).
  unfold σ1; cbn [heap].
  rewrite insert_app_l by (by rewrite length_insert).
  by rewrite list_insert_insert_eq.
Qed.

(** ** The child of [then] *)

Lemma child_update_plain s0 depth σ c wc x s zs q n :
  ready σ (TUpdate c x s :: zs) q →
  heap σ !! c = Some (mkFuture PENDING wc []) →
  isThenable x = false → s = FULFILLED ∨ s = REJECTED → 1 ≤ n →
  settled_as (run s0 depth n σ) c s x.
Proof.
  intros Hr Hc Hx Hs Hn. assert (s ≠ PENDING) as Hne by (by destruct Hs as [-> | ->]).
  replace n with (S (n - 1)) by lia.
  rewrite (run_S _ _ _ _ _
             (tick_settle _ _ _ c x s zs q _ Hr Hc eq_refl Hx Hne ltac:(by constructor))).
  apply settled_as_run; [| done].
  apply (settled_as_lookup _ c (mkFuture s x [])).
  rewrite defer_heap. cbn [log_all with_heap heap].
  apply list_lookup_insert_eq. by eapply lookup_lt_Some.
Qed.

Lemma child_adopts_settled s0 depth σ c wc q sq s v qq n :
  ready σ [TUpdate c (VFuture q) sq] qq →
  heap σ !! c = Some (mkFuture PENDING wc []) →
  heap σ !! q = Some (mkFuture s v []) →
  s = FULFILLED ∨ s = REJECTED → isThenable v = false → 2 ≤ n →
  settled_as (run s0 depth n σ) c s v.
Proof.
  intros Hr Hc Hq Hs Hv Hn. replace n with (S (n - 1)) by lia.
  pose proof (lookup_lt_Some _ _ _ Hc) as Hclt.
  rewrite (run_S _ _ _ _ _
             (tick_adopt_settled _ _ _ c q sq [] qq _ _ Hr Hc eq_refl Hq eq_refl Hs)).
  cbn [status val].
  eapply (child_update_plain _ _ _ c wc v s); try done; [| | lia].
  - exact (ready_effects σ [] qq _ q _ _ (ready_later _ _ _ Hr)).
  - rewrite defer_heap. cbn [log_all with_heap heap]. by rewrite lookup_app_l.
Qed.

Lemma child_adopts_pending s0 depth σ c wc q wq sq k qq n :
  ready σ [TUpdate c (VFuture q) sq] qq →
  heap σ !! c = Some (mkFuture PENDING wc []) →
  heap σ !! q = Some (mkFuture PENDING wq []) → q ≠ c →
  isThenable (payload k) = false → 2 ≤ n →
  settled_as (run s0 depth n (settle q (run s0 depth 1 σ) k)) c (kind k) (payload k).
Proof.
  intros Hr Hc Hq Hqc Hv Hn.
  pose proof (lookup_lt_Some _ _ _ Hc) as Hclt.
  pose proof (lookup_lt_Some _ _ _ Hq) as Hqlt.
  pose proof (ready_later _ _ _ Hr) as Hlater.
  rewrite (run_S _ _ 0 _ _
             (tick_adopt_pending _ _ _ c q sq [] qq _ _ Hr Hc eq_refl Hq eq_refl)).
  cbn [run status val handlers app].
  set (d := length (heap σ)).
  set (H := mkHandler (Some (FResolve c)) (Some (FReject c)) d).
  set (h1 := <[q := mkFuture PENDING wq [H]]> (heap σ)
             ++ [mkFuture PENDING VUndefined []]).
  set (σ1 := with_heap h1 (popped σ [] qq)).
  assert (ready (settle q σ1 k) [TUpdate q (payload k) (kind k)] qq) as Hr1.
  { rewrite settle_defer. by apply (ready_setTimeout σ1 [] qq). }
  assert (heap (settle q σ1 k) !! q = Some (mkFuture PENDING wq [H])) as Hq1.
  { rewrite settle_heap. unfold σ1, h1; cbn [with_heap heap].
    rewrite lookup_app_l by (by rewrite length_insert).
    by apply list_lookup_insert_eq. }
  replace n with (S (n - 1)) by lia.
  rewrite (run_S _ _ _ _ _
             (tick_settle _ _ _ q (payload k) (kind k) [] qq _ Hr1 Hq1 eq_refl Hv
                ltac:(by destruct k)
                ltac:(constructor; [by destruct k | constructor]))).
  cbn [handlers map concat]. rewrite app_nil_r.
  unfold H at 1. rewrite relay_adoption by apply kind_settled.
  eapply (child_update_plain _ _ _ c wc); try done;
    [| | apply kind_settled | lia].
  - refine (ready_effects (settle q σ1 k) [] qq _ q _ _ _).
    by rewrite settle_clock.
  - rewrite defer_heap. cbn [log_all with_heap heap]. rewrite settle_heap.
    unfold σ1, h1; cbn [with_heap heap].
    rewrite list_lookup_insert_ne by done.
    rewrite lookup_app_l by (by rewrite length_insert).
    by rewrite list_lookup_insert_ne.
Qed.

Lemma ready_delivered σ ts p hs h :
  idle σ → ready (defer ts (log_all p hs (with_heap h σ))) ts (timers σ).
Proof.
  intros Hidle. apply (ready_defer (log_all p hs (with_heap h σ)) [] (timers σ) ts).
  by split.
Qed.




(** ** Nothing of a settlement shows inside the turn *)

Lemma quiet_status σ σ' p s :
  quiet σ σ' → status_of p σ = Some s → status_of p σ' = Some s.
Proof.
  intros [_ Hq _ _]. unfold status_of. destruct (heap σ !! p) as [o |] eqn:Hp; [| done].
  intros [= <-]. destruct (Hq p o Hp) as (o' & -> & Hs & _). simpl. by rewrite Hs.
Qed.

Lemma status_of_pending σ p :
  status_of p σ = Some PENDING → ∃ o, heap σ !! p = Some o ∧ status o = PENDING.
Proof.
  unfold status_of. destruct (heap σ !! p) as [o |]; [| done].
  intros [= Hs]. eauto.
Qed.

Lemma then_pending_trace s0 ap p f r σ :
  status_of p σ = Some PENDING → trace (then_ s0 ap p f r σ).2 = trace σ.
Proof.
  intros Hs. destruct (status_of_pending _ _ Hs) as (o & Hp & Ho).
  by rewrite (then_pending _ _ _ _ _ _ o).
Qed.

Lemma then_child_pending s0 ap p f r σ :
  status_of p σ = Some PENDING →
  status_of (then_ s0 ap p f r σ).1 (then_ s0 ap p f r σ).2 = Some PENDING.
Proof.
  intros Hs. destruct (status_of_pending _ _ Hs) as (o & Hp & Ho).
  rewrite (then_pending _ _ _ _ _ _ o) by done. unfold status_of; cbn [fst snd heap].
  rewrite lookup_app_r by (by rewrite length_insert).
  by rewrite length_insert, Nat.sub_diag.
Qed.

Lemma subscribe_pending_trace s0 depth cb agg fs : ∀ σ,
  Forall (fun f => status_of f σ = Some PENDING) fs →
  trace (subscribe s0 depth cb agg σ fs) = trace σ.
Proof.
  unfold subscribe.
  induction fs as [| f fs IH]; intros σ Hfs; cbn [foldl]; [done |].
  apply Forall_cons_1 in Hfs as [Hf Hfs].
  pose proof (then_pending_trace s0 (call s0 depth) f (Some cb) None σ Hf) as Ht.
  pose proof (then_child_pending s0 (call s0 depth) f (Some cb) None σ Hf) as Hc.
  pose proof (quiet_then s0 _ (quiet_call s0 depth) f (Some cb) None σ) as Hq.
  destruct (then_ s0 (call s0 depth) f (Some cb) None σ) as [t σ1].
  cbn [fst snd] in Ht, Hc, Hq.
  pose proof (then_pending_trace s0 (call s0 depth) t None (Some (FRelay agg)) σ1 Hc) as Ht2.
  pose proof (quiet_catch s0 _ (quiet_call s0 depth) t (FRelay agg) σ1) as Hq2.
  unfold catch in *. rewrite IH; [congruence |].
  eapply List.Forall_impl; [| exact Hfs]. intros x Hx; simpl in Hx.
  eapply quiet_status; [exact Hq2 |]. by eapply quiet_status.
Qed.

Lemma quiet_perform s0 depth op σ : quiet σ (perform s0 depth op σ).
Proof.
  destruct op as [body | p f r | p r | fs | fs | p c]; cbn [perform].
  - apply quiet_new_future.
  - apply quiet_then, quiet_call.
  - apply quiet_catch, quiet_call.
  - apply quiet_all.
  - apply quiet_race.
  - rewrite settle_defer. apply quiet_setTimeout.
Qed.

Lemma run_resolver_trace body this σ : trace (run_resolver body this σ).2 = trace σ.
Proof.
  revert σ. induction body as [| [v | e | d v | d e | e] k IH]; intros σ;
    cbn [run_resolver]; try done; by rewrite IH.
Qed.

Lemma allocate_trace s0 σ : trace (allocate s0 σ).2 = trace σ.
Proof. by rewrite allocate_eq. Qed.

Lemma allocate_status s0 σ p s :
  status_of p σ = Some s → status_of p (allocate s0 σ).2 = Some s.
Proof. apply quiet_status, quiet_allocate. Qed.

(** C5, as stated, fails: [then] on a future that has already been
    fulfilled calls the handler before it returns. *)
Lemma then_on_settled_counterexample :
  ¬ nothing_shows Unset 0 (OpThen 0 (Some (FPure Return)) None)
      (fulfilled_future Unset).
Proof. intros [_ H]. vm_compute in H. discriminate H. Qed.

(** C5 (amended).  No operation a caller performs in a turn (creating a
    future, [then], [catch], [all], [race], a call of [resolve] or
    [reject], also from inside the resolver) changes the status or the
    value of any future within that turn.  No handler runs within the
    turn either, provided the futures on which the operation registers
    are still [PENDING].  [then] on a future that has already settled
    runs the handler before it returns; the child it returns is still
    [PENDING] then. *)
Theorem settlement_is_deferred (status0 : STATUSES) (depth : nat)
    (op : operation) (σ : state) :
  quiet σ (perform status0 depth op σ)
  ∧ (Forall (fun p => status_of p σ = Some PENDING) (registers_on op) →
     nothing_shows status0 depth op σ)
  ∧ (∀ p f r o,
       op = OpThen p f r → heap σ !! p = Some o → status o ≠ PENDING →
       handlers o = [] →
       plain_for (status o) (mkHandler f r (length (heap σ))) →
       trace (perform status0 depth op σ)
       = trace σ ++ [(p, mkHandler f r (length (heap σ)))]
       ∧ status_of (length (heap σ)) (perform status0 depth op σ) = Some PENDING).
Proof.
  split; [apply quiet_perform |]. split.
  - intros Hreg. split; [apply quiet_perform |].
    destruct op as [body | p f r | p r | fs | fs | p c]; cbn [perform registers_on] in *.
    + unfold new_future, construct.
      pose proof (allocate_trace status0 σ) as Ha.
      destruct (allocate status0 σ) as [this σ1]. cbn [snd] in Ha.
      pose proof (run_resolver_trace body this σ1) as Hb.
      destruct (run_resolver body this σ1) as [[v | e] σ2]; simpl in *; congruence.
    + apply then_pending_trace. by apply Forall_cons_1 in Hreg as [? _].
    + apply then_pending_trace. by apply Forall_cons_1 in Hreg as [? _].
    + unfold all, construct.
      pose proof (allocate_trace status0 σ) as Ha.
      assert (Forall (fun f => status_of f (allocate status0 σ).2 = Some PENDING) fs) as Hfs.
      { eapply List.Forall_impl; [| exact Hreg]. intros x Hx. by apply allocate_status. }
      destruct (allocate status0 σ) as [this σ1]. cbn [snd array_new] in *.
      rewrite subscribe_pending_trace; [done |].
      eapply List.Forall_impl; [| exact Hfs]. by intros x Hx.
    + unfold race, construct.
      pose proof (allocate_trace status0 σ) as Ha.
      assert (Forall (fun f => status_of f (allocate status0 σ).2 = Some PENDING) fs) as Hfs.
      { eapply List.Forall_impl; [| exact Hreg]. intros x Hx. by apply allocate_status. }
      destruct (allocate status0 σ) as [this σ1]. cbn [snd] in *.
      by rewrite subscribe_pending_trace.
    + by destruct c.
  - intros p f r o -> Hp Hs Hh Hplain. cbn [perform].
    rewrite (then_settled _ _ _ _ _ _ o) by done. cbn [snd]. split.
    + by rewrite defer_trace.
    + unfold status_of. rewrite defer_heap. cbn [log_all with_heap heap].
      rewrite lookup_app_r by done. by rewrite Nat.sub_diag.
Qed.

Lemma settlement_is_deferred_witness :
  Forall (fun p => status_of p (pending_futures Unset 2) = Some PENDING)
    (registers_on (OpAll [0; 1]))
  ∧ nothing_shows Unset 0 (OpAll [0; 1]) (pending_futures Unset 2).
Proof.
  assert (Forall (fun p => status_of p (pending_futures Unset 2) = Some PENDING)
            (registers_on (OpAll [0; 1]))) as H
    by (repeat constructor).
  split; [exact H |].
  exact (proj1 (proj2 (settlement_is_deferred Unset 0 (OpAll [0; 1])
                         (pending_futures Unset 2))) H).
Defined.

(** ** Delivery of handlers *)

Lemma deliveries_quiet p c σ σ' :
  quiet σ σ' → deliveries p c σ ≤ deliveries p c σ'.
Proof.
  intros [_ _ _ [ext Ht]]. unfold deliveries.
  rewrite Ht, filter_app, length_app. lia.
Qed.

Lemma deliveries_log p h σ :
  deliveries p (child h) (log_delivery p h σ) = S (deliveries p (child h) σ).
Proof.
  unfold deliveries; simpl. rewrite filter_app, length_app.
  rewrite filter_cons_True by done. simpl. lia.
Qed.

Section Redelivery.

Variable status0 : STATUSES.
Variable apply_fn : fn → value → state → completion * state.
Hypothesis apply_quiet : ∀ f v σ, quiet σ (apply_fn f v σ).2.

Lemma deliver_counts p σ h o :
  heap σ !! p = Some o →
  S (deliveries p (child h) σ) ≤ deliveries p (child h) (deliver apply_fn p σ h).
Proof.
  intros Hp. unfold deliver. rewrite Hp. rewrite <- deliveries_log.
  apply deliveries_quiet.
  case_decide; [by apply quiet_onFullfill | by apply quiet_onReject].
Qed.

Lemma foldl_deliver_counts p h hs : ∀ σ o,
  heap σ !! p = Some o → h ∈ hs →
  S (deliveries p (child h) σ)
  ≤ deliveries p (child h) (foldl (deliver apply_fn p) σ hs).
Proof.
  induction hs as [| h' hs IH]; intros σ o Hp Hin; [by apply elem_of_nil in Hin |].
  cbn [foldl]. apply elem_of_cons in Hin as [-> | Hin].
  - etrans; [by eapply deliver_counts |].
    apply deliveries_quiet. by apply quiet_foldl_deliver.
  - pose proof (quiet_deliver apply_fn apply_quiet p σ h') as Hq.
    destruct (quiet_heap _ _ Hq p o Hp) as (o' & Hp' & _).
    etrans; [| by eapply IH]. apply le_n_S. by apply deliveries_quiet.
Qed.

Lemma executeHandlers_counts p h σ o :
  heap σ !! p = Some o → status o ≠ PENDING → h ∈ handlers o →
  S (deliveries p (child h) σ)
  ≤ deliveries p (child h) (executeHandlers apply_fn p σ).
Proof.
  intros Hp Hs Hin. rewrite (executeHandlers_settled _ _ _ o) by done. cbn zeta.
  pose proof (foldl_deliver_counts p h (handlers o) σ o Hp Hin) as Hle.
  destruct (heap (foldl (deliver apply_fn p) σ (handlers o)) !! p) eqn:Hp'; [| done].
  etrans; [exact Hle |]. apply deliveries_quiet. by eapply quiet_set_future.
Qed.

Lemma then_counts p h f r σ o :
  heap σ !! p = Some o → status o ≠ PENDING → h ∈ handlers o →
  S (deliveries p (child h) σ)
  ≤ deliveries p (child h) (then_ status0 apply_fn p f r σ).2.
Proof.
  intros Hp Hs Hin. pose proof (lookup_lt_Some _ _ _ Hp) as Hlt.
  unfold then_, construct. rewrite allocate_eq. cbn [snd].
  unfold addHandler; cbn [heap]. rewrite lookup_app_l by done. rewrite Hp.
  set (σ1 := set_future _ _ _).
  change (deliveries p (child h) σ) with (deliveries p (child h) σ1).
  eapply (executeHandlers_counts p h σ1
            (mkFuture (status o) (val o)
               (handlers o ++ [mkHandler f r (length (heap σ))]))); [| done |].
  - unfold σ1; simpl. apply list_lookup_insert_eq. rewrite length_app. lia.
  - simpl. set_solver.
Qed.

End Redelivery.

(** A handler whose callback calls [then] on the future it is registered
    on is called again from inside its own delivery, as long as the stack
    has room for the nested call. *)
Lemma reentrant_redelivery s0 d σ p o v h rest f r :
  heap σ !! p = Some o → status o = PENDING → isThenable v = false →
  handlers o = h :: rest → onFulfill h = Some (FThenOn p f r) →
  deliveries p (child h) σ + 2
  ≤ deliveries p (child h) (update_task s0 (call s0 (S d)) p v FULFILLED σ).
Proof.
  intros Hp Hs Hv Hhs Hcb. pose proof (lookup_lt_Some _ _ _ Hp) as Hlt.
  rewrite (update_task_plain _ _ _ _ _ _ o) by done. rewrite Hhs.
  set (σ1 := set_future _ _ _).
  assert (heap σ1 !! p = Some (mkFuture FULFILLED v (h :: rest))) as Hp1.
  { simpl. by apply list_lookup_insert_eq. }
  change (deliveries p (child h) σ) with (deliveries p (child h) σ1).
  rewrite (executeHandlers_settled _ _ _ _ Hp1) by done. cbn zeta.
  cbn [handlers foldl].
  set (σ3 := deliver (call s0 (S d)) p σ1 h).
  assert (deliveries p (child h) σ1 + 2 ≤ deliveries p (child h) σ3) as Hle.
  { unfold σ3, deliver. rewrite Hp1. cbn [status val].
    rewrite decide_True by done. unfold Handler_onFullfill. rewrite Hcb.
    cbn [call].
    set (σ2 := log_delivery p h σ1).
    assert (heap σ2 !! p = Some (mkFuture FULFILLED v (h :: rest))) as Hp2 by done.
    pose proof (then_counts s0 (call s0 d) (quiet_call s0 d) p h f r σ2 _ Hp2
                  ltac:(done) ltac:(simpl; set_solver)) as Hcount.
    unfold σ2 in Hcount at 1. rewrite deliveries_log in Hcount.
    etrans; [| apply deliveries_quiet, quiet_updateResult]. lia. }
  set (σ4 := foldl _ σ3 rest).
  assert (deliveries p (child h) σ3 ≤ deliveries p (child h) σ4) as Hle2
    by apply deliveries_quiet, quiet_foldl_deliver, quiet_call.
  destruct (heap σ4 !! p) eqn:Hp4; [| lia].
  etrans; [| apply deliveries_quiet; by eapply quiet_set_future]. lia.
Qed.

(** C3 fails on the code.  The callback of the first handler on future 0
    calls [then] on future 0.  When future 0 is fulfilled this handler
    (the one whose child is future 1) is called at least twice in the one
    turn, whatever room the stack has beyond one nested call. *)
Theorem reentrant_handler_delivered_twice (status0 : STATUSES) (d : nat) :
  deliveries 0 1 (reentrant_scenario status0 (S d)) = 0
  ∧ 2 ≤ deliveries 0 1 (run status0 (S d) 1 (reentrant_scenario status0 (S d))).
Proof.
  split; [done |].
  assert (tick status0 (S d) (reentrant_scenario status0 (S d))
          = Some (update_task status0 (call status0 (S d)) 0 (VNum 7) FULFILLED
                    (mkState
                       [mkFuture PENDING VUndefined
                          [mkHandler (Some (FThenOn 0 (Some (FPure Return)) None)) None 1];
                        mkFuture PENDING VUndefined []]
                       [] [] 0 []))) as Ht.
  { reflexivity. }
  rewrite (run_S _ _ 0 _ _ Ht). cbn [run].
  set (h := mkHandler (Some (FThenOn 0 (Some (FPure Return)) None)) None 1).
  set (σ := mkState _ _ _ _ _).
  by apply (reentrant_redelivery status0 d σ 0 (mkFuture PENDING VUndefined [h])
              (VNum 7) h [] (Some (FPure Return)) None).
Qed.

(** What does hold of delivery: when a pending future settles and the
    callbacks of its handlers are plain, each handler is called once, in
    the order of registration, and the queue is empty afterwards. *)
Lemma handlers_delivered_in_order s0 depth σ p o v s :
  heap σ !! p = Some o → status o = PENDING → isThenable v = false →
  s ≠ PENDING → Forall (plain_for s) (handlers o) →
  trace (update_task s0 (call s0 depth) p v s σ)
  = trace σ ++ map (pair p) (handlers o)
  ∧ handlers_of p (update_task s0 (call s0 depth) p v s σ) = [].
Proof.
  intros Hp Hs Hv Hne Hhs. rewrite (update_task_closed _ _ _ _ _ _ o) by done.
  split; [by rewrite defer_trace |].
  unfold handlers_of. rewrite defer_heap. cbn [log_all with_heap heap].
  rewrite list_lookup_insert_eq by (by eapply lookup_lt_Some). done.
Qed.

(** ** The wiring of [all] and [race] *)

Lemma then_child_shift base i : then_child (base + 2) i = then_child base (S i).
Proof. unfold then_child. lia. Qed.

Lemma catch_child_shift base i : catch_child (base + 2) i = catch_child base (S i).
Proof. unfold catch_child. lia. Qed.

Lemma input_waiting_shift h cb agg base i f :
  input_waiting h cb agg (base + 2) i f → input_waiting h cb agg base (S i) f.
Proof.
  unfold input_waiting, input_handler, relay_handler.
  by rewrite then_child_shift, catch_child_shift.
Qed.

Lemma subscribe_one s0 depth cb agg σ f w :
  heap σ !! f = Some (mkFuture PENDING w []) →
  subscribe s0 depth cb agg σ [f]
  = with_heap
      (<[f := mkFuture PENDING w [input_handler cb (length (heap σ)) 0]]> (heap σ)
       ++ [mkFuture PENDING VUndefined [relay_handler agg (length (heap σ)) 0];
           mkFuture PENDING VUndefined []]) σ.
Proof.
  intros Hf. pose proof (lookup_lt_Some _ _ _ Hf) as Hlt.
  unfold subscribe; cbn [foldl].
  rewrite (then_pending _ _ _ _ _ _ _ Hf eq_refl). cbn [status val handlers app].
  set (base := length (heap σ)).
  set (σ1 := mkState _ _ _ _ _).
  assert (heap σ1 !! base = Some (mkFuture PENDING VUndefined [])) as Ht.
  { unfold σ1; cbn [heap]. rewrite lookup_app_r by (by rewrite length_insert).
    by rewrite length_insert, Nat.sub_diag. }
  unfold catch. rewrite (then_pending _ _ _ _ _ _ _ Ht eq_refl).
  cbn [snd status val handlers app].
  assert (length (heap σ1) = S base) as Hlen.
  { unfold σ1; cbn [heap]. rewrite length_app, length_insert. simpl. lia. }
  rewrite Hlen. unfold with_heap, σ1; cbn [heap arrays timers clock trace].
  f_equal. unfold input_handler, relay_handler, then_child, catch_child.
  rewrite !Nat.mul_0_r, !Nat.add_0_r, Nat.add_1_r.
  rewrite insert_app_r_alt by (by rewrite length_insert).
  rewrite length_insert, Nat.sub_diag. cbn [insert list_insert].
  by rewrite <- app_assoc.
Qed.

Lemma subscribe_cons s0 depth cb agg σ f fs :
  subscribe s0 depth cb agg σ (f :: fs)
  = subscribe s0 depth cb agg (subscribe s0 depth cb agg σ [f]) fs.
Proof. done. Qed.

Lemma subscribe_spec s0 depth cb agg fs : ∀ σ,
  NoDup fs →
  Forall (fun f => ∃ w, heap σ !! f = Some (mkFuture PENDING w [])) fs →
  arrays (subscribe s0 depth cb agg σ fs) = arrays σ
  ∧ timers (subscribe s0 depth cb agg σ fs) = timers σ
  ∧ clock (subscribe s0 depth cb agg σ fs) = clock σ
  ∧ trace (subscribe s0 depth cb agg σ fs) = trace σ
  ∧ length (heap (subscribe s0 depth cb agg σ fs)) = length (heap σ) + 2 * length fs
  ∧ (∀ i f, fs !! i = Some f →
       input_waiting (heap (subscribe s0 depth cb agg σ fs)) cb agg
                     (length (heap σ)) i f)
  ∧ (∀ x, x < length (heap σ) → x ∉ fs →
       heap (subscribe s0 depth cb agg σ fs) !! x = heap σ !! x).
Proof.
  induction fs as [| f fs IH]; intros σ Hnd Hfs.
  - cbn. repeat split; (done || lia).
  - apply NoDup_cons in Hnd as [Hnf Hnd]. apply Forall_cons_1 in Hfs as [[w Hf] Hfs].
    pose proof (lookup_lt_Some _ _ _ Hf) as Hlt.
    rewrite subscribe_cons, (subscribe_one _ _ _ _ _ _ w Hf).
    set (base := length (heap σ)).
    set (h1 := <[f := _]> (heap σ) ++ _).
    assert (length h1 = base + 2) as Hlen1.
    { unfold h1. rewrite length_app, length_insert. simpl. lia. }
    assert (∀ x, x < base → x ≠ f → h1 !! x = heap σ !! x) as Hh1.
    { intros x Hx Hxf. unfold h1. rewrite lookup_app_l by (by rewrite length_insert).
      by rewrite list_lookup_insert_ne. }
    assert (Forall (fun x => x < base) fs) as Hfslt.
    { eapply List.Forall_impl; [| exact Hfs]. intros x [w' Hx]; simpl.
      by apply lookup_lt_Some in Hx. }
    destruct (IH (with_heap h1 σ) Hnd) as (Ha & Hq & Hc & Ht & Hlen & Hwait & Hfr).
    { apply Forall_forall. intros x Hx. rewrite Forall_forall in Hfs, Hfslt.
      destruct (Hfs x Hx) as [w' Hw']. exists w'. cbn [with_heap heap].
      rewrite Hh1; [done | by apply Hfslt |]. intros ->. done. }
    cbn [with_heap heap arrays timers clock trace] in *.
    rewrite Hlen1 in *.
    split; [done |]. split; [done |]. split; [done |]. split; [done |].
    split; [cbn [length]; lia |]. split.
    + intros [| i] x Hx; cbn in Hx.
      * simplify_eq. unfold input_waiting.
        assert (base ∉ fs) as Hb by (apply not_elem_of_lt; done).
        assert (S base ∉ fs) as Hb1.
        { apply not_elem_of_lt. eapply List.Forall_impl; [| exact Hfslt]. simpl. lia. }
        unfold then_child, catch_child. rewrite !Nat.mul_0_r, !Nat.add_0_r, Nat.add_1_r.
        rewrite !Hfr by (done || lia). unfold h1. repeat split.
        -- exists w. rewrite lookup_app_l by (by rewrite length_insert).
           by apply list_lookup_insert_eq.
        -- rewrite lookup_app_r by (by rewrite length_insert).
           by rewrite length_insert, Nat.sub_diag.
        -- rewrite lookup_app_r by (rewrite length_insert; lia).
           rewrite length_insert.
           match goal with
           | |- context [?a - ?b] => replace (a - b) with 1 by (unfold base; lia)
           end.
           done.
      * apply input_waiting_shift. by apply Hwait.
    + intros x Hx Hxn. rewrite Hfr; [| lia |].
      * apply Hh1; [done |]. intros ->. apply Hxn. by left.
      * intros Hin. apply Hxn. by right.
Qed.

Lemma fixed_execute s0 depth prog σ : fixed σ (execute s0 depth prog σ).
Proof.
  unfold execute. revert σ. induction prog as [| a prog IH]; intros σ; cbn [foldl].
  - apply fixed_refl.
  - eapply fixed_trans; [| apply IH]. destruct a as [op |]; cbn [act].
    + apply quiet_fixed, quiet_perform.
    + apply fixed_run.
Qed.

Lemma settled_as_execute s0 depth prog σ p s v :
  settled_as σ p s v → s ≠ PENDING → settled_as (execute s0 depth prog σ) p s v.
Proof.
  unfold settled_as, status_of, value_of. intros [Hs Hv] Hne.
  destruct (heap σ !! p) as [o |] eqn:Hp; simplify_eq/=.
  destruct (fixed_execute s0 depth prog σ p o Hp Hne) as (o' & -> & Hs' & Hv'); simpl.
  by rewrite Hs', Hv'.
Qed.

(** ** One turn, stated by its effect *)

Lemma tick_settle_spec s0 depth σ p v s zs q o :
  ready σ (TUpdate p v s :: zs) q →
  heap σ !! p = Some o → status o = PENDING → isThenable v = false →
  s ≠ PENDING → Forall (plain_for s) (handlers o) →
  ∃ σ', tick s0 depth σ = Some σ'
    ∧ heap σ' = <[p := mkFuture s v []]> (heap σ)
    ∧ arrays σ' = arrays σ
    ∧ ready σ' (zs ++ concat (map (relay_tasks s v) (handlers o))) q.
Proof.
  intros Hr Hp Hs Hv Hne Hhs. eexists. split; [by eapply tick_settle |].
  rewrite defer_heap, defer_arrays. split; [done |]. split; [done |].
  apply ready_effects. by eapply ready_later.
Qed.

Lemma tick_dead_spec s0 depth σ p v s zs q o :
  ready σ (TUpdate p v s :: zs) q →
  heap σ !! p = Some o → status o ≠ PENDING →
  ∃ σ', tick s0 depth σ = Some σ'
    ∧ heap σ' = heap σ ∧ arrays σ' = arrays σ ∧ ready σ' zs q.
Proof.
  intros Hr Hp Hs. exists (popped σ zs q).
  split; [apply (tick_dead _ _ _ _ _ _ Hr); simpl; eauto |].
  split; [done |]. split; [done |]. apply ready_popped. by eapply ready_later.
Qed.

Lemma run_idle s0 depth n σ : timers σ = [] → run s0 depth n σ = σ.
Proof. intros Hq. destruct n; [done |]. cbn [run]. unfold tick. by rewrite Hq. Qed.

Lemma ready_nil σ : ready σ [] [] → timers σ = [].
Proof. by intros [Hq _]. Qed.

(** ** A rejection on its way to the aggregate *)

Lemma rejection_reaches_aggregate s0 depth σ cb agg wa base i f e q n :
  input_waiting (heap σ) cb agg base i f →
  heap σ !! agg = Some (mkFuture PENDING wa []) →
  f < base → agg < base → agg ≠ f →
  isThenable e = false →
  ready σ [TUpdate f e REJECTED] q → 4 ≤ n →
  settled_as (run s0 depth n σ) agg REJECTED e.
Proof.
  intros ([w Hf] & HT & HU) Hagg Hfb Hab Haf He Hr Hn.
  pose proof (Nat.le_add_r base (2 * i)) as HTb. fold (then_child base i) in HTb.
  destruct (tick_settle_spec s0 depth σ f e REJECTED [] q _ Hr Hf eq_refl He
              ltac:(done) ltac:(by repeat constructor))
    as (σ1 & Ht1 & Hh1 & _ & Hr1).
  cbn [handlers map concat app] in Hr1.
  assert (heap σ1 !! then_child base i
          = Some (mkFuture PENDING VUndefined [relay_handler agg base i])) as HT1.
  { rewrite Hh1, list_lookup_insert_ne by lia. done. }
  destruct (tick_settle_spec s0 depth σ1 (then_child base i) e REJECTED _ q _
              Hr1 HT1 eq_refl He ltac:(done) ltac:(by repeat constructor))
    as (σ2 & Ht2 & Hh2 & _ & Hr2).
  cbn [handlers map concat app] in Hr2.
  assert (heap σ2 !! then_child base i = Some (mkFuture REJECTED e [])) as HT2.
  { rewrite Hh2. apply list_lookup_insert_eq. by eapply lookup_lt_Some. }
  destruct (tick_dead_spec s0 depth σ2 (then_child base i) VTypeError REJECTED _ q _
              Hr2 HT2 ltac:(done))
    as (σ3 & Ht3 & Hh3 & _ & Hr3).
  assert (heap σ3 !! agg = Some (mkFuture PENDING wa [])) as Hagg3.
  { rewrite Hh3, Hh2, Hh1, !list_lookup_insert_ne by lia. done. }
  replace n with (S (S (S (n - 3)))) by lia.
  rewrite (run_S _ _ _ _ _ Ht1), (run_S _ _ _ _ _ Ht2), (run_S _ _ _ _ _ Ht3).
  apply (child_update_plain _ _ _ agg wa e REJECTED [TUpdate (catch_child base i) VUndefined REJECTED] q);
    [exact Hr3 | exact Hagg3 | exact He | by right | lia].
Qed.

(** ** [race] *)

Lemma race_eq s0 depth fs σ :
  race s0 depth fs σ
  = (length (heap σ),
     subscribe s0 depth (FRaceThen (length (heap σ))) (length (heap σ))
       (with_heap (heap σ ++ [mkFuture PENDING VUndefined []]) σ) fs).
Proof. unfold race, construct. by rewrite allocate_eq. Qed.

Lemma all_eq s0 depth fs σ :
  all s0 depth fs σ
  = (length (heap σ),
     subscribe s0 depth
       (FAllThen (length (arrays σ)) (length fs) (length (heap σ)))
       (length (heap σ))
       (with_arrays (arrays σ ++ [[]])
          (with_heap (heap σ ++ [mkFuture PENDING VUndefined []]) σ)) fs).
Proof. unfold all, construct. by rewrite allocate_eq. Qed.

(** The heap once the aggregate has been created and the inputs wired. *)
Lemma aggregate_wired s0 depth cb fs σ :
  NoDup fs →
  Forall (fun f => ∃ w, heap σ !! f = Some (mkFuture PENDING w [])) fs →
  let agg := length (heap σ) in
  let σ1 := subscribe s0 depth cb agg
              (with_heap (heap σ ++ [mkFuture PENDING VUndefined []]) σ) fs in
  arrays σ1 = arrays σ ∧ timers σ1 = timers σ ∧ clock σ1 = clock σ
  ∧ heap σ1 !! agg = Some (mkFuture PENDING VUndefined [])
  ∧ Forall (fun f => f < agg) fs
  ∧ ∀ i f, fs !! i = Some f → input_waiting (heap σ1) cb agg (S agg) i f.
Proof.
  intros Hnd Hfs agg σ1.
  assert (Forall (fun f => f < agg) fs) as Hlt.
  { eapply List.Forall_impl; [| exact Hfs]. intros x [w Hx]; simpl.
    by apply lookup_lt_Some in Hx. }
  destruct (subscribe_spec s0 depth cb agg fs
              (with_heap (heap σ ++ [mkFuture PENDING VUndefined []]) σ) Hnd)
    as (Ha & Hq & Hc & _ & _ & Hwait & Hfr).
  { apply Forall_forall. intros x Hx. rewrite Forall_forall in Hfs, Hlt.
    destruct (Hfs x Hx) as [w Hw]. exists w. cbn [with_heap heap].
    rewrite lookup_app_l; [done | by apply Hlt]. }
  cbn [with_heap heap arrays timers clock] in *.
  assert (length (heap σ ++ [mkFuture PENDING VUndefined []]) = S agg) as Hlen
    by (rewrite length_app; simpl; unfold agg; lia).
  rewrite Hlen in *.
  split; [done |]. split; [done |]. split; [done |]. split; [| split; [done |]].
  - fold σ1 in Hfr. rewrite Hfr; [| lia | by apply not_elem_of_lt].
    rewrite lookup_app_r by done. unfold agg. by rewrite Nat.sub_diag.
  - intros i f Hi. by apply Hwait.
Qed.

Lemma fulfilment_reaches_race s0 depth σ agg wa base i f v q n :
  input_waiting (heap σ) (FRaceThen agg) agg base i f →
  heap σ !! agg = Some (mkFuture PENDING wa []) →
  agg ≠ f → isThenable v = false →
  ready σ [TUpdate f v FULFILLED] q → 2 ≤ n →
  settled_as (run s0 depth n σ) agg FULFILLED v.
Proof.
  intros ([w Hf] & HT & HU) Hagg Haf Hv Hr Hn.
  destruct (tick_settle_spec s0 depth σ f v FULFILLED [] q _ Hr Hf eq_refl Hv
              ltac:(done) ltac:(by repeat constructor))
    as (σ1 & Ht1 & Hh1 & _ & Hr1).
  cbn [handlers map concat app] in Hr1.
  replace n with (S (n - 1)) by lia. rewrite (run_S _ _ _ _ _ Ht1).
  apply (child_update_plain _ _ _ agg wa v FULFILLED
           [TUpdate (then_child base i) VUndefined FULFILLED] q);
    [exact Hr1 | | exact Hv | by left | lia].
  rewrite Hh1, list_lookup_insert_ne by done. done.
Qed.


(** C9 fails on the code.  Two pending inputs; input 0 is rejected
    with ["e"] and, in the same turn, input 1 is fulfilled with ["v"].
    Input 0 settles first (after one turn of the event loop input 0 is
    [REJECTED] and input 1 still [PENDING]), yet the aggregate ends up
    [FULFILLED] with ["v"]: the rejection travels through the child of
    [then] and arrives one deferred step later than the fulfilment. *)
Theorem race_rejection_overtaken :
  let '(agg, σ1) := race Unset 0 [0; 1] (pending_futures Unset 2) in
  let σ2 := settle_each σ1 [(0, settleRejected (VStr "e"));
                            (1, settleFulfilled (VStr "v"))] in
  settled_as (run Unset 0 1 σ2) 0 REJECTED (VStr "e")
  ∧ status_of 1 (run Unset 0 1 σ2) = Some PENDING
  ∧ ∀ n, settled_as (run Unset 0 (5 + n) σ2) agg FULFILLED (VStr "v").
Proof.
  rewrite race_eq. cbv zeta. split; [by vm_compute |]. split; [by vm_compute |].
  intros n. rewrite run_add. apply settled_as_run; [by vm_compute | done].
Qed.

(** ** [all] *)

Lemma tick_settle_all s0 depth σ f w v r len agg T vals zs q :
  ready σ (TUpdate f v FULFILLED :: zs) q →
  heap σ !! f
  = Some (mkFuture PENDING w [mkHandler (Some (FAllThen r len agg)) None T]) →
  isThenable v = false → arrays σ !! r = Some vals →
  ∃ σ', tick s0 depth σ = Some σ'
    ∧ heap σ' = <[f := mkFuture FULFILLED v []]> (heap σ)
    ∧ arrays σ' = <[r := vals ++ [v]]> (arrays σ)
    ∧ ready σ'
        (zs ++ (if decide (length (vals ++ [v]) = len)
                then [TUpdate agg (VArray r) FULFILLED] else [])
            ++ [TUpdate T VUndefined FULFILLED]) q.
Proof.
  intros Hr Hf Hv Hvals. pose proof (lookup_lt_Some _ _ _ Hf) as Hlt.
  pose proof (lookup_lt_Some _ _ _ Hvals) as Hrlt.
  pose proof (ready_later _ _ _ Hr) as Hq.
  rewrite (tick_ready _ _ _ _ _ _ Hr). cbn [run_task].
  rewrite (update_task_plain _ _ _ _ _ (popped σ zs q) _ Hf eq_refl Hv).
  cbn [handlers].
  set (H := mkHandler _ _ _). set (σ1 := set_future _ _ _).
  assert (heap σ1 !! f = Some (mkFuture FULFILLED v [H])) as Hf1.
  { unfold σ1; simpl. by apply list_lookup_insert_eq. }
  rewrite (executeHandlers_settled _ _ _ _ Hf1) by done. cbn zeta.
  cbn [handlers foldl]. unfold deliver. rewrite Hf1. cbn [status val].
  rewrite decide_True by done. unfold Handler_onFullfill. cbn [H onFulfill child].
  rewrite call_FAllThen.
  assert (array_of r (array_push r v (log_delivery f H σ1)) = vals ++ [v]) as Harr.
  { unfold array_of at 1. unfold array_push, log_delivery, σ1; simpl.
    rewrite list_lookup_insert_eq by done. unfold array_of; simpl.
    by rewrite Hvals. }
  rewrite Harr. eexists. split; [reflexivity |].
  set (ts := (if decide _ then _ else _) ++ _).
  assert (∀ σx, (if decide (length (vals ++ [v]) = len)
                 then resolve agg (VArray r) σx else σx)
                = defer (if decide (length (vals ++ [v]) = len)
                         then [TUpdate agg (VArray r) FULFILLED] else []) σx) as Hif
    by (intros σx; by case_decide).
  rewrite Hif.
  change (resolve T VUndefined ?σx) with (defer [TUpdate T VUndefined FULFILLED] σx).
  rewrite <- defer_app. fold ts.
  set (σ2 := array_push r v (log_delivery f H σ1)).
  assert (heap (defer ts σ2) = <[f := mkFuture FULFILLED v [H]]> (heap σ)) as Hh
    by (by rewrite defer_heap).
  rewrite Hh, list_lookup_insert_eq by done.
  unfold set_future; cbn [heap arrays timers clock trace status val].
  rewrite Hh, list_insert_insert_eq, defer_arrays.
  split; [done |]. split.
  - unfold σ2, array_push, array_of, log_delivery, σ1; simpl.
    by rewrite Hvals.
  - rewrite defer_clock, defer_trace.
    pose proof (ready_defer σ2 zs q ts) as Hrd.
    destruct Hrd as [Hq1 Hq2]; [by split |]. rewrite defer_clock in Hq1, Hq2.
    by split.
Qed.

Lemma ready_settle_idle σ f c :
  timers σ = [] → ready (settle f σ c) [TUpdate f (payload c) (kind c)] [].
Proof.
  intros Hq. rewrite settle_defer. apply (ready_setTimeout σ [] []). by split.
Qed.

Lemma lookup_inj_ne (fs : list nat) i i' f f' :
  fs !! i = Some f → fs !! i' = Some f' → f ≠ f' → i ≠ i'.
Proof. intros Hi Hi' Hne ->. congruence. Qed.

(** Settling input [i] leaves the wiring of the other inputs alone. *)
Lemma input_waiting_frame h h' cb agg i i' f f' :
  input_waiting h cb agg (S agg) i' f' →
  f' < agg → f < agg → f ≠ f' → i ≠ i' →
  (∀ x, x ≠ f → x ≠ agg → x ≠ then_child (S agg) i → x ≠ catch_child (S agg) i →
        h' !! x = h !! x) →
  input_waiting h' cb agg (S agg) i' f'.
Proof.
  intros ([w Hf] & HT & HU) Hf'a Hfa Hne Hi Hfr.
  unfold input_waiting. unfold then_child, catch_child in *.
  rewrite !Hfr by lia. eauto.
Qed.

(** A turn in which input [f] fulfils and some other input is still
    awaited: the value is appended, the aggregate stays pending. *)
Lemma all_turn_fulfil s0 depth fs σ agg r done i f v n :
  all_waiting fs σ agg r done → NoDup fs →
  fs !! i = Some f → f ∉ map fst done → isThenable v = false →
  length done + 1 ≠ length fs → 3 ≤ n →
  all_waiting fs (run s0 depth n (resolve f v σ)) agg r (done ++ [(f, v)]).
Proof.
  intros (Hq & Hagg & Harr & Hlt & Hwait) Hnd Hi Hfd Hv Hlen Hn.
  destruct n as [| [| [| n]]]; [lia | lia | lia | clear Hn].
  assert (f < agg) as Hfa.
  { rewrite Forall_forall in Hlt. apply Hlt. by eapply list_elem_of_lookup_2. }
  destruct (Hwait i f Hi Hfd) as ([w Hf] & HT & HU).
  pose proof (ready_settle_idle σ f (settleFulfilled v) Hq) as Hr.
  cbn [settle payload kind] in Hr.
  destruct (tick_settle_all s0 depth (resolve f v σ) f w v r (length fs) agg
              (then_child (S agg) i) (map snd done) [] [] Hr Hf Hv Harr)
    as (σ1 & Ht1 & Hh1 & Ha1 & Hr1).
  rewrite decide_False in Hr1 by (rewrite length_app, length_map; simpl; lia).
  cbn [app] in Hr1. simpl in Hh1, Ha1.
  assert (heap σ1 !! then_child (S agg) i
          = Some (mkFuture PENDING VUndefined [relay_handler agg (S agg) i])) as HT1.
  { rewrite Hh1, list_lookup_insert_ne by (unfold then_child; lia). done. }
  destruct (tick_settle_spec s0 depth σ1 _ VUndefined FULFILLED [] [] _
              Hr1 HT1 eq_refl eq_refl ltac:(done) ltac:(by repeat constructor))
    as (σ2 & Ht2 & Hh2 & Ha2 & Hr2).
  cbn [handlers map concat app] in Hr2.
  assert (heap σ2 !! catch_child (S agg) i
          = Some (mkFuture PENDING VUndefined [])) as HU2.
  { rewrite Hh2, Hh1, !list_lookup_insert_ne by (unfold then_child, catch_child; lia).
    done. }
  destruct (tick_settle_spec s0 depth σ2 _ VUndefined FULFILLED [] [] _
              Hr2 HU2 eq_refl eq_refl ltac:(done) ltac:(by constructor))
    as (σ3 & Ht3 & Hh3 & Ha3 & Hr3).
  cbn [handlers map concat app] in Hr3. apply ready_nil in Hr3.
  rewrite (run_S _ _ _ _ _ Ht1), (run_S _ _ _ _ _ Ht2), (run_S _ _ _ _ _ Ht3).
  rewrite run_idle by done.
  assert (∀ x, x ≠ f → x ≠ agg → x ≠ then_child (S agg) i →
               x ≠ catch_child (S agg) i → heap σ3 !! x = heap σ !! x) as Hfr.
  { intros x ? ? ? ?. by rewrite Hh3, Hh2, Hh1, !list_lookup_insert_ne. }
  split; [done |]. split; [| split; [| split; [done |]]].
  - rewrite Hh3, Hh2, Hh1. unfold relay_handler; cbn [child].
    rewrite !list_lookup_insert_ne
      by (unfold then_child, catch_child; lia). done.
  - rewrite Ha3, Ha2, Ha1, map_app. apply list_lookup_insert_eq.
    by eapply lookup_lt_Some.
  - intros i' f' Hi' Hf'd. rewrite map_app in Hf'd. cbn in Hf'd.
    assert (f ≠ f') as Hne by (intros ->; apply Hf'd; set_solver).
    assert (f' ∉ map fst done) as Hf'd' by set_solver.
    assert (f' < agg) as Hf'a.
    { rewrite Forall_forall in Hlt. apply Hlt. by eapply list_elem_of_lookup_2. }
    apply (input_waiting_frame (heap σ) _ _ _ i i' f f');
      [by apply Hwait | done | done | done | | done].
    exact (lookup_inj_ne fs i i' f f' Hi Hi' Hne).
Qed.


(** The turn in which the last awaited input fulfils: the aggregate is
    fulfilled with the results array, which holds the values in the
    order of their arrival. *)
Lemma all_turn_complete s0 depth fs σ agg r done i f v n :
  all_waiting fs σ agg r done →
  fs !! i = Some f → f ∉ map fst done → isThenable v = false →
  length done + 1 = length fs → 4 ≤ n →
  settled_as (run s0 depth n (resolve f v σ)) agg FULFILLED (VArray r)
  ∧ array_of r (run s0 depth n (resolve f v σ)) = map snd (done ++ [(f, v)]).
Proof.
  intros (Hq & Hagg & Harr & Hlt & Hwait) Hi Hfd Hv Hlen Hn.
  destruct n as [| [| [| [| n]]]]; [lia | lia | lia | lia | clear Hn].
  assert (f < agg) as Hfa.
  { rewrite Forall_forall in Hlt. apply Hlt. by eapply list_elem_of_lookup_2. }
  destruct (Hwait i f Hi Hfd) as ([w Hf] & HT & HU).
  pose proof (ready_settle_idle σ f (settleFulfilled v) Hq) as Hr.
  cbn [settle payload kind] in Hr.
  destruct (tick_settle_all s0 depth (resolve f v σ) f w v r (length fs) agg
              (then_child (S agg) i) (map snd done) [] [] Hr Hf Hv Harr)
    as (σ1 & Ht1 & Hh1 & Ha1 & Hr1).
  rewrite decide_True in Hr1 by (rewrite length_app, length_map; simpl; lia).
  cbn [app] in Hr1. simpl in Hh1, Ha1.
  assert (heap σ1 !! agg = Some (mkFuture PENDING VUndefined [])) as Hagg1.
  { rewrite Hh1, list_lookup_insert_ne by lia. done. }
  destruct (tick_settle_spec s0 depth σ1 _ (VArray r) FULFILLED _ [] _
              Hr1 Hagg1 eq_refl eq_refl ltac:(done) ltac:(by constructor))
    as (σ2 & Ht2 & Hh2 & Ha2 & Hr2).
  cbn [handlers map concat app] in Hr2.
  assert (heap σ2 !! then_child (S agg) i
          = Some (mkFuture PENDING VUndefined [relay_handler agg (S agg) i])) as HT2.
  { rewrite Hh2, Hh1, !list_lookup_insert_ne by (unfold then_child; lia). done. }
  destruct (tick_settle_spec s0 depth σ2 _ VUndefined FULFILLED [] [] _
              Hr2 HT2 eq_refl eq_refl ltac:(done) ltac:(by repeat constructor))
    as (σ3 & Ht3 & Hh3 & Ha3 & Hr3).
  cbn [handlers map concat app] in Hr3.
  unfold relay_handler in Hr3; cbn [relay_tasks] in Hr3.
  assert (heap σ3 !! catch_child (S agg) i
          = Some (mkFuture PENDING VUndefined [])) as HU3.
  { rewrite Hh3, Hh2, Hh1, !list_lookup_insert_ne
      by (unfold then_child, catch_child; lia). done. }
  destruct (tick_settle_spec s0 depth σ3 _ VUndefined FULFILLED [] [] _
              Hr3 HU3 eq_refl eq_refl ltac:(done) ltac:(by constructor))
    as (σ4 & Ht4 & Hh4 & Ha4 & Hr4).
  cbn [handlers map concat app] in Hr4. apply ready_nil in Hr4.
  rewrite (run_S _ _ _ _ _ Ht1), (run_S _ _ _ _ _ Ht2), (run_S _ _ _ _ _ Ht3),
    (run_S _ _ _ _ _ Ht4).
  rewrite run_idle by done.
  assert (agg < length (heap σ)) as Hl by (by eapply lookup_lt_Some).
  split.
  - unfold settled_as, status_of, value_of.
    rewrite Hh4, Hh3, Hh2.
    cbn [child]. do 2 (rewrite list_lookup_insert_ne
            by (unfold then_child, catch_child; lia)).
    rewrite list_lookup_insert_eq by (rewrite Hh1, length_insert; lia).
    done.
  - unfold array_of. rewrite Ha4, Ha3, Ha2, Ha1, map_app.
    rewrite list_lookup_insert_eq by (by eapply lookup_lt_Some). done.
Qed.


Lemma fulfil_in_turns_snoc s0 depth n σ sched ev :
  fulfil_in_turns s0 depth n σ (sched ++ [ev])
  = run s0 depth n (resolve ev.1 ev.2 (fulfil_in_turns s0 depth n σ sched)).
Proof. unfold fulfil_in_turns. by rewrite foldl_app. Qed.

(** While some input is still awaited, every turn leaves the aggregate
    waiting, with one more value in the results array. *)
Lemma all_turns_waiting s0 depth fs n agg r sched : ∀ σ done,
  all_waiting fs σ agg r done → NoDup fs → 3 ≤ n →
  NoDup (map fst (done ++ sched)) →
  (∀ x, x ∈ map fst (done ++ sched) → x ∈ fs) →
  plain_values sched →
  length (done ++ sched) < length fs →
  all_waiting fs (fulfil_in_turns s0 depth n σ sched) agg r (done ++ sched).
Proof.
  induction sched as [| [f v] sched IH]; intros σ done Hw Hnd Hn Hnds Hin Hpl Hlen.
  { by rewrite app_nil_r. }
  apply Forall_cons in Hpl as [Hv Hpl]. cbn [snd] in Hv.
  assert (f ∈ fs) as Hf.
  { apply Hin. rewrite map_app. cbn. set_solver. }
  apply list_elem_of_lookup in Hf as [i Hi].
  assert (f ∉ map fst done) as Hfd.
  { rewrite map_app in Hnds. apply NoDup_app in Hnds as (_ & Hx & _).
    intros Hd. apply (Hx f Hd). cbn. set_solver. }
  rewrite length_app in Hlen. cbn [length] in Hlen.
  rewrite (cons_middle (f, v) done sched), app_assoc in *.
  cbn [fulfil_in_turns foldl]. apply IH; try done.
  - apply (all_turn_fulfil s0 depth fs σ agg r done i f v n); try done. lia.
  - rewrite !length_app. cbn [length]. lia.
Qed.


(** [all] on untouched inputs: the aggregate and an empty results array
    are created and every input is wired to them. *)
Lemma all_starts_waiting s0 depth fs σ :
  timers σ = [] → NoDup fs → untouched σ fs →
  (all s0 depth fs σ).1 = length (heap σ)
  ∧ all_waiting fs (all s0 depth fs σ).2 (length (heap σ)) (length (arrays σ)) [].
Proof.
  intros Hq Hnd Hfs. rewrite all_eq. split; [done |]. cbn [snd].
  destruct (aggregate_wired s0 depth
              (FAllThen (length (arrays σ)) (length fs) (length (heap σ))) fs
              (with_arrays (arrays σ ++ [[]]) σ) Hnd Hfs)
    as (Ha & Ht & _ & Hagg & Hlt & Hwait).
  change (with_heap (heap (with_arrays (arrays σ ++ [[]]) σ)
                       ++ [mkFuture PENDING VUndefined []])
            (with_arrays (arrays σ ++ [[]]) σ))
    with (with_arrays (arrays σ ++ [[]])
            (with_heap (heap σ ++ [mkFuture PENDING VUndefined []]) σ))
    in Ha, Ht, Hagg, Hwait.
  change (heap (with_arrays (arrays σ ++ [[]]) σ)) with (heap σ)
    in Ha, Ht, Hagg, Hlt, Hwait.
  split; [by rewrite Ht |]. split; [done |]. split.
  - rewrite Ha. cbn [with_arrays arrays map].
    rewrite lookup_app_r by lia. by rewrite Nat.sub_diag.
  - split; [done |]. intros i f Hi _. by apply Hwait.
Qed.










(** ** [Future] and [Bail] *)

Section Classes.

Variables s s' : STATUSES.
Variables af af' : fn → value → state → completion * state.
Hypothesis same_calls : ∀ f v σ, af f v σ = af' f v σ.

Lemma construct_ext res res' σ :
  (∀ c σ1, res c σ1 = res' c σ1) → construct s res σ = construct s' res' σ.
Proof.
  intros Hres. unfold construct. rewrite !allocate_eq. by rewrite Hres.
Qed.

Lemma onFullfill_ext h v σ :
  Handler_onFullfill af h v σ = Handler_onFullfill af' h v σ.
Proof. unfold Handler_onFullfill. destruct (onFulfill h); by rewrite ?same_calls. Qed.

Lemma onReject_ext h v σ :
  Handler_onReject af h v σ = Handler_onReject af' h v σ.
Proof. unfold Handler_onReject. destruct (onReject h); by rewrite ?same_calls. Qed.

Lemma deliver_ext p σ h : deliver af p σ h = deliver af' p σ h.
Proof.
  unfold deliver. destruct (heap σ !! p); [| done].
  by rewrite onFullfill_ext, onReject_ext.
Qed.

Lemma foldl_deliver_ext p hs : ∀ σ,
  foldl (deliver af p) σ hs = foldl (deliver af' p) σ hs.
Proof.
  induction hs as [| h hs IH]; intros σ; cbn [foldl]; [done |].
  by rewrite deliver_ext, IH.
Qed.

Lemma executeHandlers_ext p σ : executeHandlers af p σ = executeHandlers af' p σ.
Proof.
  unfold executeHandlers. destruct (heap σ !! p); [| done].
  destruct (decide _); [done |]. by rewrite foldl_deliver_ext.
Qed.

Lemma addHandler_ext p h σ : addHandler af p h σ = addHandler af' p h σ.
Proof. unfold addHandler. destruct (heap σ !! p); by rewrite ?executeHandlers_ext. Qed.

Lemma then_ext p f r σ : then_ s af p f r σ = then_ s' af' p f r σ.
Proof.
  unfold then_. apply construct_ext. intros c σ1. by rewrite addHandler_ext.
Qed.

Lemma catch_ext p r σ : catch s af p r σ = catch s' af' p r σ.
Proof. apply then_ext. Qed.

Lemma update_task_ext p v st σ :
  update_task s af p v st σ = update_task s' af' p v st σ.
Proof.
  unfold update_task. destruct (heap σ !! p); [| done].
  destruct (decide _); [| done].
  destruct v; cbn [isThenable]; by rewrite ?executeHandlers_ext, ?then_ext.
Qed.

End Classes.

Lemma call_ext s s' depth : ∀ f v σ, call s depth f v σ = call s' depth f v σ.
Proof.
  induction depth as [| d IH]; intros f v σ; destruct f; try done.
  cbn [call]. do 2 f_equal. by apply then_ext.
Qed.

Lemma run_task_ext s s' depth t σ : run_task s depth t σ = run_task s' depth t σ.
Proof.
  destruct t; cbn [run_task].
  - apply update_task_ext, call_ext.
  - by rewrite (call_ext s s').
Qed.

Lemma subscribe_ext s s' depth cb agg fs : ∀ σ,
  subscribe s depth cb agg σ fs = subscribe s' depth cb agg σ fs.
Proof.
  unfold subscribe.
  induction fs as [| f fs IH]; intros σ; cbn [foldl]; [done |].
  rewrite (then_ext s s' (call s depth) (call s' depth) (call_ext s s' depth)).
  destruct (then_ s' _ _ _ _ _) as [t σ1].
  rewrite (catch_ext s s' (call s depth) (call s' depth) (call_ext s s' depth)).
  apply IH.
Qed.

Lemma all_ext s s' depth fs σ : all s depth fs σ = all s' depth fs σ.
Proof. by rewrite !all_eq, (subscribe_ext s s'). Qed.

Lemma race_ext s s' depth fs σ : race s depth fs σ = race s' depth fs σ.
Proof. by rewrite !race_eq, (subscribe_ext s s'). Qed.

Lemma new_future_ext s s' body σ : new_future s body σ = new_future s' body σ.
Proof. by apply construct_ext. Qed.

Lemma tick_ext s s' depth σ : tick s depth σ = tick s' depth σ.
Proof.
  unfold tick. destruct (timers σ) as [| [due t] q]; [done |].
  by rewrite (run_task_ext s s').
Qed.

Lemma run_ext s s' depth n : ∀ σ, run s depth n σ = run s' depth n σ.
Proof.
  induction n as [| n IH]; intros σ; cbn [run]; [done |].
  rewrite (tick_ext s s'). destruct (tick s' depth σ); [apply IH | done].
Qed.

Lemma perform_ext s s' depth op σ : perform s depth op σ = perform s' depth op σ.
Proof.
  destruct op; cbn [perform].
  - by rewrite (new_future_ext s s').
  - by rewrite (then_ext s s' _ _ (call_ext s s' depth)).
  - by rewrite (catch_ext s s' _ _ (call_ext s s' depth)).
  - by rewrite (all_ext s s').
  - by rewrite (race_ext s s').
  - done.
Qed.

Lemma execute_ext s s' depth prog : ∀ σ,
  execute s depth prog σ = execute s' depth prog σ.
Proof.
  unfold execute.
  induction prog as [| a prog IH]; intros σ; cbn [foldl]; [done |].
  rewrite <- IH. f_equal. destruct a; cbn [act].
  - apply perform_ext.
  - apply run_ext.
Qed.



(** ** The examples of the specification, run on the model *)

(** Three inputs resolving to 1 after 10, to 2 after 5 and to 3 after 1
    time units: [all] fulfils with [3, 2, 1]. *)
Example all_of_three_timers :
  let '(p1, σ1) := new_future Unset [LaterResolve 10 (VNum 1)] empty_state in
  let '(p2, σ2) := new_future Unset [LaterResolve 5 (VNum 2)] σ1 in
  let '(p3, σ3) := new_future Unset [LaterResolve 1 (VNum 3)] σ2 in
  let '(agg, σ4) := all Unset 0 [p1; p2; p3] σ3 in
  let σ5 := run Unset 0 20 σ4 in
  timers σ5 = []
  ∧ settled_as σ5 agg FULFILLED (VArray 0)
  ∧ array_of 0 σ5 = [VNum 3; VNum 2; VNum 1].
Proof. by vm_compute. Qed.

(** Inputs resolving to 1, rejecting with ["err"] and resolving to 3:
    [all] rejects with ["err"], also after the third input has
    fulfilled. *)
Example all_with_a_rejection :
  let '(p1, σ1) := new_future Unset [LaterResolve 1 (VNum 1)] empty_state in
  let '(p2, σ2) := new_future Unset [LaterReject 2 (VStr "err")] σ1 in
  let '(p3, σ3) := new_future Unset [LaterResolve 30 (VNum 3)] σ2 in
  let '(agg, σ4) := all Unset 0 [p1; p2; p3] σ3 in
  let σ5 := run Unset 0 30 σ4 in
  timers σ5 = []
  ∧ settled_as σ5 p3 FULFILLED (VNum 3)
  ∧ settled_as σ5 agg REJECTED (VStr "err").
Proof. by vm_compute. Qed.

(** One input settling after 500 time units with ["fast"], another after
    1000 with ["slow"]: [race] fulfils with ["fast"]. *)
Example race_fast_and_slow :
  let '(p1, σ1) := new_future Unset [LaterResolve 1000 (VStr "slow")] empty_state in
  let '(p2, σ2) := new_future Unset [LaterResolve 500 (VStr "fast")] σ1 in
  let '(agg, σ3) := race Unset 0 [p1; p2] σ2 in
  let σ4 := run Unset 0 20 σ3 in
  timers σ4 = [] ∧ settled_as σ4 agg FULFILLED (VStr "fast").
Proof. by vm_compute. Qed.


(** * Further properties of the class *)

(** ** [then] with a rejection handler *)

Lemma relay_tasks_pure s v f r c :
  s = FULFILLED ∨ s = REJECTED →
  relay_tasks s v (mkHandler (FPure <$> f) (FPure <$> r) c)
  = TUpdate c (child_outcome s v f r).2 (child_outcome s v f r).1
    :: (if decide (s = REJECTED)
        then match r with None => [TUpdate c VTypeError REJECTED] | _ => [] end
        else []).
Proof.
  intros [-> | ->]; unfold relay_tasks, child_outcome; cbn.
  - destruct f as [g |]; cbn; [by destruct (g v) | done].
  - destruct r as [g |]; cbn; [by destruct (g v) | done].
Qed.

Lemma plain_for_pure s f r c : plain_for s (mkHandler (FPure <$> f) (FPure <$> r) c).
Proof.
  unfold plain_for. destruct (decide _); cbn; [by destruct f | by destruct r].
Qed.

(** X1.  [then(f, r)] on a pending parent that is then rejected with [e]:
    the child is rejected with whatever [r(e)] yields, be it returned or
    thrown; a normal return of the rejection handler does not fulfil
    the child.  [f] is not consulted. *)
Theorem then_on_rejection (status0 : STATUSES) (depth : nat) (σ : state)
    (p : fid) (w e x : value) (f : option (value → completion))
    (g : value → completion) :
  idle σ → heap σ !! p = Some (mkFuture PENDING w []) →
  isThenable e = false →
  g e = Return x ∨ g e = Throw x → isThenable x = false →
  let '(c, σ1) := then_ status0 (call status0 depth) p (FPure <$> f)
                    (Some (FPure g)) σ in
  ∀ n, 2 ≤ n →
    settled_as (run status0 depth n (reject p e σ1)) p REJECTED e
    ∧ settled_as (run status0 depth n (reject p e σ1)) c REJECTED x.
Proof.
  intros Hidle Hp He Hg Hx. pose proof (lookup_lt_Some _ _ _ Hp) as Hplt.
  destruct (then_delivery status0 depth σ p w (FPure <$> f) (Some (FPure g))
              (settleRejected e) Hidle Hp He
              (plain_for_pure REJECTED f (Some g) _)) as [Hc Hrun].
  destruct (then_ status0 (call status0 depth) p (FPure <$> f) (Some (FPure g)) σ)
    as [c σ1].
  cbn [fst snd settle kind payload] in Hc, Hrun. subst c.
  set (c := length (heap σ)) in *.
  change (Some (FPure g)) with (FPure <$> Some g) in Hrun.
  rewrite (relay_tasks_pure REJECTED e f (Some g) c) in Hrun by (by right).
  assert ((child_outcome REJECTED e f (Some g)) = (REJECTED, x)) as Ho.
  { unfold child_outcome; cbn. by destruct Hg as [-> | ->]. }
  rewrite Ho in Hrun. cbn [fst snd] in Hrun. rewrite decide_True in Hrun by done.
  set (σ3 := defer _ _) in Hrun.
  assert (heap σ3 = <[p := mkFuture REJECTED e []]> (heap σ)
                    ++ [mkFuture PENDING VUndefined []]) as Hh3
    by (unfold σ3; by rewrite defer_heap).
  assert (ready σ3 [TUpdate c x REJECTED] (timers σ)) as Hr3
    by (by apply ready_delivered).
  intros n Hn. replace n with (1 + (n - 1)) by lia. rewrite run_add, Hrun. split.
  - apply settled_as_run; [| done].
    apply (settled_as_lookup _ p (mkFuture REJECTED e [])).
    rewrite Hh3, lookup_app_l by (rewrite length_insert; lia).
    by apply list_lookup_insert_eq.
  - apply (child_update_plain status0 depth σ3 c VUndefined x REJECTED []
             (timers σ)); try done; [| by right | lia].
    rewrite Hh3, lookup_app_r by (rewrite length_insert; lia).
    by rewrite length_insert, Nat.sub_diag.
Qed.

Lemma then_on_rejection_witness :
  let '(c, σ1) := then_ Unset (call Unset 0) 0 None
                    (Some (FPure (fun _ => Return (VStr "recovered"))))
                    (pending_futures Unset 1) in
  ∀ n, 2 ≤ n →
    settled_as (run Unset 0 n (reject 0 (VStr "err") σ1)) 0 REJECTED (VStr "err")
    ∧ settled_as (run Unset 0 n (reject 0 (VStr "err") σ1)) c
        REJECTED (VStr "recovered").
Proof.
  apply (then_on_rejection Unset 0 (pending_futures Unset 1) 0 VUndefined
           (VStr "err") (VStr "recovered") None
           (fun _ => Return (VStr "recovered"))).
  - constructor.
  - reflexivity.
  - reflexivity.
  - by left.
  - reflexivity.
Defined.


(** ** Subscribing after settlement *)

Lemma child_outcome_kind s v f r :
  (child_outcome s v f r).1 = FULFILLED ∨ (child_outcome s v f r).1 = REJECTED.
Proof.
  unfold child_outcome. destruct (decide _).
  - destruct f as [g |]; [destruct (g v) |]; cbn; auto.
  - destruct r as [g |]; [destruct (g v) |]; cbn; auto.
Qed.

(** X2.  [then(f, r)] on a future that has already settled, with status [s]
    and value [v]: the handler is called during the call of [then], the
    child is still pending when [then] returns and settles in the next
    turn, exactly as it would have had the parent settled after the
    call. *)
Theorem then_after_settlement (status0 : STATUSES) (depth : nat) (σ : state)
    (p : fid) (s : STATUSES) (v : value) (f r : option (value → completion)) :
  idle σ → heap σ !! p = Some (mkFuture s v []) →
  s = FULFILLED ∨ s = REJECTED →
  isThenable (child_outcome s v f r).2 = false →
  let '(c, σ1) := then_ status0 (call status0 depth) p (FPure <$> f)
                    (FPure <$> r) σ in
  status_of c σ1 = Some PENDING
  ∧ trace σ1 = trace σ ++ [(p, mkHandler (FPure <$> f) (FPure <$> r) c)]
  ∧ handlers_of p σ1 = []
  ∧ ∀ n, 1 ≤ n →
      settled_as (run status0 depth n σ1) p s v
      ∧ settled_as (run status0 depth n σ1) c
          (child_outcome s v f r).1 (child_outcome s v f r).2.
Proof.
  intros Hidle Hp Hs Hx. pose proof (lookup_lt_Some _ _ _ Hp) as Hplt.
  rewrite (then_settled status0 depth p (FPure <$> f) (FPure <$> r) σ
             (mkFuture s v []) Hp)
    by (try apply plain_for_pure; try done; by destruct Hs as [-> | ->]).
  cbn [status val].
  set (c := length (heap σ)). set (h := mkHandler _ _ c).
  set (σ1 := defer _ _).
  assert (heap σ1 = heap σ ++ [mkFuture PENDING VUndefined []]) as Hh1
    by (unfold σ1; by rewrite defer_heap).
  assert (heap σ1 !! c = Some (mkFuture PENDING VUndefined [])) as Hc.
  { rewrite Hh1, lookup_app_r by (unfold c; lia). by rewrite Nat.sub_diag. }
  assert (heap σ1 !! p = Some (mkFuture s v [])) as Hp1.
  { by rewrite Hh1, lookup_app_l. }
  assert (ready σ1 (relay_tasks s v h) (timers σ)) as Hr1
    by (by apply ready_delivered).
  unfold h in Hr1. rewrite relay_tasks_pure in Hr1 by done.
  split; [unfold status_of; by rewrite Hc |].
  split; [unfold σ1; by rewrite defer_trace |].
  split; [unfold handlers_of; by rewrite Hp1 |].
  intros n Hn. split.
  - apply settled_as_run; [| by destruct Hs as [-> | ->]].
    by apply (settled_as_lookup _ p (mkFuture s v [])).
  - eapply (child_update_plain status0 depth σ1 c VUndefined); try done.
    apply child_outcome_kind.
Qed.

Lemma then_after_settlement_witness :
  let '(c, σ1) := then_ Unset (call Unset 0) 0
                    (Some (FPure (fun _ => Throw (VStr "thrown")))) None
                    (fulfilled_future Unset) in
  status_of c σ1 = Some PENDING
  ∧ trace σ1
    = trace (fulfilled_future Unset)
      ++ [(0, mkHandler (Some (FPure (fun _ => Throw (VStr "thrown")))) None c)]
  ∧ handlers_of 0 σ1 = []
  ∧ ∀ n, 1 ≤ n →
      settled_as (run Unset 0 n σ1) 0 FULFILLED (VNum 1)
      ∧ settled_as (run Unset 0 n σ1) c REJECTED (VStr "thrown").
Proof.
  apply (then_after_settlement Unset 0 (fulfilled_future Unset) 0 FULFILLED
           (VNum 1) (Some (fun _ => Throw (VStr "thrown"))) None).
  - constructor.
  - reflexivity.
  - by left.
  - reflexivity.
Defined.


(** ** Chains of [then] *)

Lemma chain_cascade s0 depth gs : ∀ cs σ p s v J J' q,
  linked (heap σ) p (map (fmap FPure) gs) cs →
  s = FULFILLED ∨ s = REJECTED → isThenable v = false →
  Forall (fun o => isThenable o.2 = false) (chain_outcomes s v gs) →
  ready σ (J ++ TUpdate p v s :: J') q →
  Forall (dead (heap σ)) J →
  Forall (fun t => ∃ v' s', t = TUpdate p v' s') J' →
  ∃ N, N ≤ length J + length J' + 2 * length gs + 1
       ∧ settled_as (run s0 depth N σ) p s v
       ∧ Forall2 (fun c o => settled_as (run s0 depth N σ) c o.1 o.2)
           cs (chain_outcomes s v gs).
Proof.
  induction gs as [| g gs IH]; intros [| c cs] σ p s v J J' q Hl Hs Hv Ho Hr HJ HJ';
    simpl in Hl; try done.
  - destruct Hl as [w Hp]. exists (length J + 1). split; [lia |].
    rewrite run_add, (run_dead _ _ _ _ _ _ Hr HJ).
    pose proof (ready_later _ _ _ Hr) as Hq.
    rewrite (run_S _ _ 0 _ _
               (tick_settle _ _ _ p v s J' q _ (ready_popped _ _ _ Hq)
                  Hp eq_refl Hv ltac:(by destruct Hs as [-> | ->])
                  ltac:(by constructor))).
    split; [| constructor]. cbn [run handlers map concat defer log_all].
    apply (settled_as_lookup _ p (mkFuture s v [])); simpl.
    apply list_lookup_insert_eq. by eapply lookup_lt_Some.
  - destruct Hl as ([w Hp] & Hpc & Hl).
    pose proof (ready_later _ _ _ Hr) as Hq.
    cbn [chain_outcomes] in Ho |- *. apply Forall_cons in Ho as [Ho1 Ho].
    set (o := child_outcome s v g None) in *.
    set (h := mkHandler (FPure <$> g) None c) in *.
    set (σ1 := defer (concat (map (relay_tasks s v) [h]))
                 (log_all p [h]
                    (with_heap (<[p := mkFuture s v []]> (heap σ))
                       (popped σ J' q)))).
    assert (tick s0 depth (popped σ (TUpdate p v s :: J') q) = Some σ1) as Ht.
    { apply (tick_settle _ _ _ p v s J' q _ (ready_popped _ _ _ Hq) Hp);
        try done; [by destruct Hs as [-> | ->] |].
      constructor; [| constructor]. apply (plain_for_pure s g None c). }
    assert (heap σ1 = <[p := mkFuture s v []]> (heap σ)) as Hh1.
    { unfold σ1. by rewrite defer_heap. }
    assert (heap σ1 !! p = Some (mkFuture s v [])) as Hp1.
    { rewrite Hh1. apply list_lookup_insert_eq. by eapply lookup_lt_Some. }
    pose proof (relay_tasks_pure s v g None c Hs) as Hrel.
    change (FPure <$> None) with (@None fn) in Hrel. fold h o in Hrel.
    destruct (IH cs σ1 c o.1 o.2 J'
                (if decide (s = REJECTED) then [TUpdate c VTypeError REJECTED]
                 else []) q)
      as (N & HN & Hc & Hcs).
    + rewrite Hh1. by apply linked_insert_lt.
    + apply child_outcome_kind.
    + done.
    + done.
    + replace (J' ++ TUpdate c o.2 o.1 ::
                 (if decide (s = REJECTED) then [TUpdate c VTypeError REJECTED]
                  else []))
        with (J' ++ concat (map (relay_tasks s v) [h]))
        by (cbn [map concat]; by rewrite app_nil_r, Hrel).
      by apply ready_effects.
    + eapply List.Forall_impl; [| exact HJ']. intros t (v' & s' & ->); simpl.
      eexists; split; [exact Hp1 |]. simpl. by destruct Hs as [-> | ->].
    + destruct (decide (s = REJECTED)); [| constructor].
      constructor; [by eauto | constructor].
    + exists (length J + (1 + N)). split.
      { destruct (decide (s = REJECTED)); simpl in *; lia. }
      rewrite run_add, (run_dead _ _ _ _ _ _ Hr HJ), run_add.
      rewrite (run_S _ _ 0 _ _ Ht). cbn [run].
      split; [| by constructor].
      apply settled_as_run; [| by destruct Hs as [-> | ->]].
      by apply (settled_as_lookup _ p (mkFuture s v [])).
Qed.

Lemma chain_outcomes_kind s v gs :
  Forall (fun o => o.1 ≠ PENDING) (chain_outcomes s v gs).
Proof.
  revert s v. induction gs as [| g gs IH]; intros s v; cbn [chain_outcomes];
    constructor; [| apply IH].
  by destruct (child_outcome_kind s v g None) as [-> | ->].
Qed.

Lemma settled_all_run s0 depth n σ cs (os : list (STATUSES * value)) :
  Forall2 (fun c o => settled_as σ c o.1 o.2) cs os →
  Forall (fun o => o.1 ≠ PENDING) os →
  Forall2 (fun c o => settled_as (run s0 depth n σ) c o.1 o.2) cs os.
Proof.
  induction 1 as [| c o cs os Hc _ IH]; intros Hos; [constructor |].
  apply Forall_cons in Hos as [Ho Hos].
  constructor; [by apply settled_as_run | by apply IH].
Qed.

(** X3.  [p.then(g1).then(g2)...] without rejection handlers: when [p]
    settles, every child takes what its callback makes of the outcome of
    the future before it.  A fulfilment runs through the callbacks in
    turn; once a callback throws, or when [p] itself is rejected, the
    reason reaches every later child unchanged and no further callback
    is called. *)
Theorem then_chain_composes (status0 : STATUSES) (depth : nat) (σ : state)
    (p : fid) (w : value) (gs : list (option (value → completion)))
    (c : settle_call) :
  idle σ → heap σ !! p = Some (mkFuture PENDING w []) →
  isThenable (payload c) = false →
  Forall (fun o => isThenable o.2 = false)
    (chain_outcomes (kind c) (payload c) gs) →
  let '(cs, σ1) := then_chain status0 depth p (map (fmap FPure) gs) σ in
  ∀ n, 2 * length gs + 1 ≤ n →
    settled_as (run status0 depth n (settle p σ1 c)) p (kind c) (payload c)
    ∧ Forall2 (fun x o =>
                 settled_as (run status0 depth n (settle p σ1 c)) x o.1 o.2)
        cs (chain_outcomes (kind c) (payload c) gs).
Proof.
  intros Hidle Hp Hv Ho.
  destruct (then_chain_linked status0 depth (map (fmap FPure) gs) σ p w Hp)
    as (cs & σ1 & -> & Hl & Hq & Hck & _ & _).
  intros n Hn.
  destruct (chain_cascade status0 depth gs cs (settle p σ1 c) p
              (kind c) (payload c) [] [] (timers σ1))
    as (N & HN & Hps & Hcs); try done.
  { by rewrite settle_heap. }
  { by destruct c; [left | right]. }
  { rewrite settle_defer. apply (ready_setTimeout σ1 [] (timers σ1)).
    split; [done |]. unfold idle in Hidle. by rewrite Hq, Hck. }
  simpl in HN. replace n with (N + (n - N)) by lia. rewrite run_add.
  assert (kind c ≠ PENDING) as Hk by (by destruct c).
  split; [by apply settled_as_run |].
  apply settled_all_run; [done |]. apply chain_outcomes_kind.
Qed.


Lemma then_chain_composes_witness :
  let succ := fun v => match v with VNum z => Return (VNum (z + 1)) | _ => Throw v end in
  let boom := fun _ : value => Throw (VStr "boom") in
  let '(cs, σ1) := then_chain Unset 0 0
                     (map (fmap FPure) [Some succ; Some boom; Some succ])
                     (pending_futures Unset 1) in
  ∀ n, 7 ≤ n →
    settled_as (run Unset 0 n (resolve 0 (VNum 1) σ1)) 0 FULFILLED (VNum 1)
    ∧ Forall2 (fun x o =>
                 settled_as (run Unset 0 n (resolve 0 (VNum 1) σ1)) x o.1 o.2)
        cs [(FULFILLED, VNum 2); (REJECTED, VStr "boom"); (REJECTED, VStr "boom")].
Proof.
  apply (then_chain_composes Unset 0 (pending_futures Unset 1) 0 VUndefined
           [Some (fun v => match v with
                           | VNum z => Return (VNum (z + 1))
                           | _ => Throw v
                           end);
            Some (fun _ => Throw (VStr "boom"));
            Some (fun v => match v with
                           | VNum z => Return (VNum (z + 1))
                           | _ => Throw v
                           end)]
           (settleFulfilled (VNum 1))).
  - constructor.
  - reflexivity.
  - reflexivity.
  - repeat constructor.
Defined.


(** ** Several subscriptions to one future *)

Lemma then_each_spec s0 depth p cbs : ∀ σ w hs0,
  heap σ !! p = Some (mkFuture PENDING w hs0) →
  ∃ cs σ', then_each s0 depth p cbs σ = (cs, σ')
    ∧ length cs = length cbs
    ∧ heap σ' !! p = Some (mkFuture PENDING w (hs0 ++ handlers_for cbs cs))
    ∧ trace σ' = trace σ ∧ timers σ' = timers σ ∧ clock σ' = clock σ.
Proof.
  induction cbs as [| [f r] cbs IH]; intros σ w hs0 Hp; cbn [then_each].
  - exists [], σ. unfold handlers_for. cbn. by rewrite app_nil_r.
  - pose proof (lookup_lt_Some _ _ _ Hp) as Hlt.
    rewrite (then_pending _ _ _ _ _ _ _ Hp eq_refl). cbn [status val handlers].
    set (c := length (heap σ)). set (σ1 := mkState _ _ _ _ _).
    assert (heap σ1 !! p
            = Some (mkFuture PENDING w (hs0 ++ [mkHandler f r c]))) as Hp1.
    { unfold σ1; cbn [heap]. rewrite lookup_app_l by (rewrite length_insert; lia).
      by apply list_lookup_insert_eq. }
    destruct (IH σ1 w _ Hp1) as (cs & σ' & -> & Hlen & Hp' & Ht & Hq & Hc).
    exists (c :: cs), σ'. split; [done |]. split; [by cbn; rewrite Hlen |].
    split; [| done].
    rewrite Hp'. unfold handlers_for. cbn [zip_with fst snd].
    by rewrite <- app_assoc.
Qed.

Lemma plain_pair_for s cb c : plain_pair cb → plain_for s (mkHandler cb.1 cb.2 c).
Proof. intros [H1 H2]. unfold plain_for. by destruct (decide _). Qed.

(** X4.  Handlers registered on a pending future by several calls of [then]
    are not called at registration.  In the turn in which the future
    settles they are called in the order of registration, each once, and
    the queue is empty afterwards.  (The callbacks are ones that do not
    call [then] themselves.) *)
Theorem handlers_run_in_registration_order (status0 : STATUSES) (depth : nat)
    (σ : state) (p : fid) (w : value) (cbs : list (option fn * option fn))
    (c : settle_call) :
  idle σ → heap σ !! p = Some (mkFuture PENDING w []) →
  isThenable (payload c) = false → Forall plain_pair cbs →
  let '(cs, σ1) := then_each status0 depth p cbs σ in
  trace σ1 = trace σ
  ∧ handlers_of p σ1 = handlers_for cbs cs
  ∧ trace (run status0 depth 1 (settle p σ1 c))
    = trace σ ++ map (pair p) (handlers_for cbs cs)
  ∧ handlers_of p (run status0 depth 1 (settle p σ1 c)) = []
  ∧ settled_as (run status0 depth 1 (settle p σ1 c)) p (kind c) (payload c).
Proof.
  intros Hidle Hp Hv Hpl.
  destruct (then_each_spec status0 depth p cbs σ w [] Hp)
    as (cs & σ1 & -> & Hlen & Hp1 & Ht & Hq & Hc).
  cbn [app] in Hp1. set (hs := handlers_for cbs cs) in *.
  split; [done |]. split; [unfold handlers_of; by rewrite Hp1 |].
  assert (ready (settle p σ1 c) [TUpdate p (payload c) (kind c)] (timers σ1)) as Hr.
  { rewrite settle_defer. apply (ready_setTimeout σ1 [] (timers σ1)).
    split; [done |]. unfold idle in Hidle. by rewrite Hq, Hc. }
  assert (Forall (plain_for (kind c)) hs) as Hhs.
  { unfold hs, handlers_for. clear -Hpl. revert cs.
    induction Hpl as [| cb cbs Hcb _ IH]; intros [| x cs]; cbn; try constructor.
    - by apply plain_pair_for.
    - apply IH. }
  rewrite (run_S _ _ 0 _ _
             (tick_settle status0 depth _ p (payload c) (kind c) [] (timers σ1)
                (mkFuture PENDING w hs) Hr
                ltac:(by rewrite settle_heap) eq_refl Hv
                ltac:(by destruct c) Hhs)).
  cbn [run handlers]. set (σ2 := defer _ _).
  assert (p < length (heap σ1)) as Hlt by (by eapply lookup_lt_Some).
  assert (heap σ2 !! p = Some (mkFuture (kind c) (payload c) [])) as Hp2.
  { unfold σ2. rewrite defer_heap. cbn [log_all with_heap heap].
    rewrite settle_heap. by apply list_lookup_insert_eq. }
  split.
  { unfold σ2. rewrite defer_trace. cbn [log_all with_heap trace popped].
    rewrite <- Ht. f_equal. by destruct c. }
  split; [unfold handlers_of; by rewrite Hp2 |].
  by apply (settled_as_lookup _ p (mkFuture (kind c) (payload c) [])).
Qed.


Lemma handlers_run_in_registration_order_witness :
  let cbs := [(Some (FPure Return), None); (None, Some (FPure Return));
              (Some (FResolve 1), Some (FReject 1))] in
  let '(cs, σ1) := then_each Unset 0 0 cbs (pending_futures Unset 2) in
  trace σ1 = trace (pending_futures Unset 2)
  ∧ handlers_of 0 σ1 = handlers_for cbs cs
  ∧ trace (run Unset 0 1 (resolve 0 (VNum 5) σ1))
    = trace (pending_futures Unset 2) ++ map (pair 0) (handlers_for cbs cs)
  ∧ handlers_of 0 (run Unset 0 1 (resolve 0 (VNum 5) σ1)) = []
  ∧ settled_as (run Unset 0 1 (resolve 0 (VNum 5) σ1)) 0 FULFILLED (VNum 5).
Proof.
  apply (handlers_run_in_registration_order Unset 0 (pending_futures Unset 2) 0
           VUndefined
           [(Some (FPure Return), None); (None, Some (FPure Return));
            (Some (FResolve 1), Some (FReject 1))]
           (settleFulfilled (VNum 5))).
  - constructor.
  - reflexivity.
  - reflexivity.
  - repeat constructor.
Defined.



(** ** Settlement is final *)

(** X6.  Once a future is [FULFILLED] or [REJECTED], nothing a program does
    (constructing futures, [then], [catch], [all], [race], further calls
    of [resolve] or [reject] on any future, turns of the event loop)
    changes its status or its value. *)
Theorem settled_is_final (status0 : STATUSES) (depth : nat)
    (prog : list activity) (σ : state) (p : fid) (s : STATUSES) (v : value) :
  settled_as σ p s v → s = FULFILLED ∨ s = REJECTED →
  settled_as (execute status0 depth prog σ) p s v.
Proof.
  intros Hp Hs. assert (s ≠ PENDING) as Hne by (by destruct Hs as [-> | ->]).
  revert σ Hp. unfold execute.
  induction prog as [| a prog IH]; intros σ Hp; cbn [foldl]; [done |].
  apply IH. destruct Hp as [Hst Hval].
  unfold settled_as, status_of, value_of in *.
  destruct (heap σ !! p) as [o |] eqn:Ho; [| done].
  cbn in Hst, Hval. injection Hst as Hst. injection Hval as Hval.
  assert (fixed σ (act status0 depth σ a)) as Hfix.
  { destruct a as [op |]; cbn [act];
      [apply quiet_fixed, quiet_perform | apply fixed_run]. }
  destruct (Hfix p o Ho ltac:(congruence)) as (o' & -> & Hs' & Hv').
  cbn. by rewrite Hs', Hv', Hst, Hval.
Qed.

Lemma settled_is_final_witness :
  settled_as
    (execute Unset 0
       [Call (OpSettle 0 (settleRejected (VStr "late"))); Turn;
        Call (OpThen 0 (Some (FResolve 0)) (Some (FReject 0))); Turn; Turn;
        Call (OpRace [0]); Turn; Turn; Turn]
       (fulfilled_future Unset))
    0 FULFILLED (VNum 1).
Proof.
  apply (settled_is_final Unset 0 _ (fulfilled_future Unset) 0 FULFILLED (VNum 1)).
  - split; reflexivity.
  - by left.
Defined.

(** ** Values are never futures *)

Lemma plain_quiet σ σ' : no_future_values σ → quiet σ σ' → no_future_values σ'.
Proof.
  intros Hσ [_ Hold Hnew _] p o' Hp'.
  destruct (heap σ !! p) as [o |] eqn:Hp.
  - destruct (Hold p o Hp) as (o2 & Hp2 & _ & Hv).
    assert (o2 = o') as -> by congruence. rewrite Hv. by eapply Hσ.
  - by destruct (Hnew p o' Hp Hp') as [_ ->].
Qed.

Lemma plain_update_task s0 depth p v s σ :
  no_future_values σ → no_future_values (update_task s0 (call s0 depth) p v s σ).
Proof.
  intros Hσ. unfold update_task.
  destruct (heap σ !! p) as [o |] eqn:Hp; [| done].
  case_decide as Hs; [| done].
  destruct (isThenable v) eqn:Hv.
  - destruct v; try done.
    eapply plain_quiet; [exact Hσ |]. apply quiet_then, quiet_call.
  - eapply plain_quiet; [| apply quiet_executeHandlers, quiet_call].
    intros q oq Hq. simpl in Hq.
    destruct (decide (p = q)) as [<- | Hne].
    + rewrite list_lookup_insert_eq in Hq by (by eapply lookup_lt_Some).
      by injection Hq as <-.
    + rewrite list_lookup_insert_ne in Hq by done. by eapply Hσ.
Qed.

Lemma plain_run s0 depth n : ∀ σ,
  no_future_values σ → no_future_values (run s0 depth n σ).
Proof.
  induction n as [| n IH]; intros σ Hσ; cbn [run]; [done |].
  unfold tick. destruct (timers σ) as [| [due t] q]; [done |].
  apply IH. destruct t as [p v s | f v]; cbn [run_task].
  - by apply plain_update_task.
  - eapply plain_quiet; [| apply quiet_call]. done.
Qed.

(** X7.  No future ever holds a future as its value or reason, whatever is
    passed to [resolve] and [reject] and whatever callbacks return or
    throw: in every state a program can reach from the empty heap, the
    [value] of every object is not a future. *)
Theorem values_are_never_futures (status0 : STATUSES) (depth : nat)
    (prog : list activity) :
  no_future_values (execute status0 depth prog empty_state).
Proof.
  assert (no_future_values empty_state) as H0 by (intros p o Hp; done).
  revert H0. generalize empty_state. unfold execute.
  induction prog as [| a prog IH]; intros σ Hσ; cbn [foldl]; [done |].
  apply IH. destruct a as [op |]; cbn [act].
  - eapply plain_quiet; [exact Hσ | apply quiet_perform].
  - by apply plain_run.
Qed.

(** ** Settling with a future *)

(** X8.  [resolve(q)] and [reject(q)] with a future [q] do the same thing:
    the future takes the outcome of [q], at once if [q] has settled, and
    when [q] settles otherwise.  A future rejected with a future that
    fulfils is fulfilled. *)
Theorem settling_with_a_future_adopts (status0 : STATUSES) (depth : nat)
    (σ : state) (p q : fid) (wp : value) (c : settle_call) :
  idle σ → heap σ !! p = Some (mkFuture PENDING wp []) →
  payload c = VFuture q →
  (∀ s v n,
     heap σ !! q = Some (mkFuture s v []) →
     s = FULFILLED ∨ s = REJECTED → isThenable v = false → 2 ≤ n →
     settled_as (run status0 depth n (settle p σ c)) p s v)
  ∧ (∀ wq k n,
       heap σ !! q = Some (mkFuture PENDING wq []) → q ≠ p →
       isThenable (payload k) = false → 2 ≤ n →
       status_of p (run status0 depth 1 (settle p σ c)) = Some PENDING
       ∧ settled_as
           (run status0 depth n (settle q (run status0 depth 1 (settle p σ c)) k))
           p (kind k) (payload k)).
Proof.
  intros Hidle Hp Hc.
  assert (ready (settle p σ c) [TUpdate p (VFuture q) (kind c)] (timers σ)) as Hr.
  { rewrite settle_defer, Hc. apply (ready_setTimeout σ [] (timers σ)).
    by apply idle_ready. }
  assert (heap (settle p σ c) !! p = Some (mkFuture PENDING wp [])) as Hp'
    by (by rewrite settle_heap).
  split.
  - intros s v n Hq Hs Hv Hn.
    apply (child_adopts_settled status0 depth _ p wp q (kind c) s v (timers σ));
      try done.
    by rewrite settle_heap.
  - intros wq k n Hq Hne Hv Hn. split.
    + rewrite (run_S _ _ 0 _ _
                 (tick_adopt_pending status0 depth _ p q (kind c) [] (timers σ)
                    _ _ Hr Hp' eq_refl
                    ltac:(by rewrite settle_heap; exact Hq) eq_refl)).
      cbn [run]. unfold status_of. cbn [with_heap heap].
      rewrite settle_heap.
      rewrite lookup_app_l
        by (rewrite length_insert; by eapply lookup_lt_Some).
      rewrite list_lookup_insert_ne by done. by rewrite Hp.
    + apply (child_adopts_pending status0 depth _ p wp q wq (kind c) k (timers σ));
        try done.
      by rewrite settle_heap.
Qed.

Lemma settling_with_a_future_adopts_witness :
  let σ := (new_future Unset [] (fulfilled_future Unset)).2 in
  let c := settleRejected (VFuture 0) in
  (∀ s v n,
     heap σ !! 0 = Some (mkFuture s v []) →
     s = FULFILLED ∨ s = REJECTED → isThenable v = false → 2 ≤ n →
     settled_as (run Unset 0 n (settle 1 σ c)) 1 s v)
  ∧ (∀ wq k n,
       heap σ !! 0 = Some (mkFuture PENDING wq []) → 0 ≠ 1 →
       isThenable (payload k) = false → 2 ≤ n →
       status_of 1 (run Unset 0 1 (settle 1 σ c)) = Some PENDING
       ∧ settled_as
           (run Unset 0 n (settle 0 (run Unset 0 1 (settle 1 σ c)) k))
           1 (kind k) (payload k)).
Proof.
  apply (settling_with_a_future_adopts Unset 0
           (new_future Unset [] (fulfilled_future Unset)).2 1 0 VUndefined
           (settleRejected (VFuture 0))).
  - constructor.
  - reflexivity.
  - reflexivity.
Defined.

(** X9.  A future resolved (or rejected) with itself subscribes to itself
    and stays pending: nothing is left with the host that could settle
    it. *)
Theorem self_resolution_never_settles (status0 : STATUSES) (depth : nat)
    (σ : state) (p : fid) (wp : value) (c : settle_call) (n : nat) :
  timers σ = [] → heap σ !! p = Some (mkFuture PENDING wp []) →
  payload c = VFuture p → 1 ≤ n →
  status_of p (run status0 depth n (settle p σ c)) = Some PENDING
  ∧ timers (run status0 depth n (settle p σ c)) = []
  ∧ handlers_of p (run status0 depth n (settle p σ c))
    = [mkHandler (Some (FResolve p)) (Some (FReject p)) (length (heap σ))].
Proof.
  intros Hq Hp Hc Hn.
  pose proof (ready_settle_idle σ p c Hq) as Hr. rewrite Hc in Hr.
  assert (heap (settle p σ c) !! p = Some (mkFuture PENDING wp [])) as Hp'
    by (by rewrite settle_heap).
  destruct n as [| n]; [lia |].
  rewrite (run_S _ _ n _ _
             (tick_adopt_pending status0 depth _ p p (kind c) [] []
                _ _ Hr Hp' eq_refl Hp' eq_refl)).
  rewrite run_idle by done.
  assert (p < length (heap σ)) as Hlt by (by eapply lookup_lt_Some).
  rewrite settle_heap. cbn [status val handlers app].
  set (h := <[p := _]> (heap σ) ++ _).
  assert (h !! p
          = Some (mkFuture PENDING wp
                    [mkHandler (Some (FResolve p)) (Some (FReject p))
                               (length (heap σ))])) as Hh.
  { unfold h. rewrite lookup_app_l by (by rewrite length_insert).
    by rewrite list_lookup_insert_eq. }
  unfold status_of, handlers_of. cbn [with_heap heap timers popped].
  by rewrite Hh.
Qed.

Lemma self_resolution_never_settles_witness :
  status_of 0 (run Unset 0 3 (resolve 0 (VFuture 0) (pending_futures Unset 1)))
  = Some PENDING
  ∧ timers (run Unset 0 3 (resolve 0 (VFuture 0) (pending_futures Unset 1))) = []
  ∧ handlers_of 0 (run Unset 0 3 (resolve 0 (VFuture 0) (pending_futures Unset 1)))
    = [mkHandler (Some (FResolve 0)) (Some (FReject 0)) 1].
Proof.
  apply (self_resolution_never_settles Unset 0 (pending_futures Unset 1) 0
           VUndefined (settleFulfilled (VFuture 0)) 3).
  - reflexivity.
  - reflexivity.
  - reflexivity.
  - lia.
Defined.


(** ** The resolver *)

Lemma Forall_enqueue (P : nat * task → Prop) due t q :
  P (due, t) → Forall P q → Forall P (enqueue due t q).
Proof.
  intros Ht. induction 1 as [| [d t'] q Hd Hq IH]; cbn [enqueue].
  - by constructor.
  - destruct (d <=? due); constructor; try done. by constructor.
Qed.

Lemma enqueue_behind_now clock d t zs q :
  enqueue (clock + d) t (map (pair clock) zs ++ q)
  = map (pair clock) zs ++ enqueue (clock + d) t q.
Proof.
  induction zs as [| z zs IH]; cbn [map app enqueue]; [done |].
  rewrite (proj2 (Nat.leb_le clock (clock + d))) by lia. by rewrite IH.
Qed.

Lemma ready_setTimeout_later σ zs q t d :
  ready σ zs q →
  ready (setTimeout t (S d) σ) zs (enqueue (clock σ + S d) t q).
Proof.
  intros [Hq Hl]. split; cbn [setTimeout timers clock].
  - by rewrite Hq, enqueue_behind_now.
  - apply Forall_enqueue; [cbn; lia | done].
Qed.

Lemma construct_after s0 resolver σ :
  construct s0 resolver σ
  = (length (heap σ),
     after_resolver (length (heap σ))
       (resolver (length (heap σ))
          (with_heap (heap σ ++ [mkFuture PENDING VUndefined []]) σ))).
Proof.
  unfold construct. rewrite allocate_eq. unfold with_heap.
  by destruct (resolver _ _) as [[r | err] σ2].
Qed.

Lemma resolver_ready this body : ∀ σ zs q,
  ready σ zs q →
  ∃ q', ready (after_resolver this (run_resolver body this σ))
          (zs ++ resolver_now this body) q'
        ∧ heap (after_resolver this (run_resolver body this σ)) = heap σ.
Proof.
  induction body as [| st body IH]; intros σ zs q Hr.
  - exists q. cbn. by rewrite app_nil_r.
  - destruct st as [v | e | d v | d e | e]; cbn [run_resolver resolver_now].
    + destruct (IH (resolve this v σ) (zs ++ [TUpdate this v FULFILLED]) q)
        as (q' & Hr' & Hh); [by apply ready_setTimeout |].
      exists q'. by rewrite <- app_assoc in Hr'.
    + destruct (IH (reject this e σ) (zs ++ [TUpdate this e REJECTED]) q)
        as (q' & Hr' & Hh); [by apply ready_setTimeout |].
      exists q'. by rewrite <- app_assoc in Hr'.
    + destruct d as [| d].
      * destruct (IH (setTimeout (TApply (FResolve this) v) 0 σ)
                    (zs ++ [TApply (FResolve this) v]) q)
          as (q' & Hr' & Hh); [by apply ready_setTimeout |].
        exists q'. by rewrite <- app_assoc in Hr'.
      * destruct (IH (setTimeout (TApply (FResolve this) v) (S d) σ) zs _
                    (ready_setTimeout_later σ zs q _ d Hr))
          as (q' & Hr' & Hh).
        by exists q'.
    + destruct d as [| d].
      * destruct (IH (setTimeout (TApply (FReject this) e) 0 σ)
                    (zs ++ [TApply (FReject this) e]) q)
          as (q' & Hr' & Hh); [by apply ready_setTimeout |].
        exists q'. by rewrite <- app_assoc in Hr'.
      * destruct (IH (setTimeout (TApply (FReject this) e) (S d) σ) zs _
                    (ready_setTimeout_later σ zs q _ d Hr))
          as (q' & Hr' & Hh).
        by exists q'.
    + exists q. split; [| done]. cbn [after_resolver].
      by apply ready_setTimeout.
Qed.

Lemma first_sync_now this body c :
  first_sync body = Some c →
  ∃ J J', resolver_now this body = J ++ TUpdate this (payload c) (kind c) :: J'
          ∧ Forall (capability_call this) J ∧ length J < length body.
Proof.
  induction body as [| st body IH]; [done |].
  destruct st as [v | e | d v | d e | e]; cbn [first_sync resolver_now length].
  - intros [= <-]. exists [], (resolver_now this body). cbn. split; [done |].
    split; [constructor | lia].
  - intros [= <-]. exists [], (resolver_now this body). cbn. split; [done |].
    split; [constructor | lia].
  - intros Hc. destruct (IH Hc) as (J & J' & -> & HJ & Hlen). destruct d as [| d].
    + exists (TApply (FResolve this) v :: J), J'. split; [done |].
      split; [by constructor | cbn; lia].
    + exists J, J'. split; [done |]. split; [done | lia].
  - intros Hc. destruct (IH Hc) as (J & J' & -> & HJ & Hlen). destruct d as [| d].
    + exists (TApply (FReject this) e :: J), J'. split; [done |].
      split; [by constructor | cbn; lia].
    + exists J, J'. split; [done |]. split; [done | lia].
  - intros [= <-]. exists [], []. cbn. split; [done |]. split; [constructor | lia].
Qed.

(** Timer callbacks that call a capability only queue an update behind
    the one that is already waiting. *)
Lemma capability_phase s0 depth this v s w q J : ∀ σ J',
  ready σ (J ++ TUpdate this v s :: J') q →
  Forall (capability_call this) J →
  heap σ !! this = Some (mkFuture PENDING w []) →
  isThenable v = false → s = FULFILLED ∨ s = REJECTED →
  settled_as (run s0 depth (length J + 1) σ) this s v.
Proof.
  induction J as [| t J IH]; intros σ J' Hr HJ Hp Hv Hs.
  - by apply (child_update_plain s0 depth σ this w v s J' q).
  - apply Forall_cons in HJ as [Ht HJ]. cbn [app length Nat.add] in Hr |- *.
    pose proof (ready_later _ _ _ Hr) as Hq.
    rewrite (run_S _ _ _ _ _ (tick_ready _ _ _ _ _ _ Hr)).
    destruct t as [| f x]; [done |].
    destruct f as [p | p | | | | |]; try done; cbn in Ht; subst p;
      cbn [run_task]; rewrite ?call_FResolve, ?call_FReject; cbn [snd].
    + apply (IH _ (J' ++ [TUpdate this x FULFILLED])); try done.
      rewrite app_comm_cons, app_assoc.
      by apply ready_setTimeout, ready_popped.
    + apply (IH _ (J' ++ [TUpdate this x REJECTED])); try done.
      rewrite app_comm_cons, app_assoc.
      by apply ready_setTimeout, ready_popped.
Qed.

(** X10.  [new Future(resolver)]: the first thing the resolver does to its
    future before it returns (a call of [resolve], a call of [reject]
    or a throw) decides the outcome, whatever it does afterwards
    and whatever timers it has set up; a throw after a call of
    [resolve] is swallowed.  The future is pending when the constructor
    returns. *)
Theorem resolver_first_call_decides (status0 : STATUSES) (depth : nat)
    (σ : state) (body : list stmt) (c : settle_call) :
  idle σ → first_sync body = Some c → isThenable (payload c) = false →
  let '(p, σ1) := new_future status0 body σ in
  p = length (heap σ)
  ∧ status_of p σ1 = Some PENDING
  ∧ ∀ n, length body ≤ n →
      settled_as (run status0 depth n σ1) p (kind c) (payload c).
Proof.
  intros Hidle Hc Hv. unfold new_future. rewrite construct_after.
  set (p := length (heap σ)).
  set (σ0 := with_heap (heap σ ++ [mkFuture PENDING VUndefined []]) σ).
  destruct (resolver_ready p body σ0 [] (timers σ)) as (q' & Hr & Hh).
  { by split. }
  set (σ1 := after_resolver p (run_resolver body p σ0)) in *.
  assert (heap σ1 !! p = Some (mkFuture PENDING VUndefined [])) as Hp.
  { rewrite Hh. unfold σ0; cbn [with_heap heap].
    rewrite lookup_app_r by (unfold p; lia). by rewrite Nat.sub_diag. }
  split; [done |]. split; [unfold status_of; by rewrite Hp |].
  destruct (first_sync_now p body c Hc) as (J & J' & HJ & Hcap & Hlen).
  cbn [app] in Hr. rewrite HJ in Hr.
  intros n Hn. replace n with ((length J + 1) + (n - (length J + 1))) by lia.
  rewrite run_add. apply settled_as_run; [| by destruct c].
  apply (capability_phase status0 depth p _ _ VUndefined q' J σ1 J'); try done.
  by destruct c; [left | right].
Qed.

Lemma resolver_first_call_decides_witness :
  let body := [LaterReject 0 (VStr "timer"); LaterResolve 3 (VNum 0);
               CallResolve (VNum 1); CallReject (VStr "no");
               ThrowNow (VStr "thrown")] in
  let '(p, σ1) := new_future Unset body empty_state in
  p = 0
  ∧ status_of p σ1 = Some PENDING
  ∧ ∀ n, 5 ≤ n → settled_as (run Unset 0 n σ1) p FULFILLED (VNum 1).
Proof.
  apply (resolver_first_call_decides Unset 0 empty_state
           [LaterReject 0 (VStr "timer"); LaterResolve 3 (VNum 0);
            CallResolve (VNum 1); CallReject (VStr "no");
            ThrowNow (VStr "thrown")]
           (settleFulfilled (VNum 1))).
  - constructor.
  - reflexivity.
  - reflexivity.
Defined.


(** ** A future is settled only through its capabilities *)

Lemma unchanged_refl a σ : unchanged a σ σ.
Proof. intros o Ho. eauto. Qed.

Lemma unchanged_trans a σ1 σ2 σ3 :
  unchanged a σ1 σ2 → unchanged a σ2 σ3 → unchanged a σ1 σ3.
Proof.
  intros H1 H2 o Ho. destruct (H1 o Ho) as (o2 & Ho2 & Hs2 & Hv2).
  destruct (H2 o2 Ho2) as (o3 & Ho3 & Hs3 & Hv3).
  exists o3. split; [done |]. split; congruence.
Qed.

Lemma quiet_unchanged a σ σ' : quiet σ σ' → unchanged a σ σ'.
Proof. intros [_ Hq _ _] o Ho. eauto. Qed.

Lemma sealed_same a σ σ' :
  heap σ' = heap σ → timers σ' = timers σ → sealed a σ → sealed a σ'.
Proof. intros Hh Ht (Hlt & Hq & Hhs). unfold sealed, unheld. by rewrite Hh, Ht. Qed.

Lemma sealed_setTimeout a t d σ :
  ¬ held_by_task a t → sealed a σ → sealed a (setTimeout t d σ).
Proof.
  intros Ht (Hlt & Hq & Hhs). split; [done |]. split; [| done].
  cbn [setTimeout timers]. by apply Forall_enqueue.
Qed.

Lemma sealed_updateResult a p v s σ :
  p ≠ a → sealed a σ → sealed a (updateResult p v s σ).
Proof. intros Hp. by apply sealed_setTimeout. Qed.

Lemma sealed_set_future a p o' σ :
  Forall (fun h => ¬ held_by_handler a h) (handlers o') →
  sealed a σ → sealed a (set_future p o' σ).
Proof.
  intros Ho' (Hlt & Hq & Hhs). split; [by cbn; rewrite length_insert |].
  split; [done |]. intros x ox Hx. cbn [set_future heap] in Hx.
  destruct (decide (p = x)) as [<- | Hne].
  - destruct (decide (p < length (heap σ))) as [Hp | Hp].
    + rewrite list_lookup_insert_eq in Hx by done. by injection Hx as <-.
    + rewrite list_insert_ge in Hx by lia. by eapply Hhs.
  - rewrite list_lookup_insert_ne in Hx by done. by eapply Hhs.
Qed.

Section Sealed.

Variable status0 : STATUSES.
Variable a : fid.
Variable apply_fn : fn → value → state → completion * state.
Hypothesis apply_sealed :
  ∀ f v σ, ¬ reaches a f → sealed a σ → sealed a (apply_fn f v σ).2.

Lemma sealed_onFullfill h v σ :
  ¬ held_by_handler a h → sealed a σ → sealed a (Handler_onFullfill apply_fn h v σ).
Proof.
  intros Hh Hσ. unfold Handler_onFullfill, held_by_handler in *.
  destruct (onFulfill h) as [f |]; cbn in Hh.
  - pose proof (apply_sealed f v σ ltac:(tauto) Hσ) as Hq.
    destruct (apply_fn f v σ) as [[r | e] σ']; cbn in Hq;
      apply sealed_updateResult; tauto.
  - apply sealed_updateResult; tauto.
Qed.

Lemma sealed_onReject h v σ :
  ¬ held_by_handler a h → sealed a σ → sealed a (Handler_onReject apply_fn h v σ).
Proof.
  intros Hh Hσ. unfold Handler_onReject, held_by_handler in *.
  destruct (onReject h) as [f |]; cbn in Hh.
  - pose proof (apply_sealed f v σ ltac:(tauto) Hσ) as Hq.
    destruct (apply_fn f v σ) as [[r | e] σ']; cbn in Hq;
      apply sealed_updateResult; tauto.
  - do 2 (apply sealed_updateResult; [tauto |]). done.
Qed.

Lemma sealed_deliver p σ h :
  ¬ held_by_handler a h → sealed a σ → sealed a (deliver apply_fn p σ h).
Proof.
  intros Hh Hσ. unfold deliver. destruct (heap σ !! p) as [o |]; [| done].
  assert (sealed a (log_delivery p h σ)) as Hl by (by apply (sealed_same a σ)).
  case_decide; [by apply sealed_onFullfill | by apply sealed_onReject].
Qed.

Lemma sealed_foldl_deliver p hs : ∀ σ,
  Forall (fun h => ¬ held_by_handler a h) hs → sealed a σ →
  sealed a (foldl (deliver apply_fn p) σ hs).
Proof.
  induction hs as [| h hs IH]; intros σ Hhs Hσ; cbn [foldl]; [done |].
  apply Forall_cons in Hhs as [Hh Hhs]. apply IH; [done |].
  by apply sealed_deliver.
Qed.

Lemma sealed_executeHandlers p σ :
  sealed a σ → sealed a (executeHandlers apply_fn p σ).
Proof.
  intros Hσ. unfold executeHandlers.
  destruct (heap σ !! p) as [o |] eqn:Hp; [| done].
  case_decide; [done |].
  assert (sealed a (foldl (deliver apply_fn p) σ (handlers o))) as Hf.
  { apply sealed_foldl_deliver; [| done]. destruct Hσ as (_ & _ & Hhs). by eapply Hhs. }
  set (σ' := foldl _ _ _) in *.
  destruct (heap σ' !! p) as [o' |]; [| done].
  apply sealed_set_future; [constructor | done].
Qed.

Lemma sealed_addHandler p h σ :
  ¬ held_by_handler a h → sealed a σ → sealed a (addHandler apply_fn p h σ).
Proof.
  intros Hh Hσ. unfold addHandler.
  destruct (heap σ !! p) as [o |] eqn:Hp; [| done].
  apply sealed_executeHandlers, sealed_set_future; [| done]. cbn [handlers].
  apply Forall_app. split; [| by repeat constructor].
  destruct Hσ as (_ & _ & Hhs). by eapply Hhs.
Qed.

Lemma sealed_then p f r σ :
  ¬ reaches_opt a f → ¬ reaches_opt a r → sealed a σ →
  sealed a (then_ status0 apply_fn p f r σ).2.
Proof.
  intros Hf Hr Hσ. unfold then_. rewrite construct_after. cbn [snd after_resolver].
  apply sealed_addHandler.
  - unfold held_by_handler; cbn. destruct Hσ as (Hlt & _). intros [? | [? | ?]];
      [lia | done | done].
  - destruct Hσ as (Hlt & Hq & Hhs). split; [| split].
    + cbn. rewrite length_app. lia.
    + done.
    + intros x ox Hx. cbn [with_heap heap] in Hx.
      apply lookup_app_Some in Hx as [Hx | [_ Hx]]; [by eapply Hhs |].
      destruct (x - length (heap σ)) as [| k]; cbn in Hx; [| done].
      injection Hx as <-. constructor.
Qed.

Lemma sealed_update_task p v s σ :
  p ≠ a → sealed a σ → sealed a (update_task status0 apply_fn p v s σ).
Proof.
  intros Hp Hσ. unfold update_task.
  destruct (heap σ !! p) as [o |] eqn:Ho; [| done].
  case_decide; [| done].
  destruct (isThenable v).
  - destruct v; try done. apply sealed_then; cbn; congruence || done.
  - apply sealed_executeHandlers, sealed_set_future; [| done].
    cbn [handlers]. destruct Hσ as (_ & _ & Hhs). by eapply Hhs.
Qed.

End Sealed.

Lemma sealed_call s0 a depth : ∀ f v σ,
  ¬ reaches a f → sealed a σ → sealed a (call s0 depth f v σ).2.
Proof.
  induction depth as [| d IH]; intros f v σ Hf Hσ;
    destruct f as [p | p | r len agg | agg | agg | g | q f' r'];
    cbn [call snd]; cbn [reaches] in Hf;
    try (by apply sealed_updateResult); try done.
  - destruct (decide _).
    + apply sealed_updateResult; [done |]. by apply (sealed_same a σ).
    + by apply (sealed_same a σ).
  - destruct (decide _).
    + apply sealed_updateResult; [done |]. by apply (sealed_same a σ).
    + by apply (sealed_same a σ).
  - apply sealed_then; try done; unfold reaches_opt; tauto.
Qed.

Lemma unchanged_update_task s0 depth a p v s σ :
  p ≠ a → unchanged a σ (update_task s0 (call s0 depth) p v s σ).
Proof.
  intros Hp. unfold update_task.
  destruct (heap σ !! p) as [o |] eqn:Ho; [| apply unchanged_refl].
  case_decide; [| apply unchanged_refl].
  destruct (isThenable v).
  - destruct v; try apply unchanged_refl.
    apply quiet_unchanged, quiet_then, quiet_call.
  - eapply unchanged_trans;
      [| apply quiet_unchanged, quiet_executeHandlers, quiet_call].
    intros oa Ha. exists oa. cbn [set_future heap].
    by rewrite list_lookup_insert_ne.
Qed.

Lemma sealed_tick s0 depth a σ σ' :
  tick s0 depth σ = Some σ' → sealed a σ → sealed a σ' ∧ unchanged a σ σ'.
Proof.
  unfold tick. destruct (timers σ) as [| [due t] q] eqn:Hq; [done |].
  intros [= <-] (Hlt & Hts & Hhs). rewrite Hq in Hts.
  apply Forall_cons in Hts as [Ht Hts]. cbn [snd] in Ht.
  set (σ1 := mkState _ _ _ _ _).
  assert (sealed a σ1) as Hσ1 by (by split).
  assert (unchanged a σ σ1) as Hu1 by (intros o Ho; eauto).
  destruct t as [p v s | f v]; cbn [run_task held_by_task] in *.
  - split.
    + apply sealed_update_task; try done. apply sealed_call.
    + eapply unchanged_trans; [exact Hu1 |]. by apply unchanged_update_task.
  - split.
    + by apply sealed_call.
    + eapply unchanged_trans; [exact Hu1 |]. apply quiet_unchanged, quiet_call.
Qed.

Lemma sealed_run s0 depth a n : ∀ σ,
  sealed a σ → sealed a (run s0 depth n σ) ∧ unchanged a σ (run s0 depth n σ).
Proof.
  induction n as [| n IH]; intros σ Hσ; cbn [run].
  - split; [done | apply unchanged_refl].
  - destruct (tick s0 depth σ) as [σ' |] eqn:Ht.
    + destruct (sealed_tick _ _ _ _ _ Ht Hσ) as [Hσ' Hu].
      destruct (IH σ' Hσ') as [Hs Hu']. split; [done |].
      by eapply unchanged_trans.
    + split; [done | apply unchanged_refl].
Qed.

Lemma unreachable_state s0 depth n σ a o :
  unheld a σ → heap σ !! a = Some o →
  ∃ o', heap (run s0 depth n σ) !! a = Some o'
        ∧ status o' = status o ∧ val o' = val o.
Proof.
  intros Hu Ha.
  destruct (sealed_run s0 depth a n σ) as [_ Hk].
  { split; [by eapply lookup_lt_Some | done]. }
  by apply Hk.
Qed.

(** X11.  A future whose capabilities are held by no timer and by no
    registered handler (neither as callbacks nor as the child the
    handler settles) keeps its status and value through any number of
    turns of the event loop: the class has no other path that writes
    them. *)
Theorem unreachable_future_keeps_its_state (status0 : STATUSES) (depth : nat)
    (n : nat) (σ : state) (a : fid) (o : Future) :
  unheld a σ → heap σ !! a = Some o →
  unheld a (run status0 depth n σ)
  ∧ ∃ o', heap (run status0 depth n σ) !! a = Some o'
          ∧ status o' = status o ∧ val o' = val o.
Proof.
  intros Hu Ha.
  destruct (sealed_run status0 depth a n σ) as [[_ Hs] Hk].
  { split; [by eapply lookup_lt_Some | done]. }
  split; [done | by apply Hk].
Qed.


Lemma unreachable_future_keeps_its_state_witness :
  let σ := resolve 1 (VNum 1)
             (then_ Unset (call Unset 0) 1 (Some (FPure Return)) None
                (pending_futures Unset 2)).2 in
  unheld 0 (run Unset 0 5 σ)
  ∧ ∃ o', heap (run Unset 0 5 σ) !! 0 = Some o'
          ∧ status o' = PENDING ∧ val o' = VUndefined.
Proof.
  apply (unreachable_future_keeps_its_state Unset 0 5
           (resolve 1 (VNum 1)
              (then_ Unset (call Unset 0) 1 (Some (FPure Return)) None
                 (pending_futures Unset 2)).2)
           0 (mkFuture PENDING VUndefined [])).
  - split.
    + vm_compute. constructor; [intros H; discriminate H | constructor].
    + intros p o Hp. vm_compute in Hp.
      destruct p as [| [| [| p]]]; try done; injection Hp as <-;
        repeat constructor.
      cbn. intros [H | [H | H]]; [discriminate H | done | done].
  - reflexivity.
Defined.

(** ** [all] and [race] of nothing *)

(** X12.  [all([])] and [race([])] return a future that stays pending for
    ever: the loop over the inputs registers nothing, so nothing holds
    the capabilities of the aggregate.  (The state is one in which
    nothing refers to the object about to be created.) *)
Theorem aggregate_of_nothing_never_settles (status0 : STATUSES) (depth : nat)
    (n : nat) (σ : state) :
  unheld (length (heap σ)) σ →
  status_of (all status0 depth [] σ).1
    (run status0 depth n (all status0 depth [] σ).2) = Some PENDING
  ∧ status_of (race status0 depth [] σ).1
      (run status0 depth n (race status0 depth [] σ).2) = Some PENDING.
Proof.
  intros [Hq Hhs]. rewrite all_eq, race_eq. unfold subscribe. cbn [foldl fst snd].
  set (agg := length (heap σ)).
  set (h := heap σ ++ [mkFuture PENDING VUndefined []]).
  assert (h !! agg = Some (mkFuture PENDING VUndefined [])) as Hagg.
  { unfold h. rewrite lookup_app_r by (unfold agg; lia). by rewrite Nat.sub_diag. }
  assert (∀ σ', heap σ' = h → timers σ' = timers σ →
                status_of agg (run status0 depth n σ') = Some PENDING) as Hgen.
  { intros σ' Hh Ht.
    destruct (unreachable_state status0 depth n σ' agg
                (mkFuture PENDING VUndefined [])) as (o' & Ho' & Hs & _).
    - split; [by rewrite Ht |]. rewrite Hh. intros p o Hp. unfold h in Hp.
      apply lookup_app_Some in Hp as [Hp | [_ Hp]]; [by eapply Hhs |].
      destruct (p - length (heap σ)) as [| k]; cbn in Hp; [| done].
      injection Hp as <-. constructor.
    - by rewrite Hh.
    - unfold status_of. by rewrite Ho'; cbn; rewrite Hs. }
  split; by apply Hgen.
Qed.

Lemma aggregate_of_nothing_never_settles_witness :
  let σ := resolve 0 (VNum 1) (pending_futures Unset 1) in
  status_of (all Unset 0 [] σ).1 (run Unset 0 3 (all Unset 0 [] σ).2)
  = Some PENDING
  ∧ status_of (race Unset 0 [] σ).1 (run Unset 0 3 (race Unset 0 [] σ).2)
    = Some PENDING.
Proof.
  apply (aggregate_of_nothing_never_settles Unset 0 3
           (resolve 0 (VNum 1) (pending_futures Unset 1))).
  split.
  - vm_compute. constructor; [intros H; discriminate H | constructor].
  - intros p o Hp. vm_compute in Hp.
    destruct p as [| p]; try done. injection Hp as <-. constructor.
Defined.


(** ** Resolvers that settle through timers *)

Lemma enqueue_in_due_order due t q :
  in_due_order q → in_due_order (enqueue due t q).
Proof.
  induction q as [| [d t'] q IH]; cbn [enqueue in_due_order].
  - by split.
  - intros [Hd Hq]. destruct (d <=? due) eqn:Hle.
    + apply Nat.leb_le in Hle. cbn [in_due_order]. split; [| by apply IH].
      apply Forall_enqueue; [by cbn | done].
    + apply Nat.leb_gt in Hle. cbn [in_due_order]. split; [| by split].
      constructor; [cbn; lia |].
      eapply List.Forall_impl; [| exact Hd]. cbn. intros [d' t'']; cbn. lia.
Qed.

Lemma enqueue_calls_in_due_order this now es : ∀ q,
  in_due_order q → in_due_order (enqueue_calls this now es q).
Proof.
  unfold enqueue_calls.
  induction es as [| e es IH]; intros q Hq; cbn [foldl]; [done |].
  by apply IH, enqueue_in_due_order.
Qed.

Lemma capability_task_call this c : capability_call this (capability_task this c).
Proof. by destruct c. Qed.

Lemma enqueue_calls_capabilities this now es : ∀ q,
  Forall (fun e => capability_call this e.2) q →
  Forall (fun e => capability_call this e.2) (enqueue_calls this now es q).
Proof.
  unfold enqueue_calls.
  induction es as [| e es IH]; intros q Hq; cbn [foldl]; [done |].
  apply IH, Forall_enqueue; [apply capability_task_call | done].
Qed.

(** The timers due together with the first one, and the later ones. *)
Lemma due_order_split (P : task → Prop) d q :
  in_due_order q → Forall (fun e => d ≤ e.1) q → Forall (fun e => P e.2) q →
  ∃ zs q', q = map (pair d) zs ++ q'
           ∧ Forall P zs ∧ Forall (fun e => d < e.1) q'.
Proof.
  induction q as [| [d' t'] q IH]; intros Hq Hge HP.
  - by exists [], [].
  - destruct Hq as [Hd Hq].
    apply Forall_cons in Hge as [Hd' Hge]. apply Forall_cons in HP as [Ht HP].
    cbn in Hd', Ht. destruct (decide (d' = d)) as [-> | Hne].
    + destruct (IH Hq Hge HP) as (zs & q' & -> & Hzs & Hq').
      exists (t' :: zs), q'. split; [done |]. split; [by constructor | done].
    + exists [], ((d', t') :: q). split; [done |]. split; [constructor |].
      constructor; [cbn; lia |].
      eapply List.Forall_impl; [| exact Hd]. cbn. intros [d'' t'']; cbn. lia.
Qed.

Lemma resolver_timers this body : ∀ σ,
  first_sync body = None →
  run_resolver body this σ
  = (Return VUndefined,
     mkState (heap σ) (arrays σ)
       (enqueue_calls this (clock σ) (later_calls body) (timers σ))
       (clock σ) (trace σ)).
Proof.
  induction body as [| st body IH]; intros σ Hb.
  - by destruct σ.
  - destruct st as [v | e | d v | d e | e]; cbn [first_sync] in Hb; try done;
      cbn [run_resolver later_calls]; by rewrite IH.
Qed.

Lemma earliest_later_calls body : earliest (later_calls body) = earliest_call body.
Proof.
  induction body as [| st body IH]; [done |].
  destruct st; cbn [later_calls earliest earliest_call]; by rewrite ?IH.
Qed.

Lemma head_enqueue due t q :
  head (enqueue due t q)
  = match head q with
    | Some h => if h.1 <=? due then Some h else Some (due, t)
    | None => Some (due, t)
    end.
Proof.
  destruct q as [| [d t'] q]; cbn [enqueue head]; [done |]. cbn [fst].
  by destruct (d <=? due).
Qed.

Lemma head_enqueue_calls this now es : ∀ q,
  head (enqueue_calls this now es q) = first_due this now (head q) (earliest es).
Proof.
  unfold enqueue_calls.
  induction es as [| e es IH]; intros q; cbn [foldl earliest].
  - by destruct (head q).
  - rewrite IH, head_enqueue. unfold first_due, pick.
    destruct (head q) as [[d0 t0] |], (earliest es) as [[d1 c1] |];
      destruct e as [d c]; cbn [fst snd];
      repeat (match goal with
              | |- context [?x <? ?y] =>
                  destruct (Nat.ltb_spec x y); cbn [fst snd]
              end);
      repeat (match goal with
              | |- context [?x <=? ?y] =>
                  destruct (Nat.leb_spec x y); cbn [fst snd]
              end);
      try done; cbn [fst snd] in *; lia.
Qed.


Lemma length_enqueue due t q : length (enqueue due t q) = S (length q).
Proof.
  induction q as [| [d t'] q IH]; cbn [enqueue length]; [done |].
  destruct (d <=? due); cbn [length]; by rewrite ?IH.
Qed.

Lemma length_enqueue_calls this now es : ∀ q,
  length (enqueue_calls this now es q) = length es + length q.
Proof.
  unfold enqueue_calls.
  induction es as [| e es IH]; intros q; cbn [foldl length]; [done |].
  rewrite IH, length_enqueue. lia.
Qed.

Lemma length_later_calls body : length (later_calls body) ≤ length body.
Proof.
  induction body as [| st body IH]; [done |].
  destruct st; cbn [later_calls length]; lia.
Qed.

Lemma run_capability_task s0 depth this c σ :
  run_task s0 depth (capability_task this c) σ = settle this σ c.
Proof.
  destruct c; cbn [capability_task run_task settle];
    by rewrite ?call_FResolve, ?call_FReject.
Qed.




(** ** [all] on inputs that have fulfilled already *)

Lemma then_settled_all s0 depth σ f v r len agg vals zs q :
  heap σ !! f = Some (mkFuture FULFILLED v []) →
  arrays σ !! r = Some vals → ready σ zs q →
  ∃ σ', then_ s0 (call s0 depth) f (Some (FAllThen r len agg)) None σ
        = (length (heap σ), σ')
    ∧ heap σ' = heap σ ++ [mkFuture PENDING VUndefined []]
    ∧ arrays σ' = <[r := vals ++ [v]]> (arrays σ)
    ∧ clock σ' = clock σ
    ∧ ready σ'
        (zs ++ (if decide (length (vals ++ [v]) = len)
                then [TUpdate agg (VArray r) FULFILLED] else [])
            ++ [TUpdate (length (heap σ)) VUndefined FULFILLED]) q.
Proof.
  intros Hf Hvals Hr. pose proof (lookup_lt_Some _ _ _ Hf) as Hlt.
  pose proof (lookup_lt_Some _ _ _ Hvals) as Hrlt.
  unfold then_. rewrite construct_after. cbn [after_resolver].
  set (T := length (heap σ)).
  set (σ0 := with_heap (heap σ ++ [mkFuture PENDING VUndefined []]) σ).
  set (H := mkHandler (Some (FAllThen r len agg)) None T).
  assert (heap σ0 !! f = Some (mkFuture FULFILLED v [])) as Hf0.
  { unfold σ0; cbn [with_heap heap]. by rewrite lookup_app_l. }
  unfold addHandler. rewrite Hf0. cbn [status val handlers app].
  set (σ1 := set_future _ _ _).
  assert (heap σ1 !! f = Some (mkFuture FULFILLED v [H])) as Hf1.
  { unfold σ1; cbn [set_future heap]. apply list_lookup_insert_eq.
    unfold σ0; cbn [with_heap heap]. rewrite length_app. lia. }
  rewrite (executeHandlers_settled _ _ _ _ Hf1) by done. cbn zeta.
  cbn [handlers foldl]. unfold deliver. rewrite Hf1. cbn [status val].
  rewrite decide_True by done. unfold Handler_onFullfill. cbn [H onFulfill child].
  rewrite call_FAllThen.
  assert (array_of r (array_push r v (log_delivery f H σ1)) = vals ++ [v]) as Harr.
  { unfold array_of at 1. unfold array_push, log_delivery, σ1, σ0; simpl.
    rewrite list_lookup_insert_eq by done. unfold array_of; simpl.
    by rewrite Hvals. }
  rewrite Harr. eexists. split; [reflexivity |].
  set (ts := (if decide _ then _ else _) ++ _).
  assert (∀ σx, (if decide (length (vals ++ [v]) = len)
                 then resolve agg (VArray r) σx else σx)
                = defer (if decide (length (vals ++ [v]) = len)
                         then [TUpdate agg (VArray r) FULFILLED] else []) σx) as Hif
    by (intros σx; by case_decide).
  rewrite Hif.
  change (resolve T VUndefined ?σx) with (defer [TUpdate T VUndefined FULFILLED] σx).
  rewrite <- defer_app. fold ts.
  set (σ2 := array_push r v (log_delivery f H σ1)).
  assert (heap (defer ts σ2)
          = <[f := mkFuture FULFILLED v [H]]>
              (heap σ ++ [mkFuture PENDING VUndefined []])) as Hh
    by (by rewrite defer_heap).
  rewrite Hh, list_lookup_insert_eq by (rewrite length_app; lia).
  unfold set_future; cbn [heap arrays timers clock trace status val].
  rewrite Hh, list_insert_insert_eq, defer_arrays.
  split.
  { rewrite insert_app_l by done. f_equal. by apply list_insert_id. }
  split.
  { unfold σ2, array_push, array_of, log_delivery, σ1, σ0; simpl.
    by rewrite Hvals. }
  rewrite defer_clock, defer_trace. split; [done |].
  pose proof (ready_defer σ2 zs q ts) as Hrd.
  destruct Hrd as [Hq1 Hq2]; [by split; destruct Hr |].
  rewrite defer_clock in Hq1, Hq2. by split.
Qed.


Lemma subscribe_fulfilled s0 depth r len agg base fs : ∀ vs σ k vals zs q,
  Forall2 (fun f v => heap σ !! f = Some (mkFuture FULFILLED v [])) fs vs →
  length (heap σ) = base + 2 * k →
  arrays σ !! r = Some vals → length vals = k → ready σ zs q →
  length (heap (subscribe s0 depth (FAllThen r len agg) agg σ fs))
  = base + 2 * (k + length fs)
  ∧ (∀ x, x < length (heap σ) →
       heap (subscribe s0 depth (FAllThen r len agg) agg σ fs) !! x
       = heap σ !! x)
  ∧ (∀ j, j < length fs →
       relay_waiting (heap (subscribe s0 depth (FAllThen r len agg) agg σ fs))
         agg base (k + j))
  ∧ arrays (subscribe s0 depth (FAllThen r len agg) agg σ fs)
    = <[r := vals ++ vs]> (arrays σ)
  ∧ clock (subscribe s0 depth (FAllThen r len agg) agg σ fs) = clock σ
  ∧ ready (subscribe s0 depth (FAllThen r len agg) agg σ fs)
      (zs ++ settled_inputs_tasks r len agg base k (length fs)) q.
Proof.
  induction fs as [| f fs IH]; intros vs σ k vals zs q Hfs Hlen Hvals Hk Hr.
  - apply Forall2_nil_inv_l in Hfs as ->. unfold subscribe. cbn.
    rewrite !app_nil_r, Nat.add_0_r.
    split; [done |]. split; [done |]. split; [intros j Hj; lia |].
    split; [by rewrite list_insert_id |]. by split.
  - apply Forall2_cons_inv_l in Hfs as (v & vs' & Hf & Hfs & ->).
    rewrite subscribe_cons. unfold subscribe at 2 4 6 8 10 12. cbn [foldl].
    destruct (then_settled_all s0 depth σ f v r len agg vals zs q Hf Hvals Hr)
      as (σa & -> & Hha & Haa & Hca & Hra).
    set (T := length (heap σ)) in *.
    assert (heap σa !! T = Some (mkFuture PENDING VUndefined [])) as HT.
    { rewrite Hha, lookup_app_r by (unfold T; lia). by rewrite Nat.sub_diag. }
    unfold catch. rewrite (then_pending _ _ _ _ _ _ _ HT eq_refl).
    cbn [snd status val handlers app].
    set (σb := mkState _ _ _ _ _).
    assert (length (heap σa) = S T) as Hla
      by (rewrite Hha, length_app; cbn; unfold T; lia).
    assert (T = then_child base k) as HTk by (unfold then_child, T; lia).
    assert (S T = catch_child base k) as HUk by (unfold catch_child, T; lia).
    assert (heap σb
            = heap σ ++ [mkFuture PENDING VUndefined [relay_handler agg base k];
                         mkFuture PENDING VUndefined []]) as Hhb.
    { unfold σb; cbn [heap]. rewrite Hla, Hha.
      rewrite insert_app_r_alt by (unfold T; lia).
      replace (T - length (heap σ)) with 0 by (unfold T; lia).
      cbn [insert list_insert]. rewrite <- app_assoc. cbn [app].
      unfold relay_handler. by rewrite HUk. }
    assert (length (heap σb) = base + 2 * S k) as Hlb.
    { rewrite Hhb, length_app. cbn [length]. lia. }
    assert (arrays σb !! r = Some (vals ++ [v])) as Hvb.
    { unfold σb; cbn [arrays]. rewrite Haa. apply list_lookup_insert_eq.
      by eapply lookup_lt_Some. }
    assert (ready σb
              (zs ++ (if decide (S k = len)
                      then [TUpdate agg (VArray r) FULFILLED] else [])
                  ++ [TUpdate (then_child base k) VUndefined FULFILLED]) q)
      as Hrb.
    { destruct Hra as [Hq1 Hq2]. rewrite length_app, Hk in Hq1. cbn [length] in Hq1.
      rewrite Nat.add_1_r in Hq1. rewrite <- HTk. by split. }
    destruct (IH vs' σb (S k) (vals ++ [v])
                (zs ++ (if decide (S k = len)
                        then [TUpdate agg (VArray r) FULFILLED] else [])
                    ++ [TUpdate (then_child base k) VUndefined FULFILLED]) q)
      as (H1 & H2 & H3 & H4 & H5 & H6); try done.
    { eapply Forall2_impl; [exact Hfs |]. intros x y Hx. cbn beta in *.
      rewrite Hhb, lookup_app_l by (by eapply lookup_lt_Some). done. }
    { rewrite length_app, Hk. cbn [length]. lia. }
    split; [rewrite H1; cbn [length]; lia |].
    split.
    { intros x Hx. rewrite H2 by (rewrite Hlb; lia).
      rewrite Hhb. by rewrite lookup_app_l. }
    split.
    { intros [| j] Hj.
      - rewrite Nat.add_0_r. unfold relay_waiting.
        rewrite !H2 by (rewrite Hlb; unfold then_child, catch_child; lia).
        rewrite Hhb, <- HTk, <- HUk.
        rewrite !lookup_app_r by (unfold T; lia).
        replace (T - length (heap σ)) with 0 by (unfold T; lia).
        replace (S T - length (heap σ)) with 1 by (unfold T; lia). done.
      - replace (k + S j) with (S k + j) by lia. apply H3. cbn [length] in Hj. lia. }
    split.
    { rewrite H4. unfold σb; cbn [arrays]. rewrite Haa, list_insert_insert_eq.
      by rewrite <- app_assoc. }
    split; [rewrite H5; unfold σb; cbn [clock]; done |].
    cbn [length settled_inputs_tasks]. rewrite <- !app_assoc in H6. exact H6.
Qed.


(** Updates of futures nobody subscribed to. *)
Lemma drain_leaves s0 depth xs : ∀ σ,
  ready σ (map (fun x => TUpdate x VUndefined FULFILLED) xs) [] →
  Forall (fun x => ∃ o, heap σ !! x = Some o ∧ handlers o = []) xs →
  timers (run s0 depth (length xs) σ) = []
  ∧ arrays (run s0 depth (length xs) σ) = arrays σ
  ∧ ∀ y, y ∉ xs → heap (run s0 depth (length xs) σ) !! y = heap σ !! y.
Proof.
  induction xs as [| x xs IH]; intros σ Hr Hxs.
  - cbn [length run]. split; [by apply ready_nil | done].
  - apply Forall_cons in Hxs as [(o & Hx & Ho) Hxs]. cbn [map length] in Hr |- *.
    assert (∃ σ', tick s0 depth σ = Some σ'
                  ∧ ready σ' (map (fun x => TUpdate x VUndefined FULFILLED) xs) []
                  ∧ arrays σ' = arrays σ
                  ∧ (heap σ' = heap σ
                     ∨ heap σ' = <[x := mkFuture FULFILLED VUndefined []]> (heap σ)))
      as (σ' & Ht & Hr' & Ha' & Hh').
    { destruct (decide (status o = PENDING)) as [Hs | Hs].
      - destruct (tick_settle_spec s0 depth σ x VUndefined FULFILLED _ [] o
                    Hr Hx Hs eq_refl ltac:(done))
          as (σ' & Ht & Hh & Ha & Hr'); [by rewrite Ho |].
        rewrite Ho in Hr'. cbn [map concat] in Hr'. rewrite app_nil_r in Hr'.
        exists σ'. eauto.
      - destruct (tick_dead_spec s0 depth σ x VUndefined FULFILLED _ [] o Hr Hx Hs)
          as (σ' & Ht & Hh & Ha & Hr').
        exists σ'. eauto. }
    rewrite (run_S _ _ _ _ _ Ht).
    destruct (IH σ' Hr') as (H1 & H2 & H3).
    { eapply List.Forall_impl; [| exact Hxs]. cbn beta.
      intros y (oy & Hy & Hoy). destruct Hh' as [-> | ->]; [eauto |].
      destruct (decide (x = y)) as [<- | Hne].
      - exists (mkFuture FULFILLED VUndefined []).
        rewrite list_lookup_insert_eq by (by eapply lookup_lt_Some). done.
      - exists oy. by rewrite list_lookup_insert_ne. }
    split; [done |]. split; [by rewrite H2 |].
    intros y Hy. rewrite H3 by set_solver.
    destruct Hh' as [-> | ->]; [done |].
    rewrite list_lookup_insert_ne; [done | set_solver].
Qed.

(** The updates that [all] left with the host run: the children of
    [then] are fulfilled one after the other and the aggregate with
    the last of them. *)
Lemma drain_inputs s0 depth r len agg base : ∀ m k σ us,
  k + m = len → 0 < m → agg < base →
  ready σ (settled_inputs_tasks r len agg base k m ++ us) [] →
  heap σ !! agg = Some (mkFuture PENDING VUndefined []) →
  (∀ j, k ≤ j → j < len → relay_waiting (heap σ) agg base j) →
  ready (run s0 depth (m + 1) σ)
    (us ++ map (fun j => TUpdate (catch_child base j) VUndefined FULFILLED)
          (seq k m)) []
  ∧ arrays (run s0 depth (m + 1) σ) = arrays σ
  ∧ heap (run s0 depth (m + 1) σ) !! agg
    = Some (mkFuture FULFILLED (VArray r) [])
  ∧ ∀ y, (∀ j, y ≠ then_child base j) → y ≠ agg →
         heap (run s0 depth (m + 1) σ) !! y = heap σ !! y.
Proof.
  induction m as [| m IH]; intros k σ us Hkm Hm Hab Hr Hagg Hw; [lia |].
  cbn [settled_inputs_tasks] in Hr.
  assert (then_child base k ≠ agg) as HTa by (unfold then_child; lia).
  destruct (Hw k ltac:(lia) ltac:(lia)) as [HT HU].
  destruct (decide (S k = len)) as [Hlast | Hmore].
  - assert (m = 0) as -> by lia. cbn [settled_inputs_tasks app] in Hr.
    destruct (tick_settle_spec s0 depth σ agg (VArray r) FULFILLED _ [] _
                Hr Hagg eq_refl eq_refl ltac:(done) ltac:(by constructor))
      as (σ1 & Ht1 & Hh1 & Ha1 & Hr1).
    cbn [handlers map concat] in Hr1. rewrite app_nil_r in Hr1.
    assert (heap σ1 !! then_child base k
            = Some (mkFuture PENDING VUndefined [relay_handler agg base k])) as HT1.
    { by rewrite Hh1, list_lookup_insert_ne. }
    destruct (tick_settle_spec s0 depth σ1 _ VUndefined FULFILLED _ [] _
                Hr1 HT1 eq_refl eq_refl ltac:(done) ltac:(by repeat constructor))
      as (σ2 & Ht2 & Hh2 & Ha2 & Hr2).
    cbn [handlers map concat app] in Hr2.
    unfold relay_handler in Hr2; cbn in Hr2. rewrite app_nil_r in Hr2.
    cbn [Nat.add]. rewrite (run_S _ _ _ _ _ Ht1), (run_S _ _ _ _ _ Ht2). cbn [run].
    split; [exact Hr2 |]. split; [by rewrite Ha2, Ha1 |].
    assert (agg < length (heap σ)) as Hl by (by eapply lookup_lt_Some).
    split.
    + rewrite Hh2, list_lookup_insert_ne by done.
      rewrite Hh1. by apply list_lookup_insert_eq.
    + intros y Hy Hya. rewrite Hh2, list_lookup_insert_ne by (by apply not_eq_sym, Hy).
      rewrite Hh1. by rewrite list_lookup_insert_ne.
  - cbn [app] in Hr.
    destruct (tick_settle_spec s0 depth σ _ VUndefined FULFILLED _ [] _
                Hr HT eq_refl eq_refl ltac:(done) ltac:(by repeat constructor))
      as (σ1 & Ht1 & Hh1 & Ha1 & Hr1).
    cbn [handlers map concat app] in Hr1.
    unfold relay_handler in Hr1; cbn in Hr1. rewrite app_nil_r in Hr1.
    rewrite <- app_assoc in Hr1.
    destruct (IH (S k) σ1
                (us ++ [TUpdate (catch_child base k) VUndefined FULFILLED]))
      as (H1 & H2 & H3 & H4); try done; try lia.
    { by rewrite Hh1, list_lookup_insert_ne. }
    { intros j Hj1 Hj2. destruct (Hw j ltac:(lia) Hj2) as [HTj HUj].
      unfold relay_waiting. rewrite Hh1.
      rewrite !list_lookup_insert_ne by (unfold then_child, catch_child; lia).
      done. }
    cbn [Nat.add]. rewrite (run_S _ _ _ _ _ Ht1).
    split; [| split; [by rewrite H2 | split; [done |]]].
    + cbn [seq map]. rewrite <- app_assoc in H1. exact H1.
    + intros y Hy Hya. rewrite H4 by done.
      rewrite Hh1. rewrite list_lookup_insert_ne; [done |]. by apply not_eq_sym, Hy.
Qed.


(** X14.  [all] on inputs that have all fulfilled before the call: the
    callbacks run during the call, so the results array holds the
    values in input order when [all] returns, whatever the order in
    which the inputs had fulfilled.  The aggregate, still pending then,
    is fulfilled with this array, which stays as it is. *)
Theorem all_of_fulfilled_inputs_keeps_input_order (status0 : STATUSES)
    (depth : nat) (fs : list fid) (vs : list value) (σ : state) :
  timers σ = [] → fs ≠ [] →
  Forall2 (fun f v => heap σ !! f = Some (mkFuture FULFILLED v [])) fs vs →
  let agg := (all status0 depth fs σ).1 in
  let σ1 := (all status0 depth fs σ).2 in
  let r := length (arrays σ) in
  status_of agg σ1 = Some PENDING
  ∧ array_of r σ1 = vs
  ∧ ∀ m, 2 * length fs + 1 ≤ m →
      settled_as (run status0 depth m σ1) agg FULFILLED (VArray r)
      ∧ array_of r (run status0 depth m σ1) = vs.
Proof.
  intros Hq Hne Hfs. rewrite all_eq. cbv zeta. cbn [fst snd].
  set (agg := length (heap σ)). set (r := length (arrays σ)).
  set (σ0 := with_arrays (arrays σ ++ [[]])
               (with_heap (heap σ ++ [mkFuture PENDING VUndefined []]) σ)).
  assert (heap σ0 !! agg = Some (mkFuture PENDING VUndefined [])) as Hagg0.
  { unfold σ0; cbn [with_arrays with_heap heap].
    rewrite lookup_app_r by (unfold agg; lia). by rewrite Nat.sub_diag. }
  assert (length (heap σ0) = S agg) as Hl0.
  { unfold σ0; cbn [with_arrays with_heap heap]. rewrite length_app. cbn.
    unfold agg. lia. }
  destruct (subscribe_fulfilled status0 depth r (length fs) agg (S agg) fs vs σ0
              0 [] [] [])
    as (H1 & H2 & H3 & H4 & H5 & H6).
  { eapply Forall2_impl; [exact Hfs |]. intros f v Hf. cbn beta in *.
    unfold σ0; cbn [with_arrays with_heap heap].
    rewrite lookup_app_l by (by eapply lookup_lt_Some). done. }
  { rewrite Hl0. lia. }
  { unfold σ0; cbn [with_arrays arrays].
    rewrite lookup_app_r by (unfold r; lia). by rewrite Nat.sub_diag. }
  { done. }
  { unfold σ0. by split. }
  set (σ1 := subscribe _ _ _ _ _ _) in *. cbn [app] in H4, H6.
  assert (heap σ1 !! agg = Some (mkFuture PENDING VUndefined [])) as Hagg1.
  { rewrite H2 by (rewrite Hl0; lia). done. }
  assert (arrays σ1 !! r = Some vs) as Hvs.
  { rewrite H4. unfold σ0; cbn [with_arrays arrays].
    apply list_lookup_insert_eq. rewrite length_app. cbn. unfold r. lia. }
  split; [unfold status_of; by rewrite Hagg1 |].
  split; [unfold array_of; by rewrite Hvs |].
  assert (0 < length fs) as Hpos by (destruct fs; [done | cbn; lia]).
  destruct (drain_inputs status0 depth r (length fs) agg (S agg) (length fs) 0
              σ1 []) as (D1 & D2 & D3 & D4); try done; try lia.
  { by rewrite app_nil_r. }
  { intros j _ Hj. by apply (H3 j). }
  cbn [app] in D1. set (σ2 := run status0 depth (length fs + 1) σ1) in *.
  destruct (drain_leaves status0 depth
              (map (catch_child (S agg)) (seq 0 (length fs))) σ2)
    as (L1 & L2 & L3).
  { by rewrite map_map. }
  { apply Forall_forall. intros x Hx. apply list_elem_of_fmap in Hx as (j & -> & Hj).
    apply elem_of_seq in Hj.
    exists (mkFuture PENDING VUndefined []). split; [| done].
    rewrite D4; [by apply (H3 j); lia | |];
      unfold then_child, catch_child; intros; lia. }
  rewrite length_map, length_seq in L1, L2, L3.
  set (σ3 := run status0 depth (length fs) σ2) in *.
  assert (heap σ3 !! agg = Some (mkFuture FULFILLED (VArray r) [])) as Hagg3.
  { rewrite L3; [done |]. intros Hin.
    apply list_elem_of_fmap in Hin as (j & Hj & _). unfold catch_child in Hj. lia. }
  intros m Hm.
  replace m with ((length fs + 1) + (length fs + (m - (2 * length fs + 1)))) by lia.
  rewrite run_add. fold σ2. rewrite run_add. fold σ3. rewrite run_idle by done.
  split.
  - by apply (settled_as_lookup _ agg (mkFuture FULFILLED (VArray r) [])).
  - unfold array_of. by rewrite L2, D2, Hvs.
Qed.

Lemma all_of_fulfilled_inputs_keeps_input_order_witness :
  let σ := run Unset 0 4
             (new_future Unset [LaterResolve 5 (VNum 2)]
                (new_future Unset [LaterResolve 10 (VNum 1)] empty_state).2).2 in
  let agg := (all Unset 0 [0; 1] σ).1 in
  let σ1 := (all Unset 0 [0; 1] σ).2 in
  status_of agg σ1 = Some PENDING
  ∧ array_of 0 σ1 = [VNum 1; VNum 2]
  ∧ ∀ m, 5 ≤ m →
      settled_as (run Unset 0 m σ1) agg FULFILLED (VArray 0)
      ∧ array_of 0 (run Unset 0 m σ1) = [VNum 1; VNum 2].
Proof.
  apply (all_of_fulfilled_inputs_keeps_input_order Unset 0 [0; 1]
           [VNum 1; VNum 2]
           (run Unset 0 4
              (new_future Unset [LaterResolve 5 (VNum 2)]
                 (new_future Unset [LaterResolve 10 (VNum 1)] empty_state).2).2)).
  - reflexivity.
  - discriminate.
  - repeat constructor.
Defined.


(** ** A callback that subscribes to another future *)

(** X15.  [p.then(() => { q.then(f, r) })] with [q] another future, still
    pending: when [p] is fulfilled the handler on [p] is called once,
    [q] gains the one handler the callback registers, and the child of
    the outer [then] is fulfilled with [undefined], the callback's
    result. *)
Theorem nested_then_on_another_future (status0 : STATUSES) (d : nat)
    (σ : state) (p q : fid) (w wq v : value) (hq : list Handler)
    (f r : option fn) :
  idle σ → p ≠ q →
  heap σ !! p = Some (mkFuture PENDING w []) →
  heap σ !! q = Some (mkFuture PENDING wq hq) →
  isThenable v = false →
  let '(c, σ1) := then_ status0 (call status0 (S d)) p
                    (Some (FThenOn q f r)) None σ in
  let σ2 := run status0 (S d) 1 (resolve p v σ1) in
  trace σ2 = trace σ ++ [(p, mkHandler (Some (FThenOn q f r)) None c)]
  ∧ heap σ2 !! p = Some (mkFuture FULFILLED v [])
  ∧ heap σ2 !! q = Some (mkFuture PENDING wq (hq ++ [mkHandler f r (S c)]))
  ∧ ∀ n, 1 ≤ n → settled_as (run status0 (S d) n σ2) c FULFILLED VUndefined.
Proof.
  intros Hidle Hpq Hp Hq Hv.
  pose proof (lookup_lt_Some _ _ _ Hp) as Hplt.
  pose proof (lookup_lt_Some _ _ _ Hq) as Hqlt.
  rewrite (then_pending _ _ _ _ _ _ _ Hp eq_refl). cbn [status val handlers app].
  set (c := length (heap σ)). set (h := mkHandler _ _ c).
  set (σ1 := mkState _ _ _ _ _). cbv zeta.
  assert (ready (resolve p v σ1) [TUpdate p v FULFILLED] (timers σ)) as Hr.
  { apply (ready_setTimeout σ1 [] (timers σ)). by split. }
  rewrite (run_S _ _ 0 _ _ (tick_ready _ _ _ _ _ _ Hr)). cbn [run run_task].
  set (σp := popped _ _ _).
  assert (heap σp !! p = Some (mkFuture PENDING w [h])) as Hpp.
  { unfold σp, σ1; cbn [popped resolve updateResult setTimeout heap].
    rewrite lookup_app_l by (by rewrite length_insert).
    by apply list_lookup_insert_eq. }
  rewrite (update_task_plain _ _ _ _ _ _ _ Hpp eq_refl Hv). cbn [handlers].
  set (σs := set_future _ _ _).
  assert (heap σs !! p = Some (mkFuture FULFILLED v [h])) as Hps.
  { unfold σs; cbn [set_future heap]. apply list_lookup_insert_eq.
    by eapply lookup_lt_Some. }
  rewrite (executeHandlers_settled _ _ _ _ Hps) by done. cbn zeta.
  cbn [handlers foldl]. unfold deliver. rewrite Hps. cbn [status val].
  rewrite decide_True by done. unfold Handler_onFullfill. cbn [h onFulfill child].
  fold h. cbn [call].
  set (σx := log_delivery p h σs).
  assert (heap σx !! q = Some (mkFuture PENDING wq hq)) as Hqx.
  { unfold σx, σs, σp, σ1;
      cbn [log_delivery set_future popped resolve updateResult setTimeout heap].
    rewrite list_lookup_insert_ne by done.
    rewrite lookup_app_l by (by rewrite length_insert).
    by rewrite list_lookup_insert_ne. }
  assert (length (heap σx) = S c) as Hlx.
  { unfold σx, σs, σp, σ1;
      cbn [log_delivery set_future popped resolve updateResult setTimeout heap].
    rewrite length_insert, length_app, length_insert. cbn. unfold c. lia. }
  rewrite (then_pending _ _ _ _ _ _ _ Hqx eq_refl).
  cbn [snd status val handlers]. rewrite Hlx.
  set (σy := mkState _ _ _ _ _).
  assert (heap σy !! p = Some (mkFuture FULFILLED v [h])) as Hpy.
  { unfold σy; cbn [heap]. rewrite lookup_app_l by (rewrite length_insert, Hlx; lia).
    rewrite list_lookup_insert_ne by done. unfold σx; cbn [log_delivery heap].
    exact Hps. }
  assert (heap (resolve c VUndefined σy) = heap σy) as Hhr by done.
  rewrite Hhr, Hpy. cbn [status val].
  set (σ2 := set_future _ _ _).
  assert (heap σ2 = <[p := mkFuture FULFILLED v []]> (heap σy)) as Hh2 by done.
  assert (length (heap σy) = S (S c)) as Hly.
  { unfold σy; cbn [heap]. rewrite length_app, length_insert, Hlx. cbn. lia. }
  split.
  { unfold σ2, σy, σx, σs, σp, σ1;
      cbn [set_future resolve updateResult setTimeout log_delivery popped trace].
    done. }
  split.
  { rewrite Hh2. apply list_lookup_insert_eq. rewrite Hly. unfold c. lia. }
  split.
  { rewrite Hh2, list_lookup_insert_ne by done. unfold σy; cbn [heap].
    rewrite lookup_app_l by (rewrite length_insert, Hlx; lia).
    apply list_lookup_insert_eq. rewrite Hlx. lia. }
  intros n Hn.
  apply (child_update_plain status0 (S d) σ2 c VUndefined VUndefined FULFILLED []
           (timers σ)); try done; [| | by left].
  - unfold σ2. apply (ready_setTimeout
                        (set_future p (mkFuture FULFILLED v []) σy) [] (timers σ)).
    split; [done |]. exact Hidle.
  - rewrite Hh2, list_lookup_insert_ne by (unfold c; lia).
    unfold σy; cbn [heap]. rewrite lookup_app_l by (rewrite length_insert, Hlx; lia).
    rewrite list_lookup_insert_ne by (unfold c; lia).
    unfold σx, σs, σp, σ1;
      cbn [log_delivery set_future popped resolve updateResult setTimeout heap].
    rewrite list_lookup_insert_ne by (unfold c; lia).
    rewrite lookup_app_r by (by rewrite length_insert).
    by rewrite length_insert, Nat.sub_diag.
Qed.


Lemma nested_then_on_another_future_witness :
  let '(c, σ1) := then_ Unset (call Unset 1) 0
                    (Some (FThenOn 1 (Some (FPure Return)) None)) None
                    (pending_futures Unset 2) in
  let σ2 := run Unset 1 1 (resolve 0 (VNum 1) σ1) in
  trace σ2
  = trace (pending_futures Unset 2)
    ++ [(0, mkHandler (Some (FThenOn 1 (Some (FPure Return)) None)) None c)]
  ∧ heap σ2 !! 0 = Some (mkFuture FULFILLED (VNum 1) [])
  ∧ heap σ2 !! 1
    = Some (mkFuture PENDING VUndefined
              ([] ++ [mkHandler (Some (FPure Return)) None (S c)]))
  ∧ ∀ n, 1 ≤ n → settled_as (run Unset 1 n σ2) c FULFILLED VUndefined.
Proof.
  apply (nested_then_on_another_future Unset 0 (pending_futures Unset 2) 0 1
           VUndefined VUndefined (VNum 1) [] (Some (FPure Return)) None).
  - constructor.
  - discriminate.
  - reflexivity.
  - reflexivity.
  - reflexivity.
Defined.
